(** * The s-ui configuration reconciliation engine: model and properties

    A shallow embedding of the service layer of s-ui
    (service/endpoints.go, the inbound, outbound, client, setting and
    config services, and the model package) together with the properties
    the specification states about it.

    Conventions
    - JSON documents are values of [json]; a [json.RawMessage] is a
      [RawMessage]: the nil slice, bytes that are not a JSON text, or the
      bytes of a JSON value.
    - A Go [error] is a value of [error]; a call returns an [outcome]:
      a value, an error, or a panic.
    - Service code runs in the monad [M]: it threads a [World] (the durable
      store, the open transaction, the live core, the watermark, the clock)
      and stops at the first error or panic, keeping the world reached.
    - The store (gorm over SQLite), the live core, the link generator and
      the network clients are collaborators outside the service layer; they
      are the fields of [Collaborators]. *)

From Stdlib Require Import ZArith String Ascii Lia.
From Stdlib Require Strings.Byte.
From stdpp Require Import base option list gmap strings pretty sorting.

Set Warnings "-register-all".
Local Open Scope Z_scope.

(** ** Go library functions used by the services *)

Module strconv.

Definition digit (c : ascii) : option Z :=
  let n := Z.of_N (N_of_ascii c) in
  if (48 <=? n) && (n <=? 57) then Some (n - 48) else None.

(** The digits of [s] read in base 10; [None] when [s] is empty or holds
    a character that is not a digit. *)
Fixpoint digits (acc : Z) (s : string) : option Z :=
  match s with
  | EmptyString => Some acc
  | String c s' =>
      match digit c with
      | Some d => digits (10 * acc + d) s'
      | None => None
      end
  end.

Definition ParseUint (s : string) : option Z :=
  match s with
  | EmptyString => None
  | _ => digits 0 s
  end.

(** [strconv.ParseInt(s, 10, 64)]: an optional sign, then decimal
    digits; a value outside the 64-bit range is an error. *)
Definition ParseInt (s : string) : option Z :=
  match s with
  | EmptyString => None
  | String c s' =>
      let neg := Ascii.eqb c "-" in
      let body := if neg || Ascii.eqb c "+" then s' else s in
      match ParseUint body with
      | Some n =>
          if neg then (if n <=? 2 ^ 63 then Some (- n) else None)
          else (if n <? 2 ^ 63 then Some n else None)
      | None => None
      end
  end.

(** [strconv.Atoi]: [ParseInt(s, 10, 0)] on a 64-bit platform. *)
Definition Atoi (s : string) : option Z := ParseInt s.

Definition Itoa (n : Z) : string := pretty n.

Definition ParseBool (s : string) : option bool :=
  if bool_decide (s ∈ ["1"; "t"; "T"; "TRUE"; "true"; "True"]) then Some true
  else if bool_decide (s ∈ ["0"; "f"; "F"; "FALSE"; "false"; "False"]) then Some false
  else None.

Definition FormatBool (b : bool) : string := if b then "true" else "false".

End strconv.

Module strings.

Definition HasPrefix (s p : string) : bool := String.prefix p s.

Definition HasSuffix (s p : string) : bool :=
  String.prefix (String.rev p) (String.rev s).

(** [strings.Split(s, ",")]: the pieces of [s] between commas; never
    empty, a string without a comma is its own single piece. *)
Fixpoint SplitComma (cur : string) (s : string) : list string :=
  match s with
  | EmptyString => [String.rev cur]
  | String c s' =>
      if Ascii.eqb c "," then String.rev cur :: SplitComma "" s'
      else SplitComma (String c cur) s'
  end.

Definition Split (s : string) : list string := SplitComma "" s.

End strings.

(** ** JSON values and raw messages *)

(** Numbers are integers: every number the services inspect (ids, ports,
    keep-alive intervals, timestamps) is one. *)
Inductive json : Type :=
| JNull
| JBool (b : bool)
| JNum (n : Z)
| JStr (s : string)
| JArr (l : list json)
| JObj (m : gmap string json).

(** [json.RawMessage]: a byte slice. *)
Inductive RawMessage : Type :=
| RawNil                 (* the nil slice *)
| RawInvalid             (* bytes that are not a JSON text *)
| Raw (j : json).        (* the bytes of the JSON value [j] *)

(** ** Errors and outcomes *)

Inductive error : Type :=
| ErrInvalid                 (* os.ErrInvalid *)
| ErrRecordNotFound          (* gorm.ErrRecordNotFound *)
| Error (msg : string).      (* errors.New, fmt.Errorf, common.NewError(f) *)

(** [err.Error()]. *)
Definition error_string (e : error) : string :=
  match e with
  | ErrInvalid => "invalid argument"
  | ErrRecordNotFound => "record not found"
  | Error msg => msg
  end.

Definition is_ErrInvalid (e : error) : bool :=
  match e with ErrInvalid => true | _ => false end.

Inductive outcome (A : Type) : Type :=
| Ok (a : A)
| Fail (e : error)
| Panic (msg : string).
Arguments Ok {A} a.
Arguments Fail {A} e.
Arguments Panic {A} msg.

Definition obind {A B} (o : outcome A) (f : A → outcome B) : outcome B :=
  match o with
  | Ok a => f a
  | Fail e => Fail e
  | Panic p => Panic p
  end.

Definition is_Ok {A} (o : outcome A) : bool :=
  match o with Ok _ => true | _ => false end.

(** An error re-wrapped with a message prefix ([%w] and [%v] print the
    wrapped error's text). *)
Definition wrap {A} (prefix : string) (o : outcome A) : outcome A :=
  match o with
  | Fail e => Fail (Error (prefix +:+ error_string e))
  | _ => o
  end.

Module Json.

(** [json.Unmarshal(raw, &v)] with [v] a [map[string]interface{}] or a
    [map[string]json.RawMessage]: an object decodes to its members and
    [null] leaves the map nil; anything else is an error. *)
Definition Unmarshal_map (raw : RawMessage) : outcome (gmap string json) :=
  match raw with
  | Raw (JObj m) => Ok m
  | Raw JNull => Ok ∅
  | Raw _ => Fail (Error "json: cannot unmarshal into Go value of type map")
  | RawNil => Fail (Error "unexpected end of JSON input")
  | RawInvalid => Fail (Error "invalid character looking for beginning of value")
  end.

(** Decoding into a [string]: [null] leaves the zero value. *)
Definition Unmarshal_string (raw : RawMessage) : outcome string :=
  match raw with
  | Raw (JStr s) => Ok s
  | Raw JNull => Ok ""
  | Raw _ => Fail (Error "json: cannot unmarshal into Go value of type string")
  | RawNil => Fail (Error "unexpected end of JSON input")
  | RawInvalid => Fail (Error "invalid character looking for beginning of value")
  end.

Definition uint_ok (n : Z) : bool := (0 <=? n) && (n <? 2 ^ 64).

(** Decoding into a [uint]. *)
Definition Unmarshal_uint (raw : RawMessage) : outcome N :=
  match raw with
  | Raw (JNum n) =>
      if uint_ok n then Ok (Z.to_N n)
      else Fail (Error "json: cannot unmarshal number into Go value of type uint")
  | Raw JNull => Ok 0%N
  | Raw _ => Fail (Error "json: cannot unmarshal into Go value of type uint")
  | RawNil => Fail (Error "unexpected end of JSON input")
  | RawInvalid => Fail (Error "invalid character looking for beginning of value")
  end.

Definition elem_uint (j : json) : option N :=
  match j with
  | JNum n => if uint_ok n then Some (Z.to_N n) else None
  | JNull => Some 0%N
  | _ => None
  end.

(** Decoding into a [[]uint]. *)
Definition Unmarshal_uints (raw : RawMessage) : outcome (list N) :=
  match raw with
  | Raw (JArr l) =>
      match mapM elem_uint l with
      | Some ns => Ok ns
      | None => Fail (Error "json: cannot unmarshal into Go value of type uint")
      end
  | Raw JNull => Ok []
  | Raw _ => Fail (Error "json: cannot unmarshal into Go value of type []uint")
  | RawNil => Fail (Error "unexpected end of JSON input")
  | RawInvalid => Fail (Error "invalid character looking for beginning of value")
  end.

Definition elem_string (j : json) : option string :=
  match j with
  | JStr s => Some s
  | JNull => Some ""
  | _ => None
  end.

(** The members of an object decoded as strings, [None] when one of them
    is neither a string nor [null]. *)
Definition strings_of (m : gmap string json) : option (gmap string string) :=
  if bool_decide (map_Forall (λ _ v, is_Some (elem_string v)) m)
  then Some (omap elem_string m) else None.

Definition elem_string_map (j : json) : option (gmap string string) :=
  match j with
  | JObj m => strings_of m
  | JNull => Some ∅
  | _ => None
  end.

(** Decoding into a [map[string]string]. *)
Definition Unmarshal_string_map (raw : RawMessage) : outcome (gmap string string) :=
  match raw with
  | Raw j =>
      match elem_string_map j with
      | Some m => Ok m
      | None => Fail (Error "json: cannot unmarshal into Go value of type map[string]string")
      end
  | RawNil => Fail (Error "unexpected end of JSON input")
  | RawInvalid => Fail (Error "invalid character looking for beginning of value")
  end.

(** Decoding into a [[]map[string]string]. *)
Definition Unmarshal_string_maps (raw : RawMessage) : outcome (list (gmap string string)) :=
  match raw with
  | Raw (JArr l) =>
      match mapM elem_string_map l with
      | Some ms => Ok ms
      | None => Fail (Error "json: cannot unmarshal into Go value of type map[string]string")
      end
  | Raw JNull => Ok []
  | Raw _ => Fail (Error "json: cannot unmarshal into Go value of type []map[string]string")
  | RawNil => Fail (Error "unexpected end of JSON input")
  | RawInvalid => Fail (Error "invalid character looking for beginning of value")
  end.

(** [json.Marshal] of a [[]map[string]string] that was made with a slice
    literal (never nil). *)
Definition Marshal_string_maps (ms : list (gmap string string)) : RawMessage :=
  Raw (JArr ((λ m : gmap string string, JObj (JStr <$> m)) <$> ms)).

(** [json.Marshal] of a slice declared with [var] and grown by [append]:
    it is still nil, and marshals to [null], when nothing was appended. *)
Definition Marshal_var_string_maps (ms : list (gmap string string)) : RawMessage :=
  match ms with
  | [] => Raw JNull
  | _ => Marshal_string_maps ms
  end.

Definition Marshal_var_uints (ns : list N) : RawMessage :=
  match ns with
  | [] => Raw JNull
  | _ => Raw (JArr ((λ n, JNum (Z.of_N n)) <$> ns))
  end.

(** [json.Marshal] of a [map[string]interface{}] whose values are
    strings and raw messages: a nil raw message prints as [null] and an
    invalid one makes the call fail. *)
Definition valid (r : RawMessage) : bool :=
  match r with RawInvalid => false | _ => true end.

Definition Marshal_raw_map (m : gmap string RawMessage) : outcome json :=
  if bool_decide (map_Forall (λ _ r, valid r = true) m)
  then Ok (JObj ((λ r, match r with Raw j => j | _ => JNull end) <$> m))
  else Fail (Error "json: error calling MarshalJSON for type json.RawMessage").

End Json.

(** ** The model package *)

(** model.Outbound. *)
Module Outbound.
Record t : Type := mk {
  Id : N;
  Typ : string;              (* the Go field [Type] *)
  Tag : string;              (* gorm:"unique" *)
  Options : RawMessage;
}.
Definition zero : t := mk 0 "" "" RawNil.
End Outbound.

(** model.Endpoint. *)
Module Endpoint.
Record t : Type := mk {
  Id : N;
  Typ : string;
  Tag : string;              (* gorm:"unique" *)
  Options : RawMessage;
  Ext : RawMessage;
}.
Definition zero : t := mk 0 "" "" RawNil RawNil.
End Endpoint.

(** Modelled from the spec: model.Tls is not part of the sources; the
    services only select it by id and hand it to the link generator. *)
Module Tls.
Record t : Type := mk {
  Id : N;
  Server : RawMessage;
  Client : RawMessage;
}.
End Tls.

(** Modelled from the spec: model.Inbound is not part of the sources. The
    record has the fields the services read and the spec lists: id, type,
    unique tag, optional TLS association, extension bag, cached out-json. *)
Module Inbound.
Record t : Type := mk {
  Id : N;
  Typ : string;
  Tag : string;              (* unique *)
  TlsId : N;
  Tls : option Tls.t;        (* the association, filled by Preload/Find *)
  OutJson : RawMessage;
  Options : RawMessage;
}.
Definition set_Id (i : N) (x : t) : t :=
  mk i (Typ x) (Tag x) (TlsId x) (Tls x) (OutJson x) (Options x).
Definition set_Tls (v : option Tls.t) (x : t) : t :=
  mk (Id x) (Typ x) (Tag x) (TlsId x) v (OutJson x) (Options x).
Definition set_OutJson (v : RawMessage) (x : t) : t :=
  mk (Id x) (Typ x) (Tag x) (TlsId x) (Tls x) v (Options x).
End Inbound.

(** Modelled from the spec: model.Client is not part of the sources. The
    record has the fields the services and their queries read. *)
Module Client.
Record t : Type := mk {
  Id : N;
  Enable : bool;
  Name : string;
  Config : RawMessage;       (* protocol credential bag *)
  Inbounds : RawMessage;     (* JSON array of inbound ids *)
  Links : RawMessage;        (* JSON array of descriptors *)
  Volume : Z;
  Expiry : Z;
  Up : Z;
  Down : Z;
}.
Definition set_Id (i : N) (x : t) : t :=
  mk i (Enable x) (Name x) (Config x) (Inbounds x) (Links x)
     (Volume x) (Expiry x) (Up x) (Down x).
Definition set_Inbounds (v : RawMessage) (x : t) : t :=
  mk (Id x) (Enable x) (Name x) (Config x) v (Links x)
     (Volume x) (Expiry x) (Up x) (Down x).
Definition set_Links (v : RawMessage) (x : t) : t :=
  mk (Id x) (Enable x) (Name x) (Config x) (Inbounds x) v
     (Volume x) (Expiry x) (Up x) (Down x).
End Client.

(** Modelled from the spec: model.Setting, a key and its string value. *)
Module Setting.
Record t : Type := mk {
  Id : N;
  Key : string;
  Value : string;
}.
Definition set_Value (v : string) (x : t) : t := mk (Id x) (Key x) v.
End Setting.

(** Modelled from the spec: model.Changes, one change-log record. *)
Module Changes.
Record t : Type := mk {
  Id : N;
  DateTime : Z;
  Actor : string;
  Key : string;
  Action : string;
  Obj : RawMessage;
}.
End Changes.

(** A connection descriptor of a client: a [map[string]string] with the
    keys "remark", "type" and "uri". Indexing a Go map at a missing key
    gives the empty string. *)
Abbreviation descriptor := (gmap string string).

Definition index (m : descriptor) (k : string) : string := default "" (m !! k).

(** The descriptor the services build for a generated link. *)
Definition local_link (tag uri : string) : descriptor :=
  {[ "remark" := tag; "type" := "local"; "uri" := uri ]}.

(** ** The entity store *)

(** Modelled from the spec: the database package and gorm are not part of
    the sources. A store is its tables, each a list of rows in storage
    order; the operations below follow gorm's documented behaviour on
    SQLite for the calls the services make. *)
Record DB : Type := mkDB {
  tbl_inbounds : list Inbound.t;
  tbl_outbounds : list Outbound.t;
  tbl_endpoints : list Endpoint.t;
  tbl_clients : list Client.t;
  tbl_settings : list Setting.t;
  tbl_changes : list Changes.t;
  tbl_tls : list Tls.t;
}.

Definition set_inbounds (v : list Inbound.t) (d : DB) : DB :=
  mkDB v (tbl_outbounds d) (tbl_endpoints d) (tbl_clients d) (tbl_settings d)
       (tbl_changes d) (tbl_tls d).
Definition set_outbounds (v : list Outbound.t) (d : DB) : DB :=
  mkDB (tbl_inbounds d) v (tbl_endpoints d) (tbl_clients d) (tbl_settings d)
       (tbl_changes d) (tbl_tls d).
Definition set_endpoints (v : list Endpoint.t) (d : DB) : DB :=
  mkDB (tbl_inbounds d) (tbl_outbounds d) v (tbl_clients d) (tbl_settings d)
       (tbl_changes d) (tbl_tls d).
Definition set_clients (v : list Client.t) (d : DB) : DB :=
  mkDB (tbl_inbounds d) (tbl_outbounds d) (tbl_endpoints d) v (tbl_settings d)
       (tbl_changes d) (tbl_tls d).
Definition set_settings (v : list Setting.t) (d : DB) : DB :=
  mkDB (tbl_inbounds d) (tbl_outbounds d) (tbl_endpoints d) (tbl_clients d) v
       (tbl_changes d) (tbl_tls d).
Definition set_changes (v : list Changes.t) (d : DB) : DB :=
  mkDB (tbl_inbounds d) (tbl_outbounds d) (tbl_endpoints d) (tbl_clients d)
       (tbl_settings d) v (tbl_tls d).

Module gorm.

(** What [Save] needs to know of a row type: its primary key and the
    column, if any, that carries a unique index. *)
Class Row (A : Type) : Type := {
  pk : A → N;
  set_pk : N → A → A;
  unique_col : A → option string;
  table : string;
}.

#[global] Instance Row_Outbound : Row Outbound.t := {|
  pk := Outbound.Id;
  set_pk i x := Outbound.mk i (Outbound.Typ x) (Outbound.Tag x) (Outbound.Options x);
  unique_col x := Some (Outbound.Tag x);
  table := "outbounds" |}.
#[global] Instance Row_Endpoint : Row Endpoint.t := {|
  pk := Endpoint.Id;
  set_pk i x := Endpoint.mk i (Endpoint.Typ x) (Endpoint.Tag x)
                  (Endpoint.Options x) (Endpoint.Ext x);
  unique_col x := Some (Endpoint.Tag x);
  table := "endpoints" |}.
#[global] Instance Row_Inbound : Row Inbound.t := {|
  pk := Inbound.Id;
  set_pk := Inbound.set_Id;
  unique_col x := Some (Inbound.Tag x);
  table := "inbounds" |}.
#[global] Instance Row_Setting : Row Setting.t := {|
  pk := Setting.Id;
  set_pk i x := Setting.mk i (Setting.Key x) (Setting.Value x);
  unique_col _ := None;
  table := "settings" |}.
#[global] Instance Row_Changes : Row Changes.t := {|
  pk := Changes.Id;
  set_pk i x := Changes.mk i (Changes.DateTime x) (Changes.Actor x) (Changes.Key x)
                  (Changes.Action x) (Changes.Obj x);
  unique_col _ := None;
  table := "changes" |}.
#[global] Instance Row_Client : Row Client.t := {|
  pk := Client.Id;
  set_pk := Client.set_Id;
  unique_col _ := None;
  table := "clients" |}.

Section Rows.
Context {A : Type} `{Row A}.

(** [Where(...).Find(&rows)]. *)
Definition Find (p : A → bool) (rows : list A) : list A := filter (λ r, p r = true) rows.

(** [Where(...).Count(&n)]. *)
Definition Count (p : A → bool) (rows : list A) : Z := Z.of_nat (length (Find p rows)).

(** [Where(...).First(&row)]: the first match or ErrRecordNotFound. *)
Definition First (p : A → bool) (rows : list A) : outcome A :=
  match Find p rows with
  | r :: _ => Ok r
  | [] => Fail ErrRecordNotFound
  end.

(** [Where(...).Delete(&T{})]. *)
Definition Delete (p : A → bool) (rows : list A) : list A :=
  filter (λ r, p r = false) rows.

(** The next AUTOINCREMENT key. *)
Definition next_pk (rows : list A) : N := 1 + foldr N.max 0%N (pk <$> rows).

(** Another row already holds the unique column's value of [x]. *)
Definition violates_unique (x : A) (rows : list A) : bool :=
  match unique_col x with
  | Some v =>
      bool_decide (Exists (λ r, pk r ≠ pk x ∧ unique_col r = Some v) rows)
  | None => false
  end.

Definition constraint_error : error :=
  Error ("UNIQUE constraint failed: " +:+ table +:+ ".tag").

(** [Save(&x)]: a row with a zero primary key is inserted under the
    next key; one with a key is updated in place, and inserted when
    no row has that key. A unique-index violation fails the
    statement and changes nothing. The saved row (with its key) is
    returned, as gorm writes it back through the pointer. *)
Definition Save (x : A) (rows : list A) : outcome (A * list A) :=
  let x' := if N.eqb (pk x) 0 then set_pk (next_pk rows) x else x in
  if violates_unique x' rows then Fail constraint_error
  else if bool_decide (Exists (λ r, pk r = pk x') rows)
  then Ok (x', (λ r, if N.eqb (pk r) (pk x') then x' else r) <$> rows)
  else Ok (x', rows ++ [x']).

End Rows.

End gorm.

(** The configuration document of the core (service.SingBoxConfig). *)
Record SingBoxConfig : Type := mkConfig {
  cfg_Log : RawMessage;
  cfg_Dns : RawMessage;
  cfg_Ntp : RawMessage;
  cfg_Inbounds : list json;
  cfg_Outbounds : list json;
  cfg_Endpoints : list json;
  cfg_Route : RawMessage;
  cfg_Experimental : RawMessage;
}.

(** ** Collaborators outside the service layer *)

(** What the services call and the sources do not contain: library
    functions whose result depends on the platform, the util and model
    code that is absent, the live core, the network, and raw SQL. *)
Class Collaborators : Type := {
  (** fmt's [%v] of a decoded JSON value. *)
  Sprint : json → string;
  (** time.LoadLocation: the error, if the name is not a known zone. *)
  LoadLocation : string → option error;
  (** util.InboundTypeWithLink, util.LinkGenerator, util.FillOutJson. *)
  InboundTypeWithLink : list string;
  LinkGenerator : RawMessage → Inbound.t → string → list string;
  FillOutJson : Inbound.t → string → outcome Inbound.t;
  (** The JSON methods of model.Inbound and the decoding of model.Client. *)
  Inbound_UnmarshalJSON : RawMessage → outcome Inbound.t;
  Inbound_MarshalJSON : Inbound.t → outcome json;
  Client_Unmarshal : RawMessage → outcome Client.t;
  Clients_Unmarshal : RawMessage → outcome (list Client.t);
  (** The live core behind [corePtr]: its state and its operations, each
      giving the next state and the error it returned, if any. *)
  Core : Type;
  IsRunning : Core → bool;
  Start : json → Core → Core * option error;
  Stop : Core → Core * option error;
  AddInbound : json → Core → Core * option error;
  RemoveInbound : string → Core → Core * option error;
  AddOutbound : json → Core → Core * option error;
  RemoveOutbound : string → Core → Core * option error;
  AddEndpoint : json → Core → Core * option error;
  RemoveEndpoint : string → Core → Core * option error;
  (** The exchanges with the registration service in warp.go. *)
  RegisterWarp : Endpoint.t → outcome Endpoint.t;
  updateWarpLicense : gmap string string → option error;
  (** TlsService.Save, on the store handle it is given. *)
  TlsService_Save : string → RawMessage → DB → DB * outcome (list N);
  (** The SQL the services pass to the store as text: the user list of
      fetchUsers (JSON path and condition) and the license key that
      json_extract reads from an endpoint's ext column. *)
  selectUsers : DB → string → string → outcome (list RawMessage);
  stripVision : RawMessage → RawMessage;
  extractLicense : RawMessage → outcome string;
  (** The conversions between a string and the bytes of a raw message
      ([string(data)] and [[]byte(s)]); the empty string is the nil slice. *)
  string_of_raw : RawMessage → string;
  raw_of_string : string → RawMessage;
  (** The two defaults of the setting registry that are computed when
      the process starts: common.Random(32) and config.GetVersion(). *)
  randomSecret : string;
  appVersion : string;
  (** The order in which a [range] statement visits a map. *)
  mapRange : gmap string string → list (string * string);
}.

(** ** The world and the service monad *)

Section World.
Context `{Collaborators}.

Record World : Type := mkWorld {
  durable : DB;          (* database.GetDB(): the committed store *)
  txn : DB;              (* the store as the open transaction sees it *)
  core : Core;           (* the live core behind corePtr *)
  LastUpdate : Z;        (* the in-memory watermark *)
  now : Z;               (* time.Now().Unix() *)
  writes : nat;          (* write statements issued so far (ghost) *)
}.

Definition M (A : Type) : Type := World → World * outcome A.

Definition ret {A} (a : A) : M A := λ w, (w, Ok a).

Definition bind {A B} (m : M A) (k : A → M B) : M B :=
  λ w, match m w with
       | (w', Ok a) => k a w'
       | (w', Fail e) => (w', Fail e)
       | (w', Panic p) => (w', Panic p)
       end.

Definition fail {A} (e : error) : M A := λ w, (w, Fail e).
Definition panic {A} (p : string) : M A := λ w, (w, Panic p).
Definition lift {A} (o : outcome A) : M A := λ w, (w, o).
Definition gets {A} (f : World → A) : M A := λ w, (w, Ok (f w)).
Definition modify (f : World → World) : M unit := λ w, (f w, Ok tt).

(** A call whose error the caller inspects instead of returning it. *)
Definition try {A} (m : M A) : M (option error) :=
  λ w, match m w with
       | (w', Ok _) => (w', Ok None)
       | (w', Fail e) => (w', Ok (Some e))
       | (w', Panic p) => (w', Panic p)
       end.

(** An error returned under a message prefix. *)
Definition wrapM {A} (prefix : string) (m : M A) : M A :=
  λ w, let '(w', o) := m w in (w', wrap prefix o).

(** The [*gorm.DB] a service function is handed: the store itself or
    the open transaction. *)
Inductive handle : Type := TheDB | TheTx.

Definition view (h : handle) (w : World) : DB :=
  match h with TheDB => durable w | TheTx => txn w end.

Definition with_view (h : handle) (d : DB) (w : World) : World :=
  match h with
  | TheDB => mkWorld d (txn w) (core w) (LastUpdate w) (now w) (writes w)
  | TheTx => mkWorld (durable w) d (core w) (LastUpdate w) (now w) (writes w)
  end.

(** A read through a handle. *)
Definition query {A} (h : handle) (f : DB → A) : M A := gets (λ w, f (view h w)).

Definition counted (w : World) : World :=
  mkWorld (durable w) (txn w) (core w) (LastUpdate w) (now w) (S (writes w)).

(** A write statement through a handle: it is counted, and it changes
    the store only when it succeeds. *)
Definition exec {A} (h : handle) (f : DB → outcome (A * DB)) : M A :=
  λ w,
    match f (view h w) with
    | Ok (a, d) => (with_view h d (counted w), Ok a)
    | Fail e => (counted w, Fail e)
    | Panic p => (counted w, Panic p)
    end.

Definition with_core (c : Core) (w : World) : World :=
  mkWorld (durable w) (txn w) c (LastUpdate w) (now w) (writes w).

(** A call into the live core. *)
Definition core_call (f : Core → Core * option error) : M (option error) :=
  λ w, let '(c, e) := f (core w) in (with_core c w, Ok e).

Definition set_LastUpdate (t : Z) : M unit :=
  modify (λ w, mkWorld (durable w) (txn w) (core w) t (now w) (writes w)).

(** [db.Begin()], [tx.Commit()], [tx.Rollback()]. *)
Definition Begin : M unit :=
  modify (λ w, mkWorld (durable w) (durable w) (core w) (LastUpdate w) (now w) (writes w)).
Definition Commit : M unit :=
  modify (λ w, mkWorld (txn w) (txn w) (core w) (LastUpdate w) (now w) (writes w)).
Definition Rollback : M unit :=
  modify (λ w, mkWorld (durable w) (durable w) (core w) (LastUpdate w) (now w) (writes w)).

End World.

(** Sequencing: [x <- m ;; k] in [M] and [x <~ o ;; k] in [outcome]. *)
Notation "x <- m ;; k" := (bind m (λ x, k))
  (at level 100, m at next level, right associativity, only parsing).
Notation "x <~ o ;; k" := (obind o (λ x, k))
  (at level 100, o at next level, right associativity, only parsing).

(** A loop over a slice that stops at the first error. *)
Fixpoint forM_ `{Collaborators} {A} (f : A → M unit) (l : list A) : M unit :=
  match l with
  | [] => ret tt
  | x :: l' => _ <- f x ;; forM_ f l'
  end.

Fixpoint forO_ {A} (f : A → outcome unit) (l : list A) : outcome unit :=
  match l with
  | [] => Ok tt
  | x :: l' => _ <~ f x ;; forO_ f l'
  end.

(** ** Services *)

Section Services.
Context `{Collaborators}.

(** Modelled from the spec: common.NewError and common.NewErrorf (the
    util/common package is not part of the sources) build an error whose
    text is the formatted message. *)
Definition NewError (msg : string) : error := Error msg.

Definition fmt_d (n : N) : string := pretty n.
Definition fmt_i (i : nat) : string := pretty i.

(** *** Type assertions on decoded JSON ([v.(T)] with the comma-ok form) *)

Definition as_float64 (v : option json) : option Z :=
  match v with Some (JNum n) => Some n | _ => None end.
Definition as_string (v : option json) : option string :=
  match v with Some (JStr s) => Some s | _ => None end.
Definition as_array (v : option json) : option (list json) :=
  match v with Some (JArr l) => Some l | _ => None end.
Definition as_object (v : option json) : option (gmap string json) :=
  match v with Some (JObj m) => Some m | _ => None end.

(** [uint(f)] for a float64 holding an integer: the low 64 bits. *)
Definition uint_of_float64 (n : Z) : N := Z.to_N (n mod 2 ^ 64).

Definition is_null (raw : RawMessage) : bool :=
  match raw with Raw JNull => true | _ => false end.

(** [json.MarshalIndent(raw, ...)] of the map that [data] was decoded
    into: a nil map (from [null]) prints as [null]. *)
Definition MarshalIndent_map (data : RawMessage) (raw : gmap string json) : RawMessage :=
  if is_null data then Raw JNull else Raw (JObj raw).

(** *** model.Outbound *)

Definition Outbound_UnmarshalJSON (o : Outbound.t) (data : RawMessage) : outcome Outbound.t :=
  raw <~ wrap "failed to unmarshal outbound data: " (Json.Unmarshal_map data) ;;
  id <~ match raw !! "id" with
       | Some (JNum idFloat) => Ok (uint_of_float64 idFloat)
       | Some JNull | None => Ok (Outbound.Id o)
       | Some v => Fail (Error ("id field is not a valid number: " +:+ Sprint v))
       end ;;
  let raw1 := delete "id" raw in
  let typ := match raw1 !! "type" with
             | Some (JStr typeStr) => typeStr
             | Some JNull => Outbound.Typ o
             | _ => ""
             end in
  let raw2 := delete "type" raw1 in
  match raw2 !! "tag" with
  | None => Fail (Error "tag field is missing")
  | Some (JStr tagStr) =>
      if decide (tagStr = "") then Fail (Error "tag field cannot be empty")
      else
        let raw3 := delete "tag" raw2 in
        let options := if decide (size raw3 = 0%nat) then RawNil
                       else Raw (JObj raw3) in
        Ok (Outbound.mk id typ tagStr options)
  | Some tagVal => Fail (Error ("tag field is not a string: " +:+ Sprint tagVal))
  end.

Definition Outbound_MarshalJSON (o : Outbound.t) : outcome json :=
  let combined : gmap string RawMessage :=
    <["tag" := Raw (JStr (Outbound.Tag o))]>
      (<["type" := Raw (JStr (Outbound.Typ o))]> ∅) in
  combined <~ match Outbound.Options o with
             | RawNil => Ok combined
             | options =>
                 restFields <~ Json.Unmarshal_map options ;;
                 Ok ((Raw <$> restFields) ∪ combined)
             end ;;
  Json.Marshal_raw_map combined.

(** *** model.Endpoint *)

Definition Endpoint_UnmarshalJSON (o : Endpoint.t) (data : RawMessage) : outcome Endpoint.t :=
  raw <~ Json.Unmarshal_map data ;;
  let id := match as_float64 (raw !! "id") with
            | Some val => uint_of_float64 val
            | None => Endpoint.Id o
            end in
  let raw1 := delete "id" raw in
  let typ := default "" (as_string (raw1 !! "type")) in
  let raw2 := delete "type" raw1 in
  let tag := default "" (as_string (raw2 !! "tag")) in
  let raw3 := delete "tag" raw2 in
  let ext := Raw (default JNull (raw3 !! "ext")) in
  let raw4 := delete "ext" raw3 in
  Ok (Endpoint.mk id typ tag (MarshalIndent_map data raw4) ext).

Definition Endpoint_MarshalJSON (o : Endpoint.t) : outcome json :=
  let combined : gmap string RawMessage :=
    <["type" := Raw (JStr (if decide (Endpoint.Typ o = "warp") then "wireguard"
                           else Endpoint.Typ o))]> ∅ in
  let combined := <["tag" := Raw (JStr (Endpoint.Tag o))]> combined in
  let combined := match Endpoint.Ext o with
                  | RawNil => combined
                  | ext => <["ext" := ext]> combined
                  end in
  combined <~ match Endpoint.Options o with
             | RawNil => Ok combined
             | options =>
                 restFields <~ Json.Unmarshal_map options ;;
                 Ok ((Raw <$> restFields) ∪ combined)
             end ;;
  Json.Marshal_raw_map combined.

(** *** service/endpoints.go *)

(** A value of the list view's [map[string]interface{}]. *)
Inductive any : Type :=
| AUint (n : N)
| AString (s : string)
| ARaw (r : RawMessage).

Definition endpointData (endpoint : Endpoint.t) : gmap string any :=
  let epData : gmap string any := ∅ in
  let epData :=
    match Endpoint.Options endpoint with
    | RawNil => epData
    | options =>
        match Json.Unmarshal_map options with
        | Ok restFields => ((λ v, ARaw (Raw v)) <$> restFields) ∪ epData
        | _ => epData          (* logged; the options are skipped *)
        end
    end in
  let epData := <["id" := AUint (Endpoint.Id endpoint)]> epData in
  let epData := <["type" := AString (Endpoint.Typ endpoint)]> epData in
  let epData := <["tag" := AString (Endpoint.Tag endpoint)]> epData in
  <["ext" := ARaw (Endpoint.Ext endpoint)]> epData.

Definition EndpointService_GetAll : M (list (gmap string any)) :=
  endpoints <- query TheDB tbl_endpoints ;;
  ret (endpointData <$> endpoints).

Fixpoint mapO {A B} (f : A → outcome B) (l : list A) : outcome (list B) :=
  match l with
  | [] => Ok []
  | x :: l' => y <~ f x ;; ys <~ mapO f l' ;; Ok (y :: ys)
  end.

Definition EndpointService_GetAllConfig (db : handle) : M (list json) :=
  endpoints <- query db tbl_endpoints ;;
  lift (mapO Endpoint_MarshalJSON endpoints).

(** The inner loop of extractAllowedIPsFromOptions, over the entries of
    peer [i] from entry [j] on. *)
Fixpoint allowedIPsOfPeer (i j : nat) (entries : list json) : outcome (list string) :=
  match entries with
  | [] => Ok []
  | JStr ipStr :: rest => ips <~ allowedIPsOfPeer i (S j) rest ;; Ok (ipStr :: ips)
  | _ :: _ =>
      Fail (NewError ("peer " +:+ fmt_i i +:+ " 'allowed_ips' entry " +:+ fmt_i j
                      +:+ " is not a string"))
  end.

(** Its outer loop, over the peers from peer [i] on. *)
Fixpoint allowedIPsOfPeers (i : nat) (peers : list json) : outcome (list string) :=
  match peers with
  | [] => Ok []
  | JObj peer :: rest =>
      mine <~ match peer !! "allowed_ips" with
             | None => Ok []
             | Some (JArr allowedIPsSlice) => allowedIPsOfPeer i 0 allowedIPsSlice
             | Some _ =>
                 Fail (NewError ("peer " +:+ fmt_i i +:+ " 'allowed_ips' field is not an array"))
             end ;;
      others <~ allowedIPsOfPeers (S i) rest ;;
      Ok (mine ++ others)
  | _ :: _ =>
      Fail (NewError ("peer " +:+ fmt_i i +:+ " in endpoint options is not a valid object"))
  end.

Definition extractAllowedIPsFromOptions (options : RawMessage) : outcome (list string) :=
  match options with
  | RawNil => Ok []
  | _ =>
      optsData <~ wrap "invalid endpoint options JSON for IP extraction: "
                   (Json.Unmarshal_map options) ;;
      match optsData !! "peers" with
      | None => Ok []
      | Some (JArr peers) => allowedIPsOfPeers 0 peers
      | Some _ => Fail (NewError "endpoint options 'peers' field is not an array")
      end
  end.

Definition check (b : bool) (e : error) : outcome unit :=
  if b then Ok tt else Fail e.

(** [Where(...).Pluck(col, &v)] into a single variable: the column of the
    matching row, and the variable untouched (no error) when none matches. *)
Definition Pluck {A B} (col : A → B) (p : A → bool) (zero : B) (rows : list A) : B :=
  default zero (last (col <$> gorm.Find p rows)).

Definition isWireguard (typ : string) : bool :=
  bool_decide (typ = "wireguard") || bool_decide (typ = "warp").

(** The options of a wireguard/warp candidate, decoded. *)
Definition endpointOptions (endpoint : Endpoint.t) : outcome (gmap string json) :=
  if isWireguard (Endpoint.Typ endpoint) then
    match Endpoint.Options endpoint with
    | RawNil => Fail (NewError "Endpoint options are required for wireguard/warp types.")
    | options =>
        match Json.Unmarshal_map options with
        | Ok endpointOpts => Ok endpointOpts
        | _ => Fail (NewError "Invalid endpoint options JSON.")
        end
    end
  else Ok ∅.

(** The loop of the WireGuard-specific validation, from peer [i] on. *)
Fixpoint validatePeers (i : nat) (peers : list json) : outcome unit :=
  match peers with
  | [] => Ok tt
  | JObj peer :: rest =>
      _ <~ check (match as_string (peer !! "public_key") with
                 | Some pk => negb (bool_decide (pk = ""))
                 | None => false
                 end)
            (NewError ("Peer " +:+ fmt_i i +:+ " missing public_key.")) ;;
      _ <~ check (match as_string (peer !! "address") with
                 | Some addr => negb (bool_decide (addr = ""))
                 | None => false
                 end)
            (NewError ("Peer " +:+ fmt_i i +:+ " missing address.")) ;;
      _ <~ check (match as_float64 (peer !! "port") with
                 | Some port => negb (port <=? 0)
                 | None => false
                 end)
            (NewError ("Peer " +:+ fmt_i i +:+ " missing or invalid port.")) ;;
      _ <~ check (match as_array (peer !! "allowed_ips") with
                 | Some allowed => negb (Nat.eqb (length allowed) 0)
                 | None => false
                 end)
            (NewError ("Peer " +:+ fmt_i i +:+ " missing allowed_ips.")) ;;
      _ <~ check (bool_decide (is_Some (as_float64 (peer !! "persistent_keepalive"))))
            (NewError ("Peer " +:+ fmt_i i +:+
                       " does not have persistent_keepalive set. This may cause NAT issues.")) ;;
      validatePeers (S i) rest
  | _ :: _ => Fail (NewError ("Peer " +:+ fmt_i i +:+ " is not a valid object."))
  end.

Definition wireguardValidation (endpoint : Endpoint.t) (endpointOpts : gmap string json)
  : outcome unit :=
  if isWireguard (Endpoint.Typ endpoint) then
    match as_array (endpointOpts !! "peers") with
    | Some (peer :: rest) => validatePeers 0 (peer :: rest)
    | _ => Fail (NewError "WireGuard endpoint must have at least one peer.")
    end
  else Ok tt.

Definition tagExists (tag : string) : error :=
  NewError ("Endpoint tag '" +:+ tag +:+ "' already exists.").

(** "Check for duplicate tag on new or if tag changed on edit". *)
Definition checkDuplicateTag (tx : handle) (act : string) (endpoint : Endpoint.t) : M unit :=
  if decide (act = "new") then
    count <- query tx (λ d, gorm.Count
               (λ r, bool_decide (Endpoint.Tag r = Endpoint.Tag endpoint)) (tbl_endpoints d)) ;;
    if 0 <? count then fail (tagExists (Endpoint.Tag endpoint)) else ret tt
  else if decide (act = "edit") then
    found <- query tx (λ d, gorm.First
               (λ r, bool_decide (Endpoint.Id r = Endpoint.Id endpoint)) (tbl_endpoints d)) ;;
    match found with
    | Ok existingEndpoint =>
        if decide (Endpoint.Tag existingEndpoint ≠ Endpoint.Tag endpoint) then
          count <- query tx (λ d, gorm.Count
                     (λ r, bool_decide (Endpoint.Tag r = Endpoint.Tag endpoint)
                           && negb (bool_decide (Endpoint.Id r = Endpoint.Id endpoint)))
                     (tbl_endpoints d)) ;;
          if 0 <? count then fail (tagExists (Endpoint.Tag endpoint)) else ret tt
        else ret tt
    | Fail err =>
        fail (NewError ("Failed to find existing endpoint with id "
                        +:+ fmt_d (Endpoint.Id endpoint) +:+ ": " +:+ error_string err))
    | Panic p => panic p
    end
  else ret tt.

Definition ipInUse (newIP tag : string) : error :=
  NewError ("Allowed IP " +:+ newIP +:+ " is already used by endpoint tag '" +:+ tag +:+ "'.").

(** The loops that compare the candidate's ranges with one stored
    endpoint [ep]. *)
Definition conflictWith (newAllowedIPs : list string) (ep : Endpoint.t) : outcome unit :=
  if negb (isWireguard (Endpoint.Typ ep)) then Ok tt
  else
    match extractAllowedIPsFromOptions (Endpoint.Options ep) with
    | Ok existingAllowedIPs =>
        forO_ (λ existingIPStr,
                 forO_ (λ newIP,
                          if decide (newIP = existingIPStr)
                          then Fail (ipInUse newIP (Endpoint.Tag ep))
                          else Ok tt)
                       newAllowedIPs)
              existingAllowedIPs
    | _ => Ok tt               (* logged; the endpoint is skipped *)
    end.

(** "Check for duplicate/conflicting allowed_ips among all endpoints". *)
Definition checkAllowedIPs (tx : handle) (act : string) (endpoint : Endpoint.t) : M unit :=
  if isWireguard (Endpoint.Typ endpoint) then
    newAllowedIPs <- lift (wrap "Failed to extract allowed IPs from current endpoint's options: "
                            (extractAllowedIPsFromOptions (Endpoint.Options endpoint))) ;;
    if decide (length newAllowedIPs = 0%nat) then ret tt
    else
      allEndpoints <- query tx (λ d,
          if decide (act = "edit")
          then gorm.Find (λ r, negb (bool_decide (Endpoint.Id r = Endpoint.Id endpoint)))
                         (tbl_endpoints d)
          else tbl_endpoints d) ;;
      lift (forO_ (conflictWith newAllowedIPs) allEndpoints)
  else ret tt.

(** WarpService.SetWarpLicense, up to its exchange with the network. *)
Definition SetWarpLicense (old_license : string) (ep : Endpoint.t) : outcome unit :=
  warpData <~ Json.Unmarshal_string_map (Endpoint.Ext ep) ;;
  if decide (index warpData "license_key" = old_license) then Ok tt
  else match updateWarpLicense warpData with
       | Some err => Fail err
       | None => Ok tt
       end.

(** "Warp-specific handling". *)
Definition warpHandling (tx : handle) (act : string) (endpoint : Endpoint.t) : M Endpoint.t :=
  if decide (Endpoint.Typ endpoint = "warp") then
    if decide (act = "new") then lift (RegisterWarp endpoint)
    else
      rows <- query tx (λ d, gorm.Find
                (λ r, bool_decide (Endpoint.Id r = Endpoint.Id endpoint)) (tbl_endpoints d)) ;;
      oldLicense <- match last rows with
                   | Some row =>
                       lift (wrap ("Failed to retrieve old license key for endpoint ID "
                                   +:+ fmt_d (Endpoint.Id endpoint) +:+ ": ")
                               (extractLicense (Endpoint.Ext row)))
                   | None => ret ""
                   end ;;
      _ <- lift (wrap ("Failed to set Warp license for endpoint ID "
                      +:+ fmt_d (Endpoint.Id endpoint) +:+ ": ")
                  (SetWarpLicense oldLicense endpoint)) ;;
      ret endpoint
  else ret endpoint.

(** The block guarded by [corePtr.IsRunning()]. *)
Definition endpointCoreSync (tx : handle) (act : string) (endpoint : Endpoint.t) : M unit :=
  running <- gets (λ w, IsRunning (core w)) ;;
  if running then
    configData <- lift (Endpoint_MarshalJSON endpoint) ;;
    _ <- (if decide (act = "edit") then
           let mine r := bool_decide (Endpoint.Id r = Endpoint.Id endpoint) in
           oldTag <- query tx (λ d, Pluck Endpoint.Tag mine "" (tbl_endpoints d)) ;;
           oldType <- query tx (λ d, Pluck Endpoint.Typ mine "" (tbl_endpoints d)) ;;
           if negb (bool_decide (oldTag = ""))
              && (negb (bool_decide (oldTag = Endpoint.Tag endpoint))
                  || negb (bool_decide (oldType = Endpoint.Typ endpoint)))
           then
             err <- core_call (RemoveEndpoint oldTag) ;;
             match err with
             | Some e =>
                 if is_ErrInvalid e then ret tt
                 else fail (NewError ("Failed to remove old endpoint '" +:+ oldTag
                                      +:+ "' (type: '" +:+ oldType +:+ "') from core: "
                                      +:+ error_string e))
             | None => ret tt
             end
           else ret tt
         else ret tt) ;;
    err <- core_call (AddEndpoint configData) ;;
    match err with
    | Some e =>
        fail (NewError ("Failed to add/update endpoint '" +:+ Endpoint.Tag endpoint
                        +:+ "' (type: '" +:+ Endpoint.Typ endpoint +:+ "') in core: "
                        +:+ error_string e))
    | None => ret tt
    end
  else ret tt.

Definition saveEndpoint (endpoint : Endpoint.t) (d : DB) : outcome (Endpoint.t * DB) :=
  saved <~ gorm.Save endpoint (tbl_endpoints d) ;;
  Ok (saved.1, set_endpoints saved.2 d).

Definition EndpointService_Save (tx : handle) (act : string) (data : RawMessage) : M unit :=
  if decide (act = "new" ∨ act = "edit") then
    endpoint <- lift (Endpoint_UnmarshalJSON Endpoint.zero data) ;;
    _ <- lift (check (negb (bool_decide (Endpoint.Typ endpoint = "")))
                (NewError "Endpoint type is required.")) ;;
    _ <- lift (check (negb (bool_decide (Endpoint.Tag endpoint = "")))
                (NewError "Endpoint tag is required.")) ;;
    endpointOpts <- lift (endpointOptions endpoint) ;;
    _ <- lift (wireguardValidation endpoint endpointOpts) ;;
    _ <- checkDuplicateTag tx act endpoint ;;
    _ <- checkAllowedIPs tx act endpoint ;;
    endpoint <- warpHandling tx act endpoint ;;
    _ <- endpointCoreSync tx act endpoint ;;
    _ <- exec tx (saveEndpoint endpoint) ;;
    ret tt
  else if decide (act = "del") then
    tag <- lift (Json.Unmarshal_string data) ;;
    running <- gets (λ w, IsRunning (core w)) ;;
    _ <- (if running then
           err <- core_call (RemoveEndpoint tag) ;;
           match err with
           | Some e => if is_ErrInvalid e then ret tt else fail e
           | None => ret tt
           end
         else ret tt) ;;
    exec tx (λ d, Ok (tt, set_endpoints
                            (gorm.Delete (λ r, bool_decide (Endpoint.Tag r = tag))
                                         (tbl_endpoints d)) d))
  else fail (NewError ("unknown action: " +:+ act)).

(** *** The outbound service *)

Definition OutboundService_GetAllConfig (db : handle) : M (list json) :=
  outbounds <- query db tbl_outbounds ;;
  ret (foldr (λ outbound outboundsJson,
                match Outbound_MarshalJSON outbound with
                | Ok outboundJson => outboundJson :: outboundsJson
                | _ => outboundsJson        (* logged; the outbound is skipped *)
                end) [] outbounds).

Definition saveOutbound (outbound : Outbound.t) (d : DB) : outcome (Outbound.t * DB) :=
  saved <~ gorm.Save outbound (tbl_outbounds d) ;;
  Ok (saved.1, set_outbounds saved.2 d).

Definition outboundCoreSync (tx : handle) (act : string) (outbound : Outbound.t) : M unit :=
  running <- gets (λ w, IsRunning (core w)) ;;
  if running then
    configData <- lift (wrap "failed to marshal outbound for core operation: "
                          (Outbound_MarshalJSON outbound)) ;;
    _ <- (if decide (act = "edit") then
            oldTag <- query tx (λ d, Pluck Outbound.Tag
                          (λ r, bool_decide (Outbound.Id r = Outbound.Id outbound)) ""
                          (tbl_outbounds d)) ;;
            if negb (bool_decide (oldTag = "")) then
              _ <- core_call (RemoveOutbound oldTag) ;;   (* an error is only logged *)
              ret tt
            else ret tt
          else ret tt) ;;
    err <- core_call (AddOutbound configData) ;;
    match err with
    | Some e => fail (NewError ("failed to add outbound '" +:+ Outbound.Tag outbound
                                +:+ "' to core: " +:+ error_string e))
    | None => ret tt
    end
  else ret tt.

Definition OutboundService_Save (tx : handle) (act : string) (data : RawMessage) : M unit :=
  if decide (act = "new" ∨ act = "edit") then
    outbound <- lift (wrap "failed to unmarshal outbound data for save: "
                        (Outbound_UnmarshalJSON Outbound.zero data)) ;;
    _ <- lift (check (negb (bool_decide (Outbound.Tag outbound = "")))
                 (NewError "outbound tag cannot be empty")) ;;
    count <- query tx (λ d, gorm.Count
                (λ r, bool_decide (Outbound.Tag r = Outbound.Tag outbound)
                      && (if decide (act = "edit")
                          then negb (bool_decide (Outbound.Id r = Outbound.Id outbound))
                          else true))
                (tbl_outbounds d)) ;;
    _ <- lift (check (negb (0 <? count))
                 (NewError ("outbound tag '" +:+ Outbound.Tag outbound +:+ "' already exists"))) ;;
    _ <- outboundCoreSync tx act outbound ;;
    _ <- wrapM ("failed to save outbound '" +:+ Outbound.Tag outbound +:+ "' to database: ")
           (exec tx (saveOutbound outbound)) ;;
    ret tt
  else if decide (act = "del") then
    tag <- lift (wrap "failed to unmarshal tag for delete: " (Json.Unmarshal_string data)) ;;
    _ <- lift (check (negb (bool_decide (tag = "")))
                 (NewError "tag for delete cannot be empty")) ;;
    running <- gets (λ w, IsRunning (core w)) ;;
    _ <- (if running then
            _ <- core_call (RemoveOutbound tag) ;;        (* an error is only logged *)
            ret tt
          else ret tt) ;;
    exec tx (λ d, Ok (tt, set_outbounds
                            (gorm.Delete (λ r, bool_decide (Outbound.Tag r = tag))
                                         (tbl_outbounds d)) d))
  else fail (NewError ("unknown action: " +:+ act)).

(** *** The inbound service *)

Definition hasUser (inboundType : string) : bool :=
  bool_decide (inboundType ∈ ["mixed"; "socks"; "http"; "shadowsocks"; "vmess"; "trojan";
                              "naive"; "hysteria"; "shadowtls"; "tuic"; "hysteria2"; "vless"]).

(** [Preload("Tls")]: the association of a stored inbound. *)
Definition preloadTls (d : DB) (inbound : Inbound.t) : Inbound.t :=
  Inbound.set_Tls
    (head (gorm.Find (λ t, bool_decide (Tls.Id t = Inbound.TlsId inbound)) (tbl_tls d)))
    inbound.

(** The single-value assertion [v.(json.RawMessage)] on a member of a
    decoded [map[string]interface{}]: no decoded value has that type. *)
Definition assert_RawMessage {A} (v : json) : M A :=
  panic "interface conversion: interface {} is not json.RawMessage".

(** [m[k] == nil] on a decoded map: the key is missing or holds [null]. *)
Definition is_nil (v : option json) : bool :=
  match v with None | Some JNull => true | _ => false end.

Definition fetchUsers (db : handle) (inboundType condition : string)
           (inbound : gmap string json) : M (list RawMessage) :=
  let query_users inboundType :=
    users <- bind (query db (λ d, selectUsers d ("$." +:+ inboundType) condition)) lift ;;
    ret ((λ user, if bool_decide (inboundType = "vless") && is_nil (inbound !! "tls")
                  then stripVision user else user) <$> users) in
  if decide (inboundType = "shadowtls") then
    match inbound !! "version" with
    | Some versionRaw => assert_RawMessage versionRaw
    | None => ret []
    end
  else if decide (inboundType = "shadowsocks") then
    match inbound !! "method" with
    | Some methodRaw => assert_RawMessage methodRaw
    | None => query_users inboundType
    end
  else query_users inboundType.

(** [json.Marshal] of the decoded inbound with its "users" member set to
    a [[]json.RawMessage] built by [append] on a nil slice. *)
Definition marshalWithUsers (inbound : gmap string json) (users : list RawMessage)
  : outcome json :=
  if forallb Json.valid users then
    let usersJson := match users with
                     | [] => JNull
                     | _ => JArr ((λ r, match r with Raw j => j | _ => JNull end) <$> users)
                     end in
    Ok (JObj (<["users" := usersJson]> inbound))
  else Fail (Error "json: error calling MarshalJSON for type json.RawMessage").

Definition addUsers (db : handle) (inboundJson : json) (inboundId : N) (inboundType : string)
  : M json :=
  if negb (hasUser inboundType) then ret inboundJson
  else
    inbound <- lift (Json.Unmarshal_map (Raw inboundJson)) ;;
    let condition := fmt_d inboundId
                     +:+ " IN (SELECT json_each.value FROM json_each(clients.inbounds))" in
    users <- fetchUsers db inboundType condition inbound ;;
    lift (marshalWithUsers inbound users).

Definition initUsers (db : handle) (inboundJson : json) (clientIds : string)
           (inboundType : string) : M json :=
  let ClientIds := strings.Split clientIds in
  if decide (length ClientIds = 0%nat) then ret inboundJson
  else if negb (hasUser inboundType) then ret inboundJson
  else
    inbound <- lift (Json.Unmarshal_map (Raw inboundJson)) ;;
    let condition := "id IN (" +:+ String.concat "," ClientIds +:+ ")" in
    users <- fetchUsers db inboundType condition inbound ;;
    lift (marshalWithUsers inbound users).

Definition saveInbound (inbound : Inbound.t) (d : DB) : outcome (N * DB) :=
  saved <~ gorm.Save (Inbound.set_Tls None inbound) (tbl_inbounds d) ;;
  Ok (Inbound.Id saved.1, set_inbounds saved.2 d).

Definition InboundService_Save (tx : handle) (act : string) (data : RawMessage)
           (initUserIds hostname : string) : M N :=
  if decide (act = "new" ∨ act = "edit") then
    inbound <- lift (Inbound_UnmarshalJSON data) ;;
    inbound <- (if (0 <? Inbound.TlsId inbound)%N then
                  found <- query tx (λ d, gorm.Find
                              (λ t, bool_decide (Tls.Id t = Inbound.TlsId inbound))
                              (tbl_tls d)) ;;
                  ret (Inbound.set_Tls (head found) inbound)
                else ret inbound) ;;
    inbound <- lift (FillOutJson inbound hostname) ;;
    id <- exec tx (saveInbound inbound) ;;
    let inbound := Inbound.set_Id id inbound in
    running <- gets (λ w, IsRunning (core w)) ;;
    _ <- (if running then
            _ <- (if decide (act = "edit") then
                    oldTag <- query tx (λ d, Pluck Inbound.Tag
                                  (λ r, bool_decide (Inbound.Id r = Inbound.Id inbound)) ""
                                  (tbl_inbounds d)) ;;
                    if negb (bool_decide (oldTag = "")) then
                      err <- core_call (RemoveInbound oldTag) ;;
                      match err with
                      | Some e =>
                          if is_ErrInvalid e then ret tt
                          else fail (Error ("failed to remove old inbound '" +:+ oldTag
                                            +:+ "' from core: " +:+ error_string e))
                      | None => ret tt
                      end
                    else ret tt
                  else ret tt) ;;
            inboundConfig <- lift (Inbound_MarshalJSON inbound) ;;
            inboundConfig <- (if decide (act = "edit")
                              then addUsers tx inboundConfig (Inbound.Id inbound)
                                     (Inbound.Typ inbound)
                              else initUsers tx inboundConfig initUserIds
                                     (Inbound.Typ inbound)) ;;
            err <- core_call (AddInbound inboundConfig) ;;
            match err with
            | Some e => fail e
            | None => ret tt
            end
          else ret tt) ;;
    ret id
  else if decide (act = "del") then
    tag <- lift (Json.Unmarshal_string data) ;;
    running <- gets (λ w, IsRunning (core w)) ;;
    _ <- (if running then
            err <- core_call (RemoveInbound tag) ;;
            match err with
            | Some e => if is_ErrInvalid e then ret tt else fail e
            | None => ret tt
            end
          else ret tt) ;;
    id <- query tx (λ d, Pluck Inbound.Id (λ r, bool_decide (Inbound.Tag r = tag)) 0%N
                           (tbl_inbounds d)) ;;
    _ <- exec tx (λ d, Ok (tt, set_inbounds
                                 (gorm.Delete (λ r, bool_decide (Inbound.Tag r = tag))
                                              (tbl_inbounds d)) d)) ;;
    ret id
  else fail (NewError ("unknown action: " +:+ act)).

Fixpoint mapM_ {A B} (f : A → M B) (l : list A) : M (list B) :=
  match l with
  | [] => ret []
  | x :: l' => y <- f x ;; ys <- mapM_ f l' ;; ret (y :: ys)
  end.

Definition InboundService_GetAllConfig (db : handle) : M (list json) :=
  inbounds <- query db (λ d, preloadTls d <$> tbl_inbounds d) ;;
  mapM_ (λ inbound,
           inboundJson <- lift (Inbound_MarshalJSON inbound) ;;
           addUsers db inboundJson (Inbound.Id inbound) (Inbound.Typ inbound))
        inbounds.

Definition InboundService_RestartInbounds (tx : handle) (ids : list N) : M unit :=
  inbounds <- query tx (λ d, preloadTls d <$>
                gorm.Find (λ r, bool_decide (Inbound.Id r ∈ ids)) (tbl_inbounds d)) ;;
  forM_ (λ inbound,
           err <- core_call (RemoveInbound (Inbound.Tag inbound)) ;;
           _ <- match err with
                | Some e => if is_ErrInvalid e then ret tt else fail e
                | None => ret tt
                end ;;
           inboundConfig <- lift (Inbound_MarshalJSON inbound) ;;
           inboundConfig <- addUsers tx inboundConfig (Inbound.Id inbound)
                              (Inbound.Typ inbound) ;;
           err <- core_call (AddInbound inboundConfig) ;;
           match err with
           | Some e => fail e
           | None => ret tt
           end)
        inbounds.

Definition InboundService_UpdateOutJsons (tx : handle) (inboundIds : list N)
           (hostname : string) : M unit :=
  inbounds <- query tx (λ d, preloadTls d <$>
                gorm.Find (λ r, bool_decide (Inbound.Id r ∈ inboundIds)) (tbl_inbounds d)) ;;
  forM_ (λ inbound,
           inbound <- lift (FillOutJson inbound hostname) ;;
           exec tx (λ d, Ok (tt, set_inbounds
               ((λ r, if bool_decide (Inbound.Tag r = Inbound.Tag inbound)
                      then Inbound.set_OutJson (Inbound.OutJson inbound) r else r)
                  <$> tbl_inbounds d) d)))
        inbounds.

(** *** The client service *)

Definition saveClient (client : Client.t) (d : DB) : outcome (Client.t * DB) :=
  saved <~ gorm.Save client (tbl_clients d) ;;
  Ok (saved.1, set_clients saved.2 d).

(** [Where("id in ? and type in ?", ids, util.InboundTypeWithLink)] with
    [Preload("Tls")]. *)
Definition inboundsWithLink (ids : list N) (d : DB) : list Inbound.t :=
  preloadTls d <$>
    gorm.Find (λ r, bool_decide (Inbound.Id r ∈ ids)
                    && bool_decide (Inbound.Typ r ∈ InboundTypeWithLink))
              (tbl_inbounds d).

(** The descriptors generated for one client and one inbound. *)
Definition generatedLinks (client : Client.t) (hostname : string) (inbound : Inbound.t)
  : list descriptor :=
  local_link (Inbound.Tag inbound) <$> LinkGenerator (Client.Config client) inbound hostname.

(** [json.Unmarshal(client.Links, &clientLinks)] behind its nil check. *)
Definition clientLinksOf (client : Client.t) : outcome (list descriptor) :=
  match Client.Links client with
  | RawNil => Ok []
  | links =>
      wrap ("failed to unmarshal client.Links for client ID "
            +:+ fmt_d (Client.Id client) +:+ ": ")
           (Json.Unmarshal_string_maps links)
  end.

(** The body of the loop of updateLinksWithFixedInbounds. *)
Definition relinkClient (inbounds : list Inbound.t) (hostname : string) (client : Client.t)
  : outcome Client.t :=
  clientLinks <~ clientLinksOf client ;;
  let newClientLinks := inbounds ≫= generatedLinks client hostname in
  let newClientLinks :=
    newClientLinks ++ filter (λ clientLink, index clientLink "type" ≠ "local") clientLinks in
  Ok (Client.set_Links (Json.Marshal_string_maps newClientLinks) client).

Definition updateLinksWithFixedInbounds (tx : handle) (clients : list Client.t)
           (inbounIds : list N) (hostname : string) : M (list Client.t) :=
  inbounds <- (if decide (0 < length inbounIds)%nat
               then query tx (inboundsWithLink inbounIds)
               else ret []) ;;
  lift (mapO (relinkClient inbounds hostname) clients).

Definition ClientService_Save (tx : handle) (act : string) (data : RawMessage)
           (hostname : string) : M (list N) :=
  if decide (act = "new" ∨ act = "edit") then
    client <- lift (wrap "failed to unmarshal client data: " (Client_Unmarshal data)) ;;
    inboundIds <- lift (wrap ("failed to unmarshal client.Inbounds for client ID "
                              +:+ fmt_d (Client.Id client) +:+ ": ")
                          (Json.Unmarshal_uints (Client.Inbounds client))) ;;
    clients <- updateLinksWithFixedInbounds tx [client] inboundIds hostname ;;
    _ <- forM_ (λ client,
                  _ <- wrapM ("failed to save client ID " +:+ fmt_d (Client.Id client) +:+ ": ")
                         (exec tx (saveClient client)) ;;
                  ret tt)
               clients ;;
    ret inboundIds
  else if decide (act = "addbulk") then
    clients <- lift (wrap "failed to unmarshal bulk client data: " (Clients_Unmarshal data)) ;;
    match clients with
    | [] => ret []
    | first :: _ =>
        inboundIds <- match Client.Inbounds first with
                      | RawNil => ret []
                      | inbounds =>
                          lift (wrap "failed to unmarshal inbounds for the first client in bulk add: "
                                  (Json.Unmarshal_uints inbounds))
                      end ;;
        clients <- wrapM "failed to update links for bulk clients: "
                     (updateLinksWithFixedInbounds tx clients inboundIds hostname) ;;
        _ <- wrapM "failed to save bulk clients: "
               (exec tx (λ d, foldl (λ acc client,
                                       st <~ acc ;;
                                       saved <~ saveClient client st.2 ;;
                                       Ok (tt, saved.2))
                                    (Ok (tt, d)) clients)) ;;
        ret inboundIds
    end
  else if decide (act = "del") then
    id <- lift (wrap "failed to unmarshal client ID for deletion: " (Json.Unmarshal_uint data)) ;;
    client <- bind (query tx (λ d,
                wrap ("failed to find client ID " +:+ fmt_d id +:+ " for deletion: ")
                     (gorm.First (λ r, bool_decide (Client.Id r = id)) (tbl_clients d)))) lift ;;
    inboundIds <- lift (wrap ("failed to unmarshal client.Inbounds for client ID "
                              +:+ fmt_d id +:+ " being deleted: ")
                          (Json.Unmarshal_uints (Client.Inbounds client))) ;;
    _ <- exec tx (λ d, Ok (tt, set_clients
                                 (gorm.Delete (λ r, bool_decide (Client.Id r = id))
                                              (tbl_clients d)) d)) ;;
    ret inboundIds
  else fail (NewError ("unknown action: " +:+ act)).

(** The rows of [json_each(clients.inbounds)] compared with [id]: a
    NULL column has no rows and a malformed one fails the statement. *)
Definition json_each_has (id : N) (inbounds : RawMessage) : outcome bool :=
  let same j := match j with JNum n => n =? Z.of_N id | _ => false end in
  match inbounds with
  | RawNil => Ok false
  | RawInvalid => Fail (Error "malformed JSON")
  | Raw (JArr l) => Ok (existsb same l)
  | Raw (JObj m) => Ok (existsb same (map_to_list m).*2)
  | Raw j => Ok (same j)
  end.

(** [Table("clients").Where("EXISTS (SELECT 1 FROM json_each(
    clients.inbounds) WHERE json_each.value = ?)", id).Find(&clients)]. *)
Fixpoint clientsLinkedTo (id : N) (rows : list Client.t) : outcome (list Client.t) :=
  match rows with
  | [] => Ok []
  | client :: rest =>
      linked <~ json_each_has id (Client.Inbounds client) ;;
      others <~ clientsLinkedTo id rest ;;
      Ok (if linked then client :: others else others)
  end.

(** [json.Unmarshal(client.Inbounds, &clientInbounds)] behind its nil check. *)
Definition clientInboundsOf (client : Client.t) : outcome (list N) :=
  match Client.Inbounds client with
  | RawNil => Ok []
  | inbounds =>
      wrap ("failed to unmarshal client.Inbounds for client ID "
            +:+ fmt_d (Client.Id client) +:+ ": ")
           (Json.Unmarshal_uints inbounds)
  end.

(** [Where("id in ?", clientIds)] with the ids given as strings: SQLite
    compares the integer column with the text converted to a number. *)
Definition idAmong (clientIds : list string) (id : N) : bool :=
  existsb (λ s, bool_decide (strconv.ParseInt s = Some (Z.of_N id))) clientIds.

Definition UpdateClientsOnInboundAdd (tx : handle) (initIds : string) (inboundId : N)
           (hostname : string) : M unit :=
  let clientIds := strings.Split initIds in
  if decide (length clientIds = 0%nat ∨ clientIds = [""]) then ret tt
  else
    clients <- query tx (λ d, gorm.Find (λ r, idAmong clientIds (Client.Id r)) (tbl_clients d)) ;;
    inbound <- query tx (λ d,
                 default (Inbound.mk 0 "" "" 0 None RawNil RawNil)
                   (head (preloadTls d <$>
                            gorm.Find (λ r, bool_decide (Inbound.Id r = inboundId))
                                      (tbl_inbounds d)))) ;;
    forM_ (λ client,
             clientInbounds <- lift (clientInboundsOf client) ;;
             let clientInbounds := clientInbounds ++ [inboundId] in
             let client := Client.set_Inbounds (Json.Marshal_var_uints clientInbounds) client in
             clientLinks <- lift (clientLinksOf client) ;;
             let newClientLinks :=
               generatedLinks client hostname inbound
               ++ filter (λ clientLink, index clientLink "remark" ≠ Inbound.Tag inbound)
                         clientLinks in
             let client := Client.set_Links (Json.Marshal_var_string_maps newClientLinks) client in
             _ <- wrapM ("failed to save client ID " +:+ fmt_d (Client.Id client)
                         +:+ " after inbound add: ")
                    (exec tx (saveClient client)) ;;
             ret tt)
          clients.

(** The body of the loop of UpdateClientsOnInboundDelete: the client
    without the inbound [id] and without the descriptors remarked [tag]. *)
Definition unlinkClient (id : N) (tag : string) (client : Client.t) : outcome Client.t :=
  clientInbounds <~ clientInboundsOf client ;;
  let newClientInbounds := filter (λ clientInbound, clientInbound ≠ id) clientInbounds in
  let client := Client.set_Inbounds (Json.Marshal_var_uints newClientInbounds) client in
  clientLinks <~ clientLinksOf client ;;
  let newClientLinks := filter (λ clientLink, index clientLink "remark" ≠ tag) clientLinks in
  Ok (Client.set_Links (Json.Marshal_var_string_maps newClientLinks) client).

Definition UpdateClientsOnInboundDelete (tx : handle) (id : N) (tag : string) : M unit :=
  clients <- bind (query tx (λ d,
               wrap ("failed to find clients for inbound delete (inbound ID "
                     +:+ fmt_d id +:+ "): ")
                    (clientsLinkedTo id (tbl_clients d)))) lift ;;
  forM_ (λ client,
           client <- lift (unlinkClient id tag client) ;;
           _ <- wrapM ("failed to save client ID " +:+ fmt_d (Client.Id client)
                       +:+ " after inbound delete: ")
                  (exec tx (saveClient client)) ;;
           ret tt)
        clients.

Definition UpdateLinksByInboundChange (tx : handle) (inbounIds : list N) (hostname : string)
  : M unit :=
  inbounds <- query tx (inboundsWithLink inbounIds) ;;
  forM_ (λ inbound,
           clients <- bind (query tx (λ d,
                        wrap ("failed to find clients for inbound ID "
                              +:+ fmt_d (Inbound.Id inbound) +:+ " link change: ")
                             (clientsLinkedTo (Inbound.Id inbound) (tbl_clients d)))) lift ;;
           forM_ (λ client,
                    clientLinks <- lift (clientLinksOf client) ;;
                    let newClientLinks :=
                      generatedLinks client hostname inbound
                      ++ filter (λ clientLink,
                                   index clientLink "remark" ≠ Inbound.Tag inbound)
                                clientLinks in
                    let client :=
                      Client.set_Links (Json.Marshal_var_string_maps newClientLinks) client in
                    _ <- wrapM ("failed to save client ID " +:+ fmt_d (Client.Id client)
                                +:+ " after link change: ")
                           (exec tx (saveClient client)) ;;
                    ret tt)
                 clients)
        inbounds.

(** *** The setting service *)

(** The document whose text is the [defaultConfig] constant. *)
Definition defaultConfigDocument : json :=
  JObj (list_to_map [
    ("log", JObj {[ "level" := JStr "info" ]});
    ("dns", JObj ∅);
    ("route", JObj {[ "rules" := JArr [
        JObj (list_to_map [ ("protocol", JArr [JStr "dns"]);
                            ("action", JStr "hijack-dns") ]) ] ]});
    ("experimental", JObj ∅) ]).

Definition defaultConfig : string := string_of_raw (Raw defaultConfigDocument).

Definition defaultValueMap : gmap string string :=
  list_to_map [
    ("webListen", ""); ("webDomain", ""); ("webPort", "2095");
    ("secret", randomSecret); ("webCertFile", ""); ("webKeyFile", "");
    ("webPath", "/app/"); ("webURI", ""); ("sessionMaxAge", "0");
    ("trafficAge", "30"); ("timeLocation", "Asia/Tehran"); ("subListen", "");
    ("subPort", "2096"); ("subPath", "/sub/"); ("subDomain", "");
    ("subCertFile", ""); ("subKeyFile", ""); ("subUpdates", "12");
    ("subEncode", "true"); ("subShowInfo", "false"); ("subURI", "");
    ("subJsonExt", ""); ("config", defaultConfig); ("version", appVersion);
    ("panelLanguage", "en"); ("panelTheme", "light") ].

Definition getString (db : handle) (key : string) : M string :=
  found <- query db (λ d, gorm.First (λ r, bool_decide (Setting.Key r = key)) (tbl_settings d)) ;;
  match found with
  | Ok setting => ret (Setting.Value setting)
  | Fail ErrRecordNotFound =>
      match defaultValueMap !! key with
      | Some value => ret value
      | None => fail (NewError ("key <" +:+ key
                                +:+ "> not in defaultValueMap and not found in DB"))
      end
  | Fail err => fail (NewError ("failed to get setting '" +:+ key +:+ "': "
                                +:+ error_string err))
  | Panic p => panic p
  end.

Definition saveSetting (db : handle) (key value : string) : M unit :=
  found <- query db (λ d, gorm.First (λ r, bool_decide (Setting.Key r = key)) (tbl_settings d)) ;;
  match found with
  | Fail ErrRecordNotFound =>
      exec db (λ d,
        saved <~ gorm.Save (Setting.mk 0 key value) (tbl_settings d) ;;
        Ok (tt, set_settings saved.2 d))
  | Fail err => fail (NewError ("failed to get setting '" +:+ key +:+ "' for save: "
                                +:+ error_string err))
  | Ok setting =>
      exec db (λ d,
        saved <~ gorm.Save (Setting.set_Value value setting) (tbl_settings d) ;;
        Ok (tt, set_settings saved.2 d))
  | Panic p => panic p
  end.

(** The dynamic type of [typedValue] in Update. *)
Inductive typed : Type :=
| TString (v : string)
| TInt (v : Z)
| TBool (v : bool).

(** The path cases of Update: "Ensure path format consistency". *)
Definition normalizePath (value : string) : string :=
  let newPath := value in
  let newPath := if negb (strings.HasPrefix newPath "/") then "/" +:+ newPath else newPath in
  if negb (strings.HasSuffix newPath "/") then newPath +:+ "/" else newPath.

Definition parseIntSetting (key value : string) : outcome typed :=
  match strconv.Atoi value with
  | Some i => Ok (TInt i)
  | None => Fail (NewError ("failed to parse " +:+ key +:+ " to int: strconv.Atoi: parsing "
                            +:+ value +:+ ": invalid syntax"))
  end.

Definition parseBoolSetting (key value : string) : outcome typed :=
  match strconv.ParseBool value with
  | Some b => Ok (TBool b)
  | None => Fail (NewError ("failed to parse " +:+ key
                            +:+ " to bool: strconv.ParseBool: parsing "
                            +:+ value +:+ ": invalid syntax"))
  end.

(** The first switch of Update: the value, validated and typed by key. *)
Definition typedValue (key value : string) : outcome typed :=
  if bool_decide (key ∈ ["webListen"; "webDomain"; "webCertFile"; "webKeyFile"; "webURI";
                         "secret"; "subListen"; "subDomain"; "subCertFile"; "subKeyFile";
                         "subURI"; "subJsonExt"])
  then Ok (TString value)
  else if bool_decide (key ∈ ["webPort"; "sessionMaxAge"; "trafficAge"; "subPort"; "subUpdates"])
  then parseIntSetting key value
  else if bool_decide (key ∈ ["webPath"; "subPath"])
  then Ok (TString (normalizePath value))
  else if bool_decide (key = "timeLocation")
  then match LoadLocation value with
       | Some errConv => Fail (NewError ("invalid time location '" +:+ value +:+ "': "
                                         +:+ error_string errConv))
       | None => Ok (TString value)
       end
  else if bool_decide (key ∈ ["subEncode"; "subShowInfo"])
  then parseBoolSetting key value
  else match defaultValueMap !! key with
       | None => Fail (NewError ("unknown setting key: " +:+ key))
       | Some _ => Ok (TString value)
       end.

(** The second switch of Update: the typed value printed back. *)
Definition valueStr (v : typed) : string :=
  match v with
  | TString v => v
  | TInt v => strconv.Itoa v
  | TBool v => strconv.FormatBool v
  end.

Definition SettingService_Update (tx : option handle) (key value : string) : M unit :=
  typedValue <- lift (typedValue key value) ;;
  let dbToUse := default TheDB tx in
  wrapM ("Update: failed to save setting for key '" +:+ key +:+ "': ")
        (saveSetting dbToUse key (valueStr typedValue)).

Definition SettingService_GetConfig : M string := getString TheDB "config".

(** *** The config service *)

Definition Unmarshal_SingBoxConfig (raw : RawMessage) : outcome SingBoxConfig :=
  let section (m : gmap string json) k :=
    match m !! k with Some j => Raw j | None => RawNil end in
  let array (m : gmap string json) k : outcome (list json) :=
    match m !! k with
    | None | Some JNull => Ok []
    | Some (JArr l) => Ok l
    | Some _ => Fail (Error "json: cannot unmarshal into Go struct field of type []json.RawMessage")
    end in
  match raw with
  | Raw (JObj m) =>
      inbounds <~ array m "inbounds" ;;
      outbounds <~ array m "outbounds" ;;
      endpoints <~ array m "endpoints" ;;
      Ok (mkConfig (section m "log") (section m "dns") (section m "ntp")
                   inbounds outbounds endpoints
                   (section m "route") (section m "experimental"))
  | Raw JNull => Ok (mkConfig RawNil RawNil RawNil [] [] [] RawNil RawNil)
  | Raw _ => Fail (Error "json: cannot unmarshal into Go value of type service.SingBoxConfig")
  | RawNil => Fail (Error "unexpected end of JSON input")
  | RawInvalid => Fail (Error "invalid character looking for beginning of value")
  end.

Definition Marshal_SingBoxConfig (c : SingBoxConfig) : outcome json :=
  let array (l : list json) := match l with [] => Raw JNull | _ => Raw (JArr l) end in
  Json.Marshal_raw_map (list_to_map [
    ("log", cfg_Log c); ("dns", cfg_Dns c); ("ntp", cfg_Ntp c);
    ("inbounds", array (cfg_Inbounds c)); ("outbounds", array (cfg_Outbounds c));
    ("endpoints", array (cfg_Endpoints c));
    ("route", cfg_Route c); ("experimental", cfg_Experimental c) ]).

Definition ConfigService_GetConfig (data : string) : M SingBoxConfig :=
  data <- (if decide (String.length data = 0%nat)
           then wrapM "failed to get base config from settings: " SettingService_GetConfig
           else ret data) ;;
  singboxConfig <- lift (wrap "failed to unmarshal base config: "
                           (Unmarshal_SingBoxConfig (raw_of_string data))) ;;
  inbounds <- wrapM "failed to get all inbound configs: " (InboundService_GetAllConfig TheDB) ;;
  outbounds <- wrapM "failed to get all outbound configs: " (OutboundService_GetAllConfig TheDB) ;;
  endpoints <- wrapM "failed to get all endpoint configs: " (EndpointService_GetAllConfig TheDB) ;;
  ret (mkConfig (cfg_Log singboxConfig) (cfg_Dns singboxConfig) (cfg_Ntp singboxConfig)
                inbounds outbounds endpoints
                (cfg_Route singboxConfig) (cfg_Experimental singboxConfig)).

Definition ConfigService_StartCore (defaultConfig : string) : M unit :=
  running <- gets (λ w, IsRunning (core w)) ;;
  if running then ret tt
  else
    singboxConfig <- wrapM "failed to get full config for core start: "
                       (ConfigService_GetConfig defaultConfig) ;;
    rawConfig <- lift (wrap "failed to marshal full config for core start: "
                         (Marshal_SingBoxConfig singboxConfig)) ;;
    err <- core_call (Start rawConfig) ;;
    match err with
    | Some e => fail (NewError ("failed to start sing-box core: " +:+ error_string e))
    | None => ret tt
    end.

Definition ConfigService_StopCore : M unit :=
  err <- core_call Stop ;;
  match err with
  | Some e => fail (NewError ("failed to stop sing-box core: " +:+ error_string e))
  | None => ret tt
  end.

Definition restartCoreWithConfig (config : RawMessage) : M unit :=
  _ <- wrapM "failed to stop core before restarting with new config: " ConfigService_StopCore ;;
  ConfigService_StartCore (string_of_raw config).

(** TlsService.Save on a handle. *)
Definition tlsSave (tx : handle) (act : string) (data : RawMessage) : M (list N) :=
  λ w, let '(d, o) := TlsService_Save act data (view tx w) in (with_view tx d w, o).

Definition createChange (c : Changes.t) (d : DB) : outcome (unit * DB) :=
  saved <~ gorm.Save c (tbl_changes d) ;;
  Ok (tt, set_changes saved.2 d).

(** The "inbounds" case of the switch of Save. *)
Definition saveInbounds (tx : handle) (act : string) (data : RawMessage)
           (initUsers hostname : string) : M (list N) :=
  tagForClientUpdate <-
    (if decide (act = "del") then
       idToDelete <- lift (wrap "failed to unmarshal inbound ID for deletion from 'data': "
                             (Json.Unmarshal_uint data)) ;;
       _ <- lift (check (negb (N.eqb idToDelete 0))
                    (NewError "inbound ID for deletion cannot be zero")) ;;
       tempInbound <- bind (query tx (λ d,
                         wrap ("failed to retrieve tag for inbound ID " +:+ fmt_d idToDelete
                               +:+ " prior to deletion: ")
                              (gorm.First (λ r, bool_decide (Inbound.Id r = idToDelete))
                                          (tbl_inbounds d)))) lift ;;
       ret (Inbound.Tag tempInbound)
     else ret "") ;;
  actualInboundIdToRestart <- InboundService_Save tx act data initUsers hostname ;;
  let inboundIdsToRestart :=
    if bool_decide (act = "new" ∨ act = "edit") then [actualInboundIdToRestart]
    else if bool_decide (act = "del") then [actualInboundIdToRestart]
    else [] in
  let idsForClientLinkUpdate :=
    if negb (N.eqb actualInboundIdToRestart 0) then [actualInboundIdToRestart] else [] in
  _ <- (if decide (act = "new") then
          UpdateClientsOnInboundAdd tx initUsers actualInboundIdToRestart hostname
        else if decide (act = "edit") then
          if decide (0 < length idsForClientLinkUpdate)%nat
          then UpdateLinksByInboundChange tx idsForClientLinkUpdate hostname
          else ret tt
        else if decide (act = "del") then
          UpdateClientsOnInboundDelete tx actualInboundIdToRestart tagForClientUpdate
        else ret tt) ;;
  ret inboundIdsToRestart.

(** The switch on [obj]: the objects touched and the inbounds to restart. *)
Definition saveObject (tx : handle) (obj act : string) (data : RawMessage)
           (initUsers hostname : string) : M (list string * list N) :=
  if decide (obj = "clients") then
    ids <- wrapM "failed to save clients: " (ClientService_Save tx act data hostname) ;;
    ret ([obj; "inbounds"], ids)
  else if decide (obj = "tls") then
    ids <- wrapM "failed to save tls: " (tlsSave tx act data) ;;
    ret ([obj], ids)
  else if decide (obj = "inbounds") then
    ids <- saveInbounds tx act data initUsers hostname ;;
    ret ([obj; "clients"], ids)
  else if decide (obj = "outbounds") then
    _ <- wrapM "failed to save outbounds: " (OutboundService_Save tx act data) ;;
    ret ([obj], [])
  else if decide (obj = "endpoints") then
    _ <- wrapM "failed to save endpoints: " (EndpointService_Save tx act data) ;;
    ret ([obj], [])
  else if decide (obj = "config") then
    _ <- wrapM "failed to save config using SettingService.Update: "
           (SettingService_Update (Some tx) "config" (string_of_raw data)) ;;
    _ <- wrapM "failed to restart core with new config: " (restartCoreWithConfig data) ;;
    ret ([obj], [])
  else if decide (obj = "settings") then
    settingsToUpdate <- lift (wrap "failed to unmarshal settings data: "
                                (Json.Unmarshal_string_map data)) ;;
    _ <- forM_ (λ kv : string * string,
                  wrapM ("failed to save setting '" +:+ kv.1 +:+ "': ")
                        (SettingService_Update (Some tx) kv.1 kv.2))
               (mapRange settingsToUpdate) ;;
    ret ([obj], [])
  else fail (NewError ("unknown object type: " +:+ obj)).

(** The "side changes" after the change-log record is written;
    [singleInboundId] is declared by Save and never assigned. *)
Definition sideChanges (tx : handle) (obj act : string) (data : RawMessage)
           (initUsers hostname : string) (objs : list string)
           (inboundIdsToRestart : list N) : M (list string) :=
  objs <- (if bool_decide (obj = "tls") && bool_decide (0 < length inboundIdsToRestart)%nat
           then
             _ <- wrapM "failed to update client links after tls change: "
                    (UpdateLinksByInboundChange tx inboundIdsToRestart hostname) ;;
             _ <- wrapM "unable to update out_json of inbounds after tls change: "
                    (InboundService_UpdateOutJsons tx inboundIdsToRestart hostname) ;;
             ret (objs ++ ["clients"; "inbounds"])
           else ret objs) ;;
  if decide (obj = "inbounds") then
    let singleInboundId := 0%N in
    let idsForClientUpdate :=
      if negb (N.eqb singleInboundId 0) then [singleInboundId] else [] in
    _ <- wrapM ("failed to update clients after inbound " +:+ act +:+ ": ")
           (if decide (act = "new") then
              UpdateClientsOnInboundAdd tx initUsers singleInboundId hostname
            else if decide (act = "edit") then
              if decide (0 < length idsForClientUpdate)%nat
              then UpdateLinksByInboundChange tx idsForClientUpdate hostname
              else ret tt
            else if decide (act = "del") then
              tag <- lift (wrap "failed to unmarshal tag for inbound deletion: "
                             (Json.Unmarshal_string data)) ;;
              UpdateClientsOnInboundDelete tx singleInboundId tag
            else ret tt) ;;
    ret (objs ++ ["clients"])
  else ret objs.

(** The body of Save between [db.Begin()] and the deferred function. *)
Definition saveBody (obj act : string) (data : RawMessage)
           (initUsers loginUser hostname : string) : M (list string * list N) :=
  saved <- saveObject TheTx obj act data initUsers hostname ;;
  dt <- gets now ;;
  _ <- wrapM "failed to create change log: "
         (exec TheTx (createChange (Changes.mk 0 dt loginUser obj act data))) ;;
  objs <- sideChanges TheTx obj act data initUsers hostname saved.1 saved.2 ;;
  ret (objs, saved.2).

(** The deferred function on the commit path. *)
Definition afterCommit (inboundIdsToRestart : list N) : M unit :=
  running <- gets (λ w, IsRunning (core w)) ;;
  _ <- (if bool_decide (0 < length inboundIdsToRestart)%nat && running
        then try (InboundService_RestartInbounds TheDB inboundIdsToRestart)
        else ret None) ;;
  running <- gets (λ w, IsRunning (core w)) ;;
  _ <- (if negb running then try (ConfigService_StartCore "") else ret None) ;;
  t <- gets now ;;
  set_LastUpdate t.

Definition ConfigService_Save (obj act : string) (data : RawMessage)
           (initUsers loginUser hostname : string) : M (list string) :=
  λ w,
    let '(w0, _) := Begin w in
    match saveBody obj act data initUsers loginUser hostname w0 with
    | (w1, Panic p) => let '(w2, _) := Rollback w1 in (w2, Panic p)
    | (w1, Fail err) => let '(w2, _) := Rollback w1 in (w2, Fail err)
    | (w1, Ok (objs, inboundIdsToRestart)) =>
        let '(w2, _) := Commit w1 in
        (_ <- afterCommit inboundIdsToRestart ;; ret objs) w2
    end.

Definition ConfigService_CheckChanges (lu : string) : M bool :=
  if decide (lu = "") then ret true
  else
    match strconv.ParseInt lu with
    | None => fail (NewError ("invalid last update timestamp format '" +:+ lu
                              +:+ "': strconv.ParseInt: parsing " +:+ lu
                              +:+ ": invalid syntax"))
    | Some lastUpdateUnix =>
        LastUpdate <- gets LastUpdate ;;
        if lastUpdateUnix <? LastUpdate then ret true
        else
          count <- query TheDB (λ d, gorm.Count
                      (λ c, lastUpdateUnix <? Changes.DateTime c) (tbl_changes d)) ;;
          if 0 <? count then
            t <- gets now ;;
            _ <- set_LastUpdate t ;;
            ret true
          else ret false
    end.

End Services.

(** ** A closed world for the scenarios *)

(** One instance of the collaborators, used where a property is evaluated
    on concrete data: a core that records the calls it receives and whose
    removals answer [remove_error], a link generator that gives one URI per
    inbound, and the plain JSON forms of inbounds and clients. *)
Module Scenario.

Inductive call : Type :=
| CStart (config : json)
| CStop
| CAdd (kind : string) (config : json)
| CRemove (kind : string) (tag : string).

Record core_state : Type := mkCore {
  running : bool;
  calls : list call;
}.

Definition record (c : call) (s : core_state) : core_state :=
  mkCore (running s) (calls s ++ [c]).

Definition inbound_of_json (data : RawMessage) : outcome Inbound.t :=
  raw <~ Json.Unmarshal_map data ;;
  let num k := match raw !! k with Some (JNum n) => Z.to_N n | _ => 0%N end in
  let str k := match raw !! k with Some (JStr s) => s | _ => "" end in
  Ok (Inbound.mk (num "id") (str "type") (str "tag") (num "tls_id") None RawNil
        (Raw (JObj (delete "id" (delete "type" (delete "tag" (delete "tls_id" raw))))))).

Definition json_of_inbound (x : Inbound.t) : outcome json :=
  rest <~ match Inbound.Options x with
          | RawNil => Ok ∅
          | options => Json.Unmarshal_map options
          end ;;
  Ok (JObj (<["type" := JStr (Inbound.Typ x)]> (<["tag" := JStr (Inbound.Tag x)]> rest))).

Definition client_of_json (data : RawMessage) : outcome Client.t :=
  raw <~ Json.Unmarshal_map data ;;
  let num k := match raw !! k with Some (JNum n) => n | _ => 0 end in
  let str k := match raw !! k with Some (JStr s) => s | _ => "" end in
  let sub k := match raw !! k with Some j => Raw j | None => RawNil end in
  Ok (Client.mk (Z.to_N (num "id"))
        (match raw !! "enable" with Some (JBool b) => b | _ => false end)
        (str "name") (sub "config") (sub "inbounds") (sub "links")
        (num "volume") (num "expiry") (num "up") (num "down")).

Definition collaborators (remove_error : option error) : Collaborators := {|
  Sprint _ := "?";
  LoadLocation name :=
    if bool_decide (name ∈ ["UTC"; "Asia/Tehran"; "Europe/Paris"]) then None
    else Some (Error ("unknown time zone " +:+ name));
  InboundTypeWithLink := ["vless"; "vmess"; "trojan"];
  LinkGenerator _ inbound hostname :=
    [Inbound.Typ inbound +:+ "://" +:+ hostname +:+ "#" +:+ Inbound.Tag inbound];
  FillOutJson inbound _ := Ok inbound;
  Inbound_UnmarshalJSON := inbound_of_json;
  Inbound_MarshalJSON := json_of_inbound;
  Client_Unmarshal := client_of_json;
  Clients_Unmarshal data :=
    match data with
    | Raw (JArr l) => mapO (λ j, client_of_json (Raw j)) l
    | _ => Fail (Error "json: cannot unmarshal into Go value of type []*model.Client")
    end;
  Core := core_state;
  IsRunning := running;
  Start config s := (mkCore true (calls s ++ [CStart config]), None);
  Stop s := (mkCore false (calls s ++ [CStop]), None);
  AddInbound config s := (record (CAdd "inbound" config) s, None);
  RemoveInbound tag s := (record (CRemove "inbound" tag) s, remove_error);
  AddOutbound config s := (record (CAdd "outbound" config) s, None);
  RemoveOutbound tag s := (record (CRemove "outbound" tag) s, remove_error);
  AddEndpoint config s := (record (CAdd "endpoint" config) s, None);
  RemoveEndpoint tag s := (record (CRemove "endpoint" tag) s, remove_error);
  RegisterWarp endpoint := Ok endpoint;
  updateWarpLicense _ := None;
  TlsService_Save _ _ d := (d, Ok []);
  selectUsers _ _ _ := Ok [];
  stripVision user := user;
  extractLicense _ := Ok "";
  string_of_raw _ := "{}";
  raw_of_string s := if decide (s = "") then RawNil else Raw (JObj ∅);
  randomSecret := "0123456789abcdef0123456789abcdef";
  appVersion := "1.0.0";
  mapRange m := map_to_list m;
|}.

Definition empty_db : DB := mkDB [] [] [] [] [] [] [].

(** A world with store [d], nothing in flight, and the core stopped or
    running. *)
Definition world (remove_error : option error) (is_running : bool) (d : DB)
  : @World (collaborators remove_error) :=
  @mkWorld (collaborators remove_error) d d (mkCore is_running []) 0 1000 0.

(** The peers member of the spec's endpoint scenario: one peer that
    advertises [ranges]. *)
Definition peers (ranges : list string) : json :=
  JArr [ JObj (list_to_map [
      ("public_key", JStr "PK1"); ("address", JStr "1.2.3.4");
      ("port", JNum 51820); ("allowed_ips", JArr (JStr <$> ranges));
      ("persistent_keepalive", JNum 25) ]) ].

(** The payload of that scenario: a wireguard endpoint [tag]. *)
Definition wireguard (id : Z) (tag : string) (ranges : list string) : json :=
  JObj (list_to_map [
    ("id", JNum id); ("type", JStr "wireguard"); ("tag", JStr tag);
    ("peers", peers ranges) ]).

End Scenario.

(** * Properties *)

(** ** Reasoning about outcomes and the service monad *)

Section Outcome.
Context {A B : Type}.
Implicit Types (o : outcome A) (f : A → outcome B).

Lemma obind_Ok_inv o f b : obind o f = Ok b → ∃ a, o = Ok a ∧ f a = Ok b.
Proof. destruct o; simpl; [eauto | done | done]. Qed.

Lemma obind_Fail_inv o f e :
  obind o f = Fail e → o = Fail e ∨ ∃ a, o = Ok a ∧ f a = Fail e.
Proof. destruct o; simpl; [eauto | intros [= ->]; eauto | done]. Qed.

Lemma wrap_Ok_inv prefix o a : wrap prefix o = Ok a → o = Ok a.
Proof. by destruct o. Qed.

Lemma wrap_is_Ok prefix o : is_Ok (wrap prefix o) = is_Ok o.
Proof. by destruct o. Qed.
End Outcome.

Lemma Marshal_raw_map_inv (m : gmap string RawMessage) j :
  Json.Marshal_raw_map m = Ok j →
  j = JObj ((λ r, match r with Raw j => j | _ => JNull end) <$> m).
Proof. unfold Json.Marshal_raw_map. destruct (bool_decide _); congruence. Qed.

Section Monad.
Context `{Collaborators} {A B : Type}.
Implicit Types (m : M A) (k : A → M B) (w : World).

Lemma bind_Ok m k w w1 a : m w = (w1, Ok a) → bind m k w = k a w1.
Proof. unfold bind. by intros ->. Qed.

Lemma bind_Fail m k w w1 e : m w = (w1, Fail e) → bind m k w = (w1, Fail e).
Proof. unfold bind. by intros ->. Qed.

Lemma bind_Panic m k w w1 p : m w = (w1, Panic p) → bind m k w = (w1, Panic p).
Proof. unfold bind. by intros ->. Qed.

Lemma bind_Ok_inv m k w w' b :
  bind m k w = (w', Ok b) → ∃ a w1, m w = (w1, Ok a) ∧ k a w1 = (w', Ok b).
Proof. unfold bind. destruct (m w) as [w1 [a|e|p]]; [eauto | done | done]. Qed.

Lemma bind_lift_Ok (o : outcome A) k w a : o = Ok a → bind (lift o) k w = k a w.
Proof. by intros ->. Qed.

Lemma bind_lift_Fail (o : outcome A) k w e : o = Fail e → bind (lift o) k w = (w, Fail e).
Proof. by intros ->. Qed.
End Monad.

(** ** The endpoint list view *)

Section EndpointView.
Context `{Collaborators}.

Lemma endpointData_canonical (endpoint : Endpoint.t) :
  endpointData endpoint !! "id" = Some (AUint (Endpoint.Id endpoint)) ∧
  endpointData endpoint !! "type" = Some (AString (Endpoint.Typ endpoint)) ∧
  endpointData endpoint !! "tag" = Some (AString (Endpoint.Tag endpoint)) ∧
  endpointData endpoint !! "ext" = Some (ARaw (Endpoint.Ext endpoint)).
Proof. unfold endpointData. repeat split; by simplify_map_eq. Qed.

(** The per-class serialization prints a stored "warp" as "wireguard"
    (unless the options bag itself carries a "type" member). *)
Lemma MarshalJSON_warp (endpoint : Endpoint.t) (j : json) :
  Endpoint.Typ endpoint = "warp" →
  Endpoint_MarshalJSON endpoint = Ok j →
  (∀ rest, Json.Unmarshal_map (Endpoint.Options endpoint) = Ok rest → rest !! "type" = None) →
  ∃ m, j = JObj m ∧ m !! "type" = Some (JStr "wireguard").
Proof.
  intros Hw Hm Hrest. unfold Endpoint_MarshalJSON in Hm. rewrite Hw in Hm.
  rewrite decide_True in Hm by done.
  set (c0 := match Endpoint.Ext endpoint with RawNil => _ | _ => _ end) in Hm.
  assert (Hc0 : c0 !! "type" = Some (Raw (JStr "wireguard"))).
  { unfold c0. destruct (Endpoint.Ext endpoint); by simplify_map_eq. }
  clearbody c0.
  apply obind_Ok_inv in Hm as (combined & Hc & Hm).
  apply Marshal_raw_map_inv in Hm as ->.
  eexists; split; [done|]. rewrite lookup_fmap.
  assert (combined !! "type" = Some (Raw (JStr "wireguard"))) as ->; [|done].
  destruct (Endpoint.Options endpoint) eqn:Ho.
  - by injection Hc as <-.
  - done.
  - apply obind_Ok_inv in Hc as (rest & Hu & [= <-]).
    rewrite lookup_union_r; [done|]. by rewrite lookup_fmap, (Hrest _ Hu).
Qed.

(** C10. For every stored endpoint, the map that GetAll produces for it
    has its "id", "type", "tag" and "ext" entries equal to the record's
    canonical fields, whatever the options bag holds under those names
    (the options are inserted first and the canonical fields overwrite
    them). The stored type is reported as it is: a "warp" endpoint is
    listed as "warp", while Endpoint.MarshalJSON prints it as
    "wireguard". *)
Theorem GetAll_reports_canonical_fields (w : World) (i : nat) (endpoint : Endpoint.t)
  (Hrow : tbl_endpoints (durable w) !! i = Some endpoint) :
  ∃ data epData,
    EndpointService_GetAll w = (w, Ok data) ∧
    length data = length (tbl_endpoints (durable w)) ∧
    data !! i = Some epData ∧
    epData !! "id" = Some (AUint (Endpoint.Id endpoint)) ∧
    epData !! "type" = Some (AString (Endpoint.Typ endpoint)) ∧
    epData !! "tag" = Some (AString (Endpoint.Tag endpoint)) ∧
    epData !! "ext" = Some (ARaw (Endpoint.Ext endpoint)) ∧
    (Endpoint.Typ endpoint = "warp" →
     epData !! "type" = Some (AString "warp") ∧
     ∀ j, Endpoint_MarshalJSON endpoint = Ok j →
          (∀ rest, Json.Unmarshal_map (Endpoint.Options endpoint) = Ok rest →
                   rest !! "type" = None) →
          ∃ m, j = JObj m ∧ m !! "type" = Some (JStr "wireguard")).
Proof.
  exists (endpointData <$> tbl_endpoints (durable w)), (endpointData endpoint).
  destruct (endpointData_canonical endpoint) as (Hid & Htype & Htag & Hext).
  split; [reflexivity|].
  split; [by rewrite length_fmap|].
  split; [by rewrite list_lookup_fmap, Hrow|].
  repeat (split; [assumption|]).
  intros Hwarp. split; [by rewrite Htype, Hwarp|].
  intros j Hj Hrest. by eapply MarshalJSON_warp.
Qed.

End EndpointView.

(** A stored warp endpoint whose options bag carries members named like
    the canonical fields. *)
Definition shadowing_endpoint : Endpoint.t :=
  Endpoint.mk 7 "warp" "wg0"
    (Raw (JObj (list_to_map [ ("id", JNum 99); ("type", JStr "bogus"); ("tag", JStr "other");
                              ("ext", JNull); ("mtu", JNum 1420) ])))
    (Raw (JObj {[ "license_key" := JStr "L" ]})).

Lemma GetAll_reports_canonical_fields_witness :
  let w := Scenario.world None false
             (set_endpoints [shadowing_endpoint] Scenario.empty_db) in
  ∃ data epData,
    EndpointService_GetAll w = (w, Ok data) ∧
    length data = 1%nat ∧
    data !! 0%nat = Some epData ∧
    epData !! "id" = Some (AUint 7) ∧
    epData !! "type" = Some (AString "warp") ∧
    epData !! "tag" = Some (AString "wg0") ∧
    epData !! "ext" = Some (ARaw (Raw (JObj {[ "license_key" := JStr "L" ]}))).
Proof.
  intros w.
  destruct (GetAll_reports_canonical_fields w 0 shadowing_endpoint eq_refl)
    as (data & epData & Hrun & Hlen & Hi & Hid & Htype & Htag & Hext & _).
  exists data, epData. repeat split; assumption.
Defined.

(** ** The change feed *)

Section ChangeFeed.
Context `{Collaborators}.

(** The store counts at least one row exactly when one matches. *)
Lemma Count_pos {A} (p : A → bool) (rows : list A) :
  (0 <? gorm.Count p rows) = true ↔ Exists (λ r, p r = true) rows.
Proof.
  unfold gorm.Count, gorm.Find. rewrite Z.ltb_lt.
  induction rows as [|r rows IH].
  - simpl. rewrite Exists_nil. lia.
  - rewrite filter_cons, Exists_cons. destruct (decide (p r = true)) as [Hp|Hp].
    + simpl. split; [auto | lia].
    + rewrite IH. tauto.
Qed.

Lemma Count_zero {A} (p : A → bool) (rows : list A) :
  (0 <? gorm.Count p rows) = false ↔ Forall (λ r, p r = false) rows.
Proof.
  rewrite <- not_true_iff_false, Count_pos.
  induction rows as [|r rows IH].
  - rewrite Exists_nil. split; [constructor | tauto].
  - rewrite Exists_cons, Forall_cons. destruct (p r); intuition congruence.
Qed.

(** The world after CheckChanges refreshed the watermark. *)
Definition refreshed (w : World) : World :=
  mkWorld (durable w) (txn w) (core w) (now w) (now w) (writes w).

Lemma ParseInt_nonempty lu n : strconv.ParseInt lu = Some n → lu ≠ "".
Proof. by intros Hp ->. Qed.

Lemma CheckChanges_parsed (w : World) (lu : string) (n : Z) :
  strconv.ParseInt lu = Some n →
  ConfigService_CheckChanges lu w =
    if n <? LastUpdate w then (w, Ok true)
    else if 0 <? gorm.Count (λ c, n <? Changes.DateTime c) (tbl_changes (durable w))
         then (refreshed w, Ok true)
         else (w, Ok false).
Proof.
  intros Hp. unfold ConfigService_CheckChanges.
  rewrite decide_False by (by eapply ParseInt_nonempty). rewrite Hp.
  unfold bind, gets, query, gets, view, set_LastUpdate, modify, ret; simpl.
  destruct (n <? LastUpdate w); [done|].
  by destruct (0 <? gorm.Count _ _).
Qed.

(** C6. CheckChanges reports a change when the caller supplies no
    watermark, and when the in-memory watermark is strictly greater than
    the caller's. Otherwise it counts the change-log records whose
    timestamp is strictly greater than the caller's: if there is one it
    sets the in-memory watermark to the current time and reports a change,
    and it reports no change only when there is none. *)
Theorem CheckChanges_reports (w : World) (lu : string) :
  (lu = "" → ConfigService_CheckChanges lu w = (w, Ok true)) ∧
  (∀ n, strconv.ParseInt lu = Some n → n < LastUpdate w →
        ConfigService_CheckChanges lu w = (w, Ok true)) ∧
  (∀ n, strconv.ParseInt lu = Some n → LastUpdate w ≤ n →
        Exists (λ c, n < Changes.DateTime c) (tbl_changes (durable w)) →
        ConfigService_CheckChanges lu w = (refreshed w, Ok true)) ∧
  (∀ n, strconv.ParseInt lu = Some n → LastUpdate w ≤ n →
        Forall (λ c, Changes.DateTime c ≤ n) (tbl_changes (durable w)) →
        ConfigService_CheckChanges lu w = (w, Ok false)) ∧
  (∀ w', ConfigService_CheckChanges lu w = (w', Ok false) →
         w' = w ∧
         ∃ n, strconv.ParseInt lu = Some n ∧ LastUpdate w ≤ n ∧
              Forall (λ c, Changes.DateTime c ≤ n) (tbl_changes (durable w))).
Proof.
  split; [|split; [|split; [|split]]].
  - intros ->. reflexivity.
  - intros n Hp Hlt. rewrite (CheckChanges_parsed _ _ _ Hp).
    by rewrite (proj2 (Z.ltb_lt _ _) Hlt).
  - intros n Hp Hle Hex. rewrite (CheckChanges_parsed _ _ _ Hp).
    rewrite (proj2 (Z.ltb_ge _ _) Hle).
    assert ((0 <? gorm.Count (λ c, n <? Changes.DateTime c) (tbl_changes (durable w))) = true)
      as ->; [|done].
    apply Count_pos. eapply Exists_impl; [exact Hex|]. intros c Hc. by apply Z.ltb_lt.
  - intros n Hp Hle Hall. rewrite (CheckChanges_parsed _ _ _ Hp).
    rewrite (proj2 (Z.ltb_ge _ _) Hle).
    assert ((0 <? gorm.Count (λ c, n <? Changes.DateTime c) (tbl_changes (durable w))) = false)
      as ->; [|done].
    apply Count_zero. eapply Forall_impl; [exact Hall|]. intros c Hc. by apply Z.ltb_ge.
  - intros w' Hrun. destruct (decide (lu = "")) as [->|Hne]; [done|].
    destruct (strconv.ParseInt lu) as [n|] eqn:Hp.
    + rewrite (CheckChanges_parsed _ _ _ Hp) in Hrun.
      destruct (n <? LastUpdate w) eqn:Hlt; [done|].
      destruct (0 <? gorm.Count _ _) eqn:Hc; [done|].
      injection Hrun as <-. split; [done|]. exists n. split; [done|].
      split; [by apply Z.ltb_ge|].
      apply Count_zero in Hc. eapply Forall_impl; [exact Hc|]. intros c Hc'. by apply Z.ltb_ge.
    + unfold ConfigService_CheckChanges in Hrun. rewrite decide_False, Hp in Hrun by done. done.
Qed.
End ChangeFeed.

(** The spec's scenario: after a committed save, a poller at watermark 0
    sees a change and a poller at the current watermark sees none. *)
Lemma CheckChanges_after_save :
  let w := Scenario.world None false Scenario.empty_db in
  let saved := ConfigService_Save "endpoints" "new"
                 (Raw (Scenario.wireguard 0 "ep1" ["10.0.0.0/24"])) "" "admin" "host" w in
  saved.2 = Ok ["endpoints"] ∧
  (ConfigService_CheckChanges "0" saved.1).2 = Ok true ∧
  (ConfigService_CheckChanges (strconv.Itoa (LastUpdate saved.1)) saved.1).2 = Ok false.
Proof. vm_compute. done. Qed.

(** ** The setting registry *)

(** Closed decisions are replaced by their value. *)
Ltac eval_decide :=
  repeat match goal with
    | |- context [bool_decide ?P] =>
        let b := eval vm_compute in (bool_decide P) in
        match b with
        | true => change (bool_decide P) with true
        | false => change (bool_decide P) with false
        end
    end.

Section Setting.
Context `{Collaborators}.

Lemma rev_app_append (s t acc : string) :
  String.rev_app (s +:+ t) acc = String.rev_app t (String.rev_app s acc).
Proof. revert acc. induction s as [|c s IH]; intros acc; [done|]. simpl. apply IH. Qed.

Lemma HasSuffix_append_slash (s : string) : strings.HasSuffix (s +:+ "/") "/" = true.
Proof.
  unfold strings.HasSuffix, String.rev. rewrite rev_app_append. simpl.
  by destruct (String.rev_app s "").
Qed.

Lemma HasPrefix_slash_append (s : string) : strings.HasPrefix ("/" +:+ s) "/" = true.
Proof.
  unfold strings.HasPrefix. change ("/" +:+ s) with (String "/" s). simpl. by destruct s.
Qed.

Lemma HasPrefix_append (s t p : string) :
  strings.HasPrefix s p = true → strings.HasPrefix (s +:+ t) p = true.
Proof.
  unfold strings.HasPrefix. revert s. induction p as [|c p IH]; intros s.
  - by destruct (s +:+ t).
  - destruct s as [|c' s]; simpl; [done|]. destruct (ascii_dec c c'); [apply IH | done].
Qed.

Lemma normalizePath_slashes (value : string) :
  strings.HasPrefix (normalizePath value) "/" = true ∧
  strings.HasSuffix (normalizePath value) "/" = true.
Proof.
  unfold normalizePath.
  destruct (strings.HasPrefix value "/") eqn:Hp; simpl.
  - destruct (strings.HasSuffix value "/") eqn:Hs; simpl; [done|].
    split; [by apply HasPrefix_append | apply HasSuffix_append_slash].
  - destruct (strings.HasSuffix ("/" +:+ value) "/") eqn:Hs; simpl.
    + split; [apply HasPrefix_slash_append | done].
    + split; [apply HasPrefix_append, HasPrefix_slash_append | apply HasSuffix_append_slash].
Qed.

(** Update on a value that passed the first switch. *)
Lemma Update_typed (tx : option handle) (key value : string) (v : typed) (w : World) :
  typedValue key value = Ok v →
  SettingService_Update tx key value w =
    wrapM ("Update: failed to save setting for key '" +:+ key +:+ "': ")
          (saveSetting (default TheDB tx) key (valueStr v)) w.
Proof. intros Hv. unfold SettingService_Update. by rewrite (bind_lift_Ok _ _ _ _ Hv). Qed.

Lemma Update_rejected (tx : option handle) (key value : string) (e : error) (w : World) :
  typedValue key value = Fail e → SettingService_Update tx key value w = (w, Fail e).
Proof. intros Hv. unfold SettingService_Update. by rewrite (bind_lift_Fail _ _ _ _ Hv). Qed.

Lemma typedValue_int key value :
  key ∈ ["webPort"; "sessionMaxAge"; "trafficAge"; "subPort"; "subUpdates"] →
  typedValue key value = parseIntSetting key value.
Proof.
  intros Hk. unfold typedValue.
  repeat (apply elem_of_cons in Hk as [->|Hk]); [..|by apply elem_of_nil in Hk];
    by eval_decide.
Qed.

Lemma typedValue_bool key value :
  key ∈ ["subEncode"; "subShowInfo"] →
  typedValue key value = parseBoolSetting key value.
Proof.
  intros Hk. unfold typedValue.
  repeat (apply elem_of_cons in Hk as [->|Hk]); [..|by apply elem_of_nil in Hk];
    by eval_decide.
Qed.

Lemma typedValue_path key value :
  key ∈ ["webPath"; "subPath"] →
  typedValue key value = Ok (TString (normalizePath value)).
Proof.
  intros Hk. unfold typedValue.
  repeat (apply elem_of_cons in Hk as [->|Hk]); [..|by apply elem_of_nil in Hk];
    by eval_decide.
Qed.

Lemma typedValue_timeLocation value :
  typedValue "timeLocation" value =
    match LoadLocation value with
    | Some errConv => Fail (NewError ("invalid time location '" +:+ value +:+ "': "
                                      +:+ error_string errConv))
    | None => Ok (TString value)
    end.
Proof. unfold typedValue. by eval_decide. Qed.

Lemma typedValue_unknown key value :
  defaultValueMap !! key = None →
  typedValue key value = Fail (NewError ("unknown setting key: " +:+ key)).
Proof.
  intros Hnone. unfold typedValue.
  repeat match goal with
    | |- context [bool_decide ?P] =>
        destruct (bool_decide_reflect P) as [Hk|_];
        [ exfalso;
          first [ subst key
                | repeat (apply elem_of_cons in Hk as [->|Hk]); [..|by apply elem_of_nil in Hk] ];
          vm_compute in Hnone; discriminate Hnone
        | ]
    end.
  by rewrite Hnone.
Qed.
(** C8 (amended). Update validates and coerces the value by its key before
    the upsert: an integer-valued key is rejected when the value does not
    parse as an integer and is otherwise stored as the printed integer; a
    boolean-valued key likewise; a path-valued key is stored with a leading
    and a trailing slash; the locale-valued key timeLocation is rejected
    with an error when the value is not a known location (there is no
    fall-back to the default on a write); a key outside the registry is
    rejected. A rejected update leaves the world as it was. *)
Theorem Update_validates_by_key (tx : option handle) (key value : string) (w : World) :
  let upsert v :=
    wrapM ("Update: failed to save setting for key '" +:+ key +:+ "': ")
          (saveSetting (default TheDB tx) key v) w in
  (key ∈ ["webPort"; "sessionMaxAge"; "trafficAge"; "subPort"; "subUpdates"] →
   match strconv.Atoi value with
   | Some i => SettingService_Update tx key value w = upsert (strconv.Itoa i)
   | None => ∃ e, SettingService_Update tx key value w = (w, Fail e)
   end) ∧
  (key ∈ ["subEncode"; "subShowInfo"] →
   match strconv.ParseBool value with
   | Some b => SettingService_Update tx key value w = upsert (strconv.FormatBool b)
   | None => ∃ e, SettingService_Update tx key value w = (w, Fail e)
   end) ∧
  (key ∈ ["webPath"; "subPath"] →
   SettingService_Update tx key value w = upsert (normalizePath value) ∧
   strings.HasPrefix (normalizePath value) "/" = true ∧
   strings.HasSuffix (normalizePath value) "/" = true) ∧
  (key = "timeLocation" →
   match LoadLocation value with
   | Some errConv =>
       SettingService_Update tx key value w =
         (w, Fail (NewError ("invalid time location '" +:+ value +:+ "': "
                             +:+ error_string errConv)))
   | None => SettingService_Update tx key value w = upsert value
   end) ∧
  (defaultValueMap !! key = None →
   SettingService_Update tx key value w =
     (w, Fail (NewError ("unknown setting key: " +:+ key)))).
Proof.
  intros upsert. split; [|split; [|split; [|split]]].
  - intros Hk. pose proof (typedValue_int key value Hk) as Hv.
    unfold parseIntSetting in Hv. destruct (strconv.Atoi value) as [i|].
    + by rewrite (Update_typed _ _ _ _ _ Hv).
    + eexists. by rewrite (Update_rejected _ _ _ _ _ Hv).
  - intros Hk. pose proof (typedValue_bool key value Hk) as Hv.
    unfold parseBoolSetting in Hv. destruct (strconv.ParseBool value) as [b|].
    + by rewrite (Update_typed _ _ _ _ _ Hv).
    + eexists. by rewrite (Update_rejected _ _ _ _ _ Hv).
  - intros Hk. pose proof (typedValue_path key value Hk) as Hv.
    split; [by rewrite (Update_typed _ _ _ _ _ Hv) | apply normalizePath_slashes].
  - intros ->. pose proof (typedValue_timeLocation value) as Hv.
    destruct (LoadLocation value) as [errConv|].
    + by rewrite (Update_rejected _ _ _ _ _ Hv).
    + by rewrite (Update_typed _ _ _ _ _ Hv).
  - intros Hnone. by rewrite (Update_rejected _ _ _ _ _ (typedValue_unknown key value Hnone)).
Qed.

End Setting.

(** C8, as stated, fails on the locale-valued key: an invalid location is
    not replaced by the default, the update is rejected and nothing is
    written. *)
Lemma Update_timeLocation_no_fallback :
  let w := Scenario.world None false Scenario.empty_db in
  SettingService_Update (Some TheTx) "timeLocation" "Mars/Olympus" w =
    (w, Fail (Error "invalid time location 'Mars/Olympus': unknown time zone Mars/Olympus")).
Proof. reflexivity. Qed.


(** ** Link regeneration *)

Section Links.
Context `{Collaborators}.

Lemma index_local_link (tag uri : string) :
  index (local_link tag uri) "type" = "local" ∧
  index (local_link tag uri) "remark" = tag ∧
  index (local_link tag uri) "uri" = uri.
Proof. unfold index, local_link. repeat split; by simplify_map_eq. Qed.

Lemma strings_of_fmap (m : gmap string string) : Json.strings_of (JStr <$> m) = Some m.
Proof.
  unfold Json.strings_of. rewrite bool_decide_eq_true_2.
  - f_equal. apply map_eq; intros k. rewrite lookup_omap, lookup_fmap.
    by destruct (m !! k).
  - apply map_Forall_fmap. intros k v _. simpl. eauto.
Qed.

(** A descriptor list printed by the services reads back as itself. *)
Lemma Unmarshal_Marshal_string_maps (ms : list descriptor) :
  Json.Unmarshal_string_maps (Json.Marshal_string_maps ms) = Ok ms.
Proof.
  unfold Json.Marshal_string_maps, Json.Unmarshal_string_maps.
  rewrite mapM_fmap_Some; [done|]. intros m. simpl. apply strings_of_fmap.
Qed.

Lemma clientLinksOf_set_Links (ms : list descriptor) (client : Client.t) :
  clientLinksOf (Client.set_Links (Json.Marshal_string_maps ms) client) = Ok ms.
Proof.
  unfold clientLinksOf.
  replace (Client.Links _) with (Json.Marshal_string_maps ms) by done.
  pose proof (Unmarshal_Marshal_string_maps ms) as Hread.
  unfold Json.Marshal_string_maps in *. cbv beta iota. by rewrite Hread.
Qed.

(** The descriptor list that regeneration gives a client whose previous
    list is [previous]: the generated descriptors, inbound by inbound, then
    the previous descriptors that are not "local". *)
Definition regenerated (inbounds : list Inbound.t) (hostname : string) (client : Client.t)
           (previous : list descriptor) : list descriptor :=
  (inbounds ≫= generatedLinks client hostname)
  ++ filter (λ d, index d "type" ≠ "local") previous.

Lemma relinkClient_Ok inbounds hostname client previous :
  clientLinksOf client = Ok previous →
  relinkClient inbounds hostname client =
    Ok (Client.set_Links (Json.Marshal_string_maps (regenerated inbounds hostname client previous))
          client).
Proof. intros Hp. unfold relinkClient. by rewrite Hp. Qed.

Lemma filter_not_local_generated inbounds hostname client :
  filter (λ d, index d "type" ≠ "local") (inbounds ≫= generatedLinks client hostname) = [].
Proof.
  induction inbounds as [|inbound inbounds IH]; [done|].
  rewrite bind_cons, filter_app, IH, app_nil_r.
  unfold generatedLinks. induction (LinkGenerator _ _ _) as [|uri uris IHu]; [done|].
  rewrite fmap_cons, filter_cons_False; [done|].
  intros Hne. by destruct (index_local_link (Inbound.Tag inbound) uri) as [? _].
Qed.

Lemma filter_idemp {A} (P : A → Prop) `{∀ x, Decision (P x)} (l : list A) :
  filter P (filter P l) = filter P l.
Proof.
  induction l as [|x l IH]; [done|]. rewrite filter_cons.
  destruct (decide (P x)); [|done]. by rewrite filter_cons_True, IH.
Qed.

Lemma regenerated_again inbounds hostname client previous v :
  regenerated inbounds hostname (Client.set_Links v client)
              (regenerated inbounds hostname client previous)
  = regenerated inbounds hostname client previous.
Proof.
  unfold regenerated at 1 3. f_equal.
  unfold regenerated. rewrite filter_app, filter_not_local_generated. simpl.
  apply filter_idemp.
Qed.

Lemma mapO_Forall2 {A B} (f : A → outcome B) (l : list A) (k : list B) :
  Forall2 (λ x y, f x = Ok y) l k → mapO f l = Ok k.
Proof. induction 1 as [|x y l k Hxy _ IH]; [done|]. simpl. by rewrite Hxy, IH. Qed.

Lemma updateLinks_run tx clients inbounIds hostname w :
  updateLinksWithFixedInbounds tx clients inbounIds hostname w =
    (w, mapO (relinkClient
                (if decide (0 < length inbounIds)%nat
                 then inboundsWithLink inbounIds (view tx w) else [])
                hostname) clients).
Proof. unfold updateLinksWithFixedInbounds. by destruct (decide _). Qed.

(** C5. For every client, previous descriptor list and set of linked
    inbounds, link regeneration produces exactly the newly generated
    origin-"local" descriptors, each remarked with its inbound's tag, in
    inbound-iteration order, followed by every descriptor of the previous
    list whose origin is not "local", verbatim and in its original order;
    run again on its own result, with the same inbounds, it returns the
    identical list. *)
Theorem Regenerate_new_then_preserved (tx : handle) (clients : list Client.t)
    (previous : list (list descriptor)) (inbounIds : list N) (hostname : string) (w : World)
    (Hlinks : Forall2 (λ client links, clientLinksOf client = Ok links) clients previous) :
  let inbounds := if decide (0 < length inbounIds)%nat
                  then inboundsWithLink inbounIds (view tx w) else [] in
  let output client links :=
    (inbounds ≫= λ inbound,
        local_link (Inbound.Tag inbound)
          <$> LinkGenerator (Client.Config client) inbound hostname)
    ++ filter (λ d, index d "type" ≠ "local") links in
  let clients' :=
    zip_with (λ client links,
                Client.set_Links (Json.Marshal_string_maps (output client links)) client)
             clients previous in
  updateLinksWithFixedInbounds tx clients inbounIds hostname w = (w, Ok clients') ∧
  Forall2 (λ client' links', clientLinksOf client' = Ok links')
          clients' (zip_with output clients previous) ∧
  updateLinksWithFixedInbounds tx clients' inbounIds hostname w = (w, Ok clients').
Proof.
  intros inbounds output clients'.
  change output with (regenerated inbounds hostname) in *.
  rewrite !updateLinks_run. fold inbounds.
  split; [|split].
  - f_equal. apply mapO_Forall2. subst clients'.
    induction Hlinks as [|client links clients previous Hl _ IH]; [constructor|].
    simpl. constructor; [by apply relinkClient_Ok | apply IH].
  - subst clients'. induction Hlinks as [|client links clients previous Hl _ IH]; [constructor|].
    simpl. constructor; [apply clientLinksOf_set_Links | apply IH].
  - f_equal. apply mapO_Forall2. subst clients'.
    induction Hlinks as [|client links clients previous Hl _ IH]; [constructor|].
    simpl. constructor; [|apply IH].
    rewrite (relinkClient_Ok _ _ _ _ (clientLinksOf_set_Links _ _)).
    by rewrite regenerated_again.
Qed.
End Links.

(** Client "alice", linked to inbound 1, with one stale generated
    descriptor and two externally supplied ones; the second external one is
    remarked like the inbound. *)
Definition stale_link : descriptor := local_link "in1" "vless://old#in1".
Definition external_link : descriptor :=
  {[ "remark" := "backup"; "type" := "external"; "uri" := "https://example.org/a" ]}.
Definition external_in1 : descriptor :=
  {[ "remark" := "in1"; "type" := "external"; "uri" := "https://example.org/b" ]}.

Definition alice : Client.t :=
  Client.mk 1 true "alice" (Raw (JObj ∅)) (Raw (JArr [JNum 1]))
    (Json.Marshal_string_maps [stale_link; external_link; external_in1]) 0 0 0 0.

Definition in1 : Inbound.t :=
  Inbound.mk 1 "vless" "in1" 0 None RawNil (Raw (JObj {[ "listen_port" := JNum 443 ]})).

Definition alice_world (remove_error : option error) (is_running : bool)
  : @World (Scenario.collaborators remove_error) :=
  Scenario.world remove_error is_running
    (set_clients [alice] (set_inbounds [in1] Scenario.empty_db)).

Lemma Regenerate_new_then_preserved_witness :
  let w := alice_world None false in
  let links := [local_link "in1" "vless://host#in1"; external_link; external_in1] in
  let alice' := Client.set_Links (Json.Marshal_string_maps links) alice in
  updateLinksWithFixedInbounds TheTx [alice] [1%N] "host" w = (w, Ok [alice']) ∧
  Forall2 (λ client' links', clientLinksOf client' = Ok links') [alice'] [links] ∧
  updateLinksWithFixedInbounds TheTx [alice'] [1%N] "host" w = (w, Ok [alice']).
Proof.
  intros w links alice'.
  apply (Regenerate_new_then_preserved TheTx [alice]
           [[stale_link; external_link; external_in1]] [1%N] "host" w).
  repeat constructor.
Defined.

(** ** The store and the client sweep on inbound deletion *)

Section Store.
Context `{Collaborators}.

Lemma view_with_view (h : handle) (d : DB) (w : World) : view h (with_view h d w) = d.
Proof. by destruct h. Qed.

Lemma view_counted (h : handle) (w : World) : view h (counted w) = view h w.
Proof. by destruct h. Qed.

Lemma exec_Ok {A} (h : handle) (f : DB → outcome (A * DB)) (w : World) a d :
  f (view h w) = Ok (a, d) → exec h f w = (with_view h d (counted w), Ok a).
Proof. unfold exec. by intros ->. Qed.

Lemma exec_Fail {A} (h : handle) (f : DB → outcome (A * DB)) (w : World) e :
  f (view h w) = Fail e → exec h f w = (counted w, Fail e).
Proof. unfold exec. by intros ->. Qed.

(** A table after the row with the key of [x] was replaced by [x]. *)
Definition replaced {A} `{Hrow : gorm.Row A} (x : A) (rows : list A) : list A :=
  (λ r, if N.eqb (gorm.pk r) (gorm.pk x) then x else r) <$> rows.

Lemma replaced_pk {A} `{Hrow : gorm.Row A} (x : A) (rows : list A) :
  gorm.pk <$> replaced x rows = gorm.pk <$> rows.
Proof.
  unfold replaced. rewrite <- list_fmap_compose. apply list_fmap_ext.
  intros _ r _. simpl. destruct (N.eqb_spec (gorm.pk r) (gorm.pk x)); congruence.
Qed.

(** Saving a row under a key that the table holds replaces that row,
    when no unique index stands in the way. *)
Lemma Save_replaces {A} `{Hrow : gorm.Row A} (x : A) (rows : list A) :
  gorm.pk x ≠ 0%N → gorm.pk x ∈ gorm.pk <$> rows → gorm.violates_unique x rows = false →
  gorm.Save x rows = Ok (x, replaced x rows).
Proof.
  intros Hpk Hin Hu. unfold gorm.Save.
  rewrite (proj2 (N.eqb_neq _ _) Hpk), Hu.
  rewrite bool_decide_eq_true_2; [done|].
  apply list_elem_of_fmap in Hin as (r & Hr & Hin).
  apply Exists_exists. eauto.
Qed.

Lemma Client_never_violates (x : Client.t) rows : gorm.violates_unique x rows = false.
Proof. done. Qed.



Lemma Unmarshal_Marshal_var_string_maps (ms : list descriptor) :
  Json.Unmarshal_string_maps (Json.Marshal_var_string_maps ms) = Ok ms.
Proof. destruct ms; [done|]. apply Unmarshal_Marshal_string_maps. Qed.

Lemma clientLinksOf_set_var_Links (ms : list descriptor) (client : Client.t) :
  clientLinksOf (Client.set_Links (Json.Marshal_var_string_maps ms) client) = Ok ms.
Proof.
  unfold clientLinksOf.
  replace (Client.Links _) with (Json.Marshal_var_string_maps ms) by done.
  pose proof (Unmarshal_Marshal_var_string_maps ms) as Hread.
  destruct ms as [|m ms]; [done|].
  unfold Json.Marshal_var_string_maps, Json.Marshal_string_maps in *.
  cbv beta iota. by rewrite Hread.
Qed.

(** What unlinkClient returns, and what it keeps. *)
Lemma unlinkClient_Ok (id : N) (tag : string) (client : Client.t) ids links :
  clientInboundsOf client = Ok ids → clientLinksOf client = Ok links →
  ∃ client',
    unlinkClient id tag client = Ok client' ∧
    Client.Id client' = Client.Id client ∧
    Client.Config client' = Client.Config client ∧
    clientLinksOf client' = Ok (filter (λ d, index d "remark" ≠ tag) links).
Proof.
  intros Hids Hlinks. unfold unlinkClient. rewrite Hids. simpl.
  assert (clientLinksOf (Client.set_Inbounds
            (Json.Marshal_var_uints (filter (λ clientInbound, clientInbound ≠ id) ids)) client)
          = Ok links) as ->.
  { rewrite <- Hlinks. done. }
  simpl. eexists. split; [done|]. repeat split.
  apply clientLinksOf_set_var_Links.
Qed.

Lemma wrapM_Ok {A} (prefix : string) (m : M A) (w w1 : World) (a : A) :
  m w = (w1, Ok a) → wrapM prefix m w = (w1, Ok a).
Proof. unfold wrapM. by intros ->. Qed.

Lemma saveClient_replaces (client : Client.t) (d : DB) :
  Client.Id client ≠ 0%N → Client.Id client ∈ Client.Id <$> tbl_clients d →
  saveClient client d = Ok (client, set_clients (replaced client (tbl_clients d)) d).
Proof.
  intros Hpk Hin. unfold saveClient.
  by rewrite (Save_replaces (Hrow := gorm.Row_Client) client (tbl_clients d) Hpk Hin eq_refl).
Qed.

(** Saving a list of rows one after the other, each under its own key. *)
Lemma foldl_replaced {A} `{Hrow : gorm.Row A} (g : A → A) (sel rows : list A) :
  (∀ r, gorm.pk (g r) = gorm.pk r) →
  NoDup (gorm.pk <$> sel) →
  (∀ r c, r ∈ rows → c ∈ sel → gorm.pk r = gorm.pk c → r = c) →
  foldl (λ acc c', replaced c' acc) rows (g <$> sel) =
    (λ r, if bool_decide (gorm.pk r ∈ gorm.pk <$> sel) then g r else r) <$> rows.
Proof.
  intros Hg. revert rows. induction sel as [|c sel IH]; intros rows Hnd Hsame.
  - simpl. rewrite <- (list_fmap_id rows) at 1. apply list_fmap_ext. intros _ r _.
    done.
  - rewrite fmap_cons in Hnd. apply NoDup_cons in Hnd as [Hc Hnd].
    rewrite fmap_cons. simpl. rewrite IH; [|done|].
    + unfold replaced. rewrite <- list_fmap_compose. apply Forall_fmap_ext_1, Forall_forall.
      intros r Hr. simpl. rewrite Hg.
      destruct (N.eqb_spec (gorm.pk r) (gorm.pk c)) as [Heq|Hne].
      * assert (r = c) as -> by (apply Hsame; [done | left | done]).
        rewrite Hg, (bool_decide_eq_false_2 _ Hc).
        by rewrite bool_decide_eq_true_2 by left.
      * destruct (decide (gorm.pk r ∈ gorm.pk <$> sel)) as [Hin|Hin].
        -- rewrite (bool_decide_eq_true_2 _ Hin).
           by rewrite bool_decide_eq_true_2 by (by right).
        -- rewrite (bool_decide_eq_false_2 _ Hin).
           rewrite bool_decide_eq_false_2; [done|].
           intros [?|?]%elem_of_cons; done.
    + intros r c' Hr Hc' Hpk. unfold replaced in Hr.
      apply list_elem_of_fmap in Hr as (r0 & -> & Hr0).
      destruct (N.eqb_spec (gorm.pk r0) (gorm.pk (g c))) as [Heq|Hne].
      * exfalso. apply Hc. rewrite Hg in Hpk. rewrite Hpk.
        by apply list_elem_of_fmap_2.
      * apply Hsame; [done | by right | done].
Qed.

Lemma NoDup_fmap_eq {A B} (f : A → B) (l : list A) (x y : A) :
  NoDup (f <$> l) → x ∈ l → y ∈ l → f x = f y → x = y.
Proof.
  induction l as [|z l IH]; intros Hnd Hx Hy Hf; [by apply elem_of_nil in Hx|].
  rewrite fmap_cons in Hnd. apply NoDup_cons in Hnd as [Hz Hnd].
  apply elem_of_cons in Hx as [->|Hx]; apply elem_of_cons in Hy as [->|Hy]; [done|..].
  - exfalso. apply Hz. rewrite Hf. by apply list_elem_of_fmap_2.
  - exfalso. apply Hz. rewrite <- Hf. by apply list_elem_of_fmap_2.
  - by apply IH.
Qed.

Lemma NoDup_fmap_filter {A B} (f : A → B) (P : A → Prop) `{∀ x, Decision (P x)} (l : list A) :
  NoDup (f <$> l) → NoDup (f <$> filter P l).
Proof.
  induction l as [|z l IH]; [done|]. rewrite fmap_cons. intros [Hz Hnd]%NoDup_cons.
  rewrite filter_cons. destruct (decide (P z)); [|by apply IH].
  rewrite fmap_cons. apply NoDup_cons. split; [|by apply IH].
  intros (y & Hy & Hin)%list_elem_of_fmap. apply list_elem_of_filter in Hin as [_ Hin].
  apply Hz. rewrite Hy. by apply list_elem_of_fmap_2.
Qed.

(** The client's inbound column lists the inbound [id]. *)
Definition isLinked (id : N) (client : Client.t) : bool :=
  match json_each_has id (Client.Inbounds client) with
  | Ok true => true
  | _ => false
  end.

Lemma clientsLinkedTo_filter (id : N) (rows : list Client.t) :
  Forall (λ c, is_Ok (json_each_has id (Client.Inbounds c)) = true) rows →
  clientsLinkedTo id rows = Ok (filter (λ c, isLinked id c = true) rows).
Proof.
  induction 1 as [|c rows Hc _ IH]; [done|]. simpl. rewrite IH. rewrite filter_cons.
  unfold isLinked. destruct (json_each_has id (Client.Inbounds c)) as [[]| |]; done.
Qed.

Lemma unlinkClient_Id (id : N) (tag : string) (client client' : Client.t) :
  unlinkClient id tag client = Ok client' → Client.Id client' = Client.Id client.
Proof.
  unfold unlinkClient. intros (ids & _ & Hrest)%obind_Ok_inv.
  apply obind_Ok_inv in Hrest as (links & _ & [= <-]). done.
Qed.

(** unlinkClient as a total function: the client itself where it fails. *)
Definition unlinked (id : N) (tag : string) (client : Client.t) : Client.t :=
  match unlinkClient id tag client with
  | Ok client' => client'
  | _ => client
  end.

Lemma unlinked_Id id tag client : Client.Id (unlinked id tag client) = Client.Id client.
Proof.
  unfold unlinked. destruct (unlinkClient id tag client) eqn:Hu; [|done..].
  by eapply unlinkClient_Id.
Qed.

Lemma forM_cons {A} (f : A → M unit) (x : A) (l : list A) :
  forM_ f (x :: l) = bind (f x) (λ _, forM_ f l).
Proof. done. Qed.

Lemma unlink_loop (tx : handle) (id : N) (tag : string) (sel : list Client.t) (w : World) :
  Forall (λ c, Client.Id c ≠ 0%N ∧ Client.Id c ∈ Client.Id <$> tbl_clients (view tx w)
               ∧ is_Ok (unlinkClient id tag c) = true) sel →
  ∃ w',
    forM_ (λ client,
             client <- lift (unlinkClient id tag client) ;;
             _ <- wrapM ("failed to save client ID " +:+ fmt_d (Client.Id client)
                         +:+ " after inbound delete: ")
                    (exec tx (saveClient client)) ;;
             ret tt) sel w = (w', Ok tt) ∧
    view tx w' =
      set_clients (foldl (λ acc c', replaced c' acc) (tbl_clients (view tx w))
                         (unlinked id tag <$> sel))
                  (view tx w).
Proof.
  revert w. induction sel as [|c sel IH]; intros w Hsel.
  - exists w. split; [done|]. by destruct (view tx w).
  - apply Forall_cons in Hsel as [(Hpk & Hin & Hok) Hsel].
    destruct (unlinkClient id tag c) as [c'| |] eqn:Hu; [|done..].
    assert (unlinked id tag c = c') as Hc' by (unfold unlinked; by rewrite Hu).
    assert (Client.Id c' = Client.Id c) as Hid by (by eapply unlinkClient_Id).
    set (d1 := set_clients (replaced c' (tbl_clients (view tx w))) (view tx w)).
    destruct (IH (with_view tx d1 (counted w))) as (w' & Hrun & Hview).
    { rewrite view_with_view. subst d1. destruct (view tx w); simpl.
      eapply Forall_impl; [exact Hsel|]. intros x (? & ? & ?). repeat split; [done| |done].
      by rewrite (replaced_pk (Hrow := gorm.Row_Client)). }
    exists w'. split.
    + rewrite forM_cons.
      erewrite bind_Ok; [exact Hrun|]. cbv beta.
      rewrite (bind_lift_Ok _ _ _ _ Hu).
      erewrite bind_Ok; [reflexivity|].
      apply wrapM_Ok, exec_Ok, saveClient_replaces; by rewrite Hid.
    + rewrite Hview, view_with_view. rewrite fmap_cons, Hc'. subst d1.
      by destruct (view tx w).
Qed.

Lemma isLinked_fmap_filter (id : N) (rows : list Client.t) (r : Client.t) :
  NoDup (Client.Id <$> rows) → r ∈ rows →
  Client.Id r ∈ Client.Id <$> filter (λ c, isLinked id c = true) rows ↔ isLinked id r = true.
Proof.
  intros Hnd Hr. split.
  - intros (c & Hid & Hc)%list_elem_of_fmap. apply list_elem_of_filter in Hc as [Hl Hc].
    by rewrite (NoDup_fmap_eq Client.Id rows r c Hnd Hr Hc Hid).
  - intros Hl. apply list_elem_of_fmap_2. by apply list_elem_of_filter.
Qed.

(** C3 (amended). For every client whose link set contains the deleted
    inbound's id, the inbound-deletion client update removes from the
    client's descriptor list exactly the descriptors whose remark equals
    the deleted inbound's tag, whatever their origin; every other
    descriptor is kept, unchanged and in order. Clients that are not linked
    to the inbound are left as they are. *)
Theorem InboundDelete_filters_by_remark (tx : handle) (id : N) (tag : string) (w : World)
    (Hkeys : NoDup (Client.Id <$> tbl_clients (view tx w)))
    (Hrows : Forall (λ c, Client.Id c ≠ 0%N
                          ∧ is_Ok (json_each_has id (Client.Inbounds c)) = true)
                    (tbl_clients (view tx w)))
    (Hlinked : Forall (λ c, isLinked id c = true →
                            is_Ok (clientInboundsOf c) = true ∧ is_Ok (clientLinksOf c) = true)
                      (tbl_clients (view tx w))) :
  ∃ w',
    UpdateClientsOnInboundDelete tx id tag w = (w', Ok tt) ∧
    Forall2 (λ c c',
               if isLinked id c
               then Client.Id c' = Client.Id c ∧
                    ∃ links, clientLinksOf c = Ok links ∧
                             clientLinksOf c' = Ok (filter (λ d, index d "remark" ≠ tag) links)
               else c' = c)
            (tbl_clients (view tx w)) (tbl_clients (view tx w')).
Proof.
  set (rows := tbl_clients (view tx w)) in *.
  set (sel := filter (λ c, isLinked id c = true) rows).
  assert (Hunlink : ∀ c, c ∈ rows → isLinked id c = true →
            ∃ links c', clientLinksOf c = Ok links ∧ unlinkClient id tag c = Ok c' ∧
              Client.Id c' = Client.Id c ∧
              clientLinksOf c' = Ok (filter (λ d, index d "remark" ≠ tag) links)).
  { intros c Hc Hl. rewrite Forall_forall in Hlinked. destruct (Hlinked c Hc Hl) as [Hi Hk].
    destruct (clientInboundsOf c) as [ids| |] eqn:Hids; [|done..].
    destruct (clientLinksOf c) as [links| |] eqn:Hlinks; [|done..].
    destruct (unlinkClient_Ok id tag c ids links Hids Hlinks) as (c' & ? & ? & ? & ?).
    by exists links, c'. }
  destruct (unlink_loop tx id tag sel w) as (w' & Hrun & Hview).
  { apply Forall_forall. intros c [Hl Hc]%list_elem_of_filter.
    rewrite Forall_forall in Hrows. destruct (Hrows c Hc) as [Hpk _].
    repeat split; [done | by apply list_elem_of_fmap_2 |].
    destruct (Hunlink c Hc Hl) as (? & ? & _ & -> & _). done. }
  exists w'. split.
  - unfold UpdateClientsOnInboundDelete.
    erewrite bind_Ok; [exact Hrun|].
    erewrite bind_Ok; [reflexivity|]. unfold query, gets. fold rows.
    rewrite clientsLinkedTo_filter; [done|].
    eapply Forall_impl; [exact Hrows|]. by intros c [_ ?].
  - rewrite Hview. fold rows. replace (tbl_clients (set_clients _ _)) with
      (foldl (λ acc c', replaced c' acc) rows (unlinked id tag <$> sel))
      by (by destruct (view tx w)).
    rewrite (foldl_replaced (Hrow := gorm.Row_Client) (unlinked id tag) sel rows).
    + apply Forall2_fmap_r, Forall_Forall2_diag, Forall_forall. intros c Hc.
      destruct (isLinked id c) eqn:Hl; unfold compose; cbv beta;
        change (gorm.pk c) with (Client.Id c).
      * rewrite bool_decide_eq_true_2 by (by apply isLinked_fmap_filter).
        destruct (Hunlink c Hc Hl) as (links & c' & Hlinks & Hu & Hid & Hread).
        unfold unlinked. rewrite Hu. eauto.
      * rewrite bool_decide_eq_false_2; [done|].
        intros Hin. apply (isLinked_fmap_filter id rows c Hkeys Hc) in Hin. congruence.
    + apply unlinked_Id.
    + by apply (NoDup_fmap_filter Client.Id).
    + intros r c Hr [_ Hc]%list_elem_of_filter Hpk. by eapply (NoDup_fmap_eq Client.Id rows).
Qed.
End Store.

Lemma InboundDelete_filters_by_remark_witness :
  let w := alice_world None false in
  ∃ w',
    UpdateClientsOnInboundDelete TheTx 1 "in1" w = (w', Ok tt) ∧
    Forall2 (λ c c',
               if isLinked 1 c
               then Client.Id c' = Client.Id c ∧
                    ∃ links, clientLinksOf c = Ok links ∧
                             clientLinksOf c' = Ok (filter (λ d, index d "remark" ≠ "in1") links)
               else c' = c)
            [alice] (tbl_clients (txn w')).
Proof.
  intros w. apply (InboundDelete_filters_by_remark TheTx 1 "in1" w).
  - vm_compute. repeat constructor. by intros ?%elem_of_nil.
  - repeat constructor. done.
  - repeat constructor.
Defined.

(** C3, as stated, fails: an externally supplied descriptor that carries
    the inbound's tag as its remark is removed with the generated one. *)
Lemma InboundDelete_drops_external_with_same_remark :
  let w := alice_world None false in
  let w' := (UpdateClientsOnInboundDelete TheTx 1 "in1" w).1 in
  clientLinksOf alice = Ok [stale_link; external_link; external_in1] ∧
  index external_in1 "type" = "external" ∧
  (UpdateClientsOnInboundDelete TheTx 1 "in1" w).2 = Ok tt ∧
  (clientLinksOf <$> tbl_clients (txn w')) = [Ok [external_link]].
Proof. vm_compute. done. Qed.


(** ** Frame conditions *)

(** [keeps R m]: whatever [m] returns, the world it leaves is related by
    [R] to the world it started in. *)
Definition keeps `{Collaborators} (R : relation World) {A} (m : M A) : Prop :=
  ∀ w w' r, m w = (w', r) → R w w'.

Section Frame.
Context `{Collaborators} (R : relation World) `{!Reflexive R, !Transitive R}.

Lemma keeps_ret {A} (a : A) : keeps R (ret a).
Proof. intros w w' r [= <- _]. reflexivity. Qed.

Lemma keeps_fail {A} (e : error) : keeps R (fail (A := A) e).
Proof. intros w w' r [= <- _]. reflexivity. Qed.

Lemma keeps_panic {A} (p : string) : keeps R (panic (A := A) p).
Proof. intros w w' r [= <- _]. reflexivity. Qed.

Lemma keeps_lift {A} (o : outcome A) : keeps R (lift o).
Proof. intros w w' r [= <- _]. reflexivity. Qed.

Lemma keeps_gets {A} (f : World → A) : keeps R (gets f).
Proof. intros w w' r [= <- _]. reflexivity. Qed.

Lemma keeps_query {A} (h : handle) (f : DB → A) : keeps R (query h f).
Proof. intros w w' r [= <- _]. reflexivity. Qed.

Lemma keeps_bind {A B} (m : M A) (k : A → M B) :
  keeps R m → (∀ a, keeps R (k a)) → keeps R (bind m k).
Proof.
  intros Hm Hk w w' r. unfold bind. destruct (m w) as [w1 [a|e|p]] eqn:Hrun.
  - intros Hrest. transitivity w1; [by eapply Hm | by eapply Hk].
  - intros [= <- _]. by eapply Hm.
  - intros [= <- _]. by eapply Hm.
Qed.

Lemma keeps_wrapM {A} (prefix : string) (m : M A) : keeps R m → keeps R (wrapM prefix m).
Proof.
  intros Hm w w' r. unfold wrapM. destruct (m w) as [w1 o] eqn:Hrun.
  intros [= <- _]. by eapply Hm.
Qed.

Lemma keeps_try {A} (m : M A) : keeps R m → keeps R (try m).
Proof.
  intros Hm w w' r. unfold try. destruct (m w) as [w1 [a|e|p]] eqn:Hrun;
    intros [= <- _]; by eapply Hm.
Qed.

Lemma keeps_forM_ {A} (f : A → M unit) (l : list A) :
  (∀ x, keeps R (f x)) → keeps R (forM_ f l).
Proof.
  intros Hf. induction l as [|x l IH]; [apply keeps_ret|].
  apply keeps_bind; [apply Hf | intros _; apply IH].
Qed.

Lemma keeps_mapM_ {A B} (f : A → M B) (l : list A) :
  (∀ x, keeps R (f x)) → keeps R (mapM_ f l).
Proof.
  intros Hf. induction l as [|x l IH]; [apply keeps_ret|].
  simpl. apply keeps_bind; [apply Hf | intros y].
  apply keeps_bind; [apply IH | intros ys; apply keeps_ret].
Qed.

End Frame.

(** One step of a frame proof: the head combinator decides the rule; a
    conditional or a match is split by cases. *)
Ltac keeps_step :=
  lazymatch goal with
  | |- keeps _ (bind _ _) => apply keeps_bind; [typeclasses eauto .. | | intros ?]
  | |- keeps _ (ret _) => apply keeps_ret; typeclasses eauto
  | |- keeps _ (fail _) => apply keeps_fail; typeclasses eauto
  | |- keeps _ (panic _) => apply keeps_panic; typeclasses eauto
  | |- keeps _ (lift _) => apply keeps_lift; typeclasses eauto
  | |- keeps _ (gets _) => apply keeps_gets; typeclasses eauto
  | |- keeps _ (query _ _) => apply keeps_query; typeclasses eauto
  | |- keeps _ (wrapM _ _) => apply keeps_wrapM
  | |- keeps _ (try _) => apply keeps_try
  | |- keeps _ (forM_ _ _) => apply keeps_forM_; [typeclasses eauto .. | intros ?]
  | |- keeps _ (mapM_ _ _) => apply keeps_mapM_; [typeclasses eauto .. | intros ?]
  | |- keeps _ (if ?b then _ else _) => destruct b
  | |- keeps _ (match ?x with _ => _ end) => destruct x
  | |- keeps _ (let _ := _ in _) => cbv zeta
  end.

Create HintDb frame discriminated.

Ltac keeps_auto := repeat first [ solve [eauto 2 with frame] | keeps_step ].

Section ReadOnly.
Context `{Collaborators}.

Lemma fetchUsers_readonly db inboundType condition inbound :
  keeps eq (fetchUsers db inboundType condition inbound).
Proof. unfold fetchUsers, assert_RawMessage. keeps_auto. Qed.
Hint Resolve fetchUsers_readonly : frame.

Lemma addUsers_readonly db inboundJson inboundId inboundType :
  keeps eq (addUsers db inboundJson inboundId inboundType).
Proof. unfold addUsers. keeps_auto. Qed.
Hint Resolve addUsers_readonly : frame.

Lemma InboundService_GetAllConfig_readonly db : keeps eq (InboundService_GetAllConfig db).
Proof. unfold InboundService_GetAllConfig. keeps_auto. Qed.

Lemma OutboundService_GetAllConfig_readonly db : keeps eq (OutboundService_GetAllConfig db).
Proof. unfold OutboundService_GetAllConfig. keeps_auto. Qed.

Lemma EndpointService_GetAllConfig_readonly db : keeps eq (EndpointService_GetAllConfig db).
Proof. unfold EndpointService_GetAllConfig. keeps_auto. Qed.

Lemma getString_readonly db key : keeps eq (getString db key).
Proof. unfold getString. keeps_auto. Qed.
Hint Resolve InboundService_GetAllConfig_readonly OutboundService_GetAllConfig_readonly
  EndpointService_GetAllConfig_readonly getString_readonly : frame.

Lemma ConfigService_GetConfig_readonly data : keeps eq (ConfigService_GetConfig data).
Proof. unfold ConfigService_GetConfig, SettingService_GetConfig. keeps_auto. Qed.
End ReadOnly.

Section Assembler.
Context `{Collaborators}.

Lemma wrapM_Ok_inv {A} (prefix : string) (m : M A) (w w' : World) (a : A) :
  wrapM prefix m w = (w', Ok a) → m w = (w', Ok a).
Proof.
  unfold wrapM. destruct (m w) as [w1 [x|e|p]]; simpl; intros [= <- <-] || intros [=]; done.
Qed.

Lemma mapO_Ok_inv {A B} (f : A → outcome B) (l : list A) (ys : list B) :
  mapO f l = Ok ys → Forall2 (λ x y, f x = Ok y) l ys.
Proof.
  revert ys. induction l as [|x l IH]; intros ys; simpl.
  - intros [= <-]. constructor.
  - intros (y & Hy & Hrest)%obind_Ok_inv.
    apply obind_Ok_inv in Hrest as (ys' & Hys & [= <-]). constructor; [done | by apply IH].
Qed.

(** A loop of read-only steps: each element of the result is what the
    step returns for its row, in the world the loop started in. *)
Lemma mapM_Forall2 {A B} (f : A → M B) (l : list A) (w w' : World) (ys : list B) :
  (∀ x, keeps eq (f x)) →
  mapM_ f l w = (w', Ok ys) → Forall2 (λ x y, f x w = (w, Ok y)) l ys.
Proof.
  intros Hf. revert w' ys. induction l as [|x l IH]; intros w' ys; simpl.
  - unfold ret. intros Heq. injection Heq as _ <-. constructor.
  - intros (y & w1 & Hy & Hrest)%bind_Ok_inv.
    assert (w1 = w) as -> by exact (eq_sym (Hf x _ _ _ Hy)).
    apply bind_Ok_inv in Hrest as (ys' & w2 & Hys & Hret).
    unfold ret in Hret. injection Hret as _ <-.
    constructor; [done | by eapply IH].
Qed.

(** The serialized form of a stored inbound in the world [w]: its own
    document with the users the store lists for it. *)
Definition inboundConfig (w : World) (inbound : Inbound.t) (inboundJson : json) : Prop :=
  ∃ own,
    Inbound_MarshalJSON inbound = Ok own ∧
    addUsers TheDB own (Inbound.Id inbound) (Inbound.Typ inbound) w = (w, Ok inboundJson).

Lemma InboundService_GetAllConfig_contents (w w' : World) (inboundsJson : list json) :
  InboundService_GetAllConfig TheDB w = (w', Ok inboundsJson) →
  Forall2 (inboundConfig w) (preloadTls (durable w) <$> tbl_inbounds (durable w)) inboundsJson.
Proof.
  unfold InboundService_GetAllConfig.
  intros (rows & w1 & [= <- <-] & Hmap)%bind_Ok_inv.
  apply mapM_Forall2 in Hmap.
  - eapply Forall2_impl; [exact Hmap|]. intros inbound inboundJson Hrun. cbv beta in Hrun.
    apply bind_Ok_inv in Hrun as (own & w1 & [= <- Hown] & Hadd). by exists own.
  - intros inbound. pose proof addUsers_readonly. keeps_auto.
Qed.

(** The outbounds that GetAllConfig keeps: those whose serialization succeeds. *)
Definition serializable (outbound : Outbound.t) : Prop :=
  is_Ok (Outbound_MarshalJSON outbound) = true.

Lemma OutboundService_GetAllConfig_contents (db : handle) (w : World) :
  ∃ outboundsJson,
    OutboundService_GetAllConfig db w = (w, Ok outboundsJson) ∧
    Forall2 (λ outbound outboundJson, Outbound_MarshalJSON outbound = Ok outboundJson)
            (filter serializable (tbl_outbounds (view db w))) outboundsJson.
Proof.
  eexists. split; [reflexivity|].
  induction (tbl_outbounds (view db w)) as [|o l IH]; [constructor|].
  simpl. destruct (Outbound_MarshalJSON o) as [j|e|p] eqn:Ho.
  - rewrite filter_cons_True by (unfold serializable; by rewrite Ho). by constructor.
  - rewrite filter_cons_False by (unfold serializable; by rewrite Ho). exact IH.
  - rewrite filter_cons_False by (unfold serializable; by rewrite Ho). exact IH.
Qed.

(** The document of a raw-message map whose values are all JSON texts. *)
Lemma Marshal_raw_map_Raw (m : gmap string json) :
  Json.Marshal_raw_map (Raw <$> m) = Ok (JObj m).
Proof.
  unfold Json.Marshal_raw_map. rewrite bool_decide_eq_true_2.
  - f_equal. f_equal. rewrite <- map_fmap_compose. apply map_fmap_id.
  - intros k r. rewrite lookup_fmap. by intros (j & _ & ->)%fmap_Some.
Qed.

(** What MarshalJSON makes of an outbound whose options hold the object
    [rest] (or nothing, when [rest] is empty). *)
Lemma Outbound_MarshalJSON_rest (id : N) (typ tag : string) (rest : gmap string json) :
  Outbound_MarshalJSON
    (Outbound.mk id typ tag (if decide (size rest = 0%nat) then RawNil else Raw (JObj rest)))
  = Ok (JObj (rest ∪ <["tag" := JStr tag]> (<["type" := JStr typ]> ∅))).
Proof.
  unfold Outbound_MarshalJSON. cbn [Outbound.Options Outbound.Tag Outbound.Typ].
  destruct (decide (size rest = 0%nat)) as [Hempty|Hsome]; cbn [obind Json.Unmarshal_map].
  - apply map_size_empty_inv in Hempty as ->. rewrite (left_id_L ∅ (∪)).
    rewrite <- (Marshal_raw_map_Raw (<["tag" := JStr tag]> (<["type" := JStr typ]> ∅))).
    by rewrite !fmap_insert, fmap_empty.
  - rewrite <- Marshal_raw_map_Raw. by rewrite map_fmap_union, !fmap_insert, fmap_empty.
Qed.

(** The fields UnmarshalJSON reads from a payload it accepts. *)
Lemma Outbound_UnmarshalJSON_inv (data : RawMessage) (outbound : Outbound.t) :
  Outbound_UnmarshalJSON Outbound.zero data = Ok outbound →
  ∃ raw,
    Json.Unmarshal_map data = Ok raw ∧
    raw !! "tag" = Some (JStr (Outbound.Tag outbound)) ∧
    Outbound.Tag outbound ≠ "" ∧
    Outbound.Typ outbound = default "" (as_string (raw !! "type")) ∧
    Outbound.Id outbound = default 0%N (uint_of_float64 <$> as_float64 (raw !! "id")) ∧
    let rest := delete "tag" (delete "type" (delete "id" raw)) in
    Outbound.Options outbound = if decide (size rest = 0%nat) then RawNil else Raw (JObj rest).
Proof.
  unfold Outbound_UnmarshalJSON.
  intros (raw & Hraw%wrap_Ok_inv & (id & Hid & Hrest)%obind_Ok_inv)%obind_Ok_inv.
  exists raw. split; [done|].
  rewrite !lookup_delete_ne in Hrest by done.
  destruct (raw !! "tag") as [[| | |tagStr| |]|] eqn:Htag; try done.
  destruct (decide (tagStr = "")) as [|Hne]; [done|]. injection Hrest as <-.
  cbn [Outbound.Tag Outbound.Typ Outbound.Id Outbound.Options].
  split; [done|]. split; [done|]. split.
  { by destruct (raw !! "type") as [[]|]. }
  split; [|done].
  destruct (raw !! "id") as [[]|]; simpl in *; congruence.
Qed.

(** The options column of the row is what UnmarshalJSON makes of some
    payload: OutboundService.Save stores the outbound it decoded. *)
Definition decodedOptions (row : Outbound.t) : Prop :=
  ∃ data decoded,
    Outbound_UnmarshalJSON Outbound.zero data = Ok decoded ∧
    Outbound.Options row = Outbound.Options decoded.

Lemma decodedOptions_serializable (row : Outbound.t) : decodedOptions row → serializable row.
Proof.
  intros (data & decoded & Hdecode & Hoptions).
  destruct (Outbound_UnmarshalJSON_inv data decoded Hdecode) as (raw & _ & _ & _ & _ & _ & Hrest).
  cbv zeta in Hrest. rewrite <- Hoptions in Hrest.
  destruct row as [id typ tag options]. simpl in Hrest. subst options.
  unfold serializable. by rewrite Outbound_MarshalJSON_rest.
Qed.

(** The outbound rows of [w'] are rows of [w] or satisfy [P]. *)
Definition outboundsFrom (tx : handle) (P : Outbound.t → Prop) : relation World :=
  λ w w', ∀ r, r ∈ tbl_outbounds (view tx w') → (r ∈ tbl_outbounds (view tx w)) ∨ P r.

#[local] Instance outboundsFrom_refl tx P : Reflexive (outboundsFrom tx P).
Proof. intros w r Hr. by left. Qed.
#[local] Instance outboundsFrom_trans tx P : Transitive (outboundsFrom tx P).
Proof.
  intros w1 w2 w3 H12 H23 r Hr. destruct (H23 r Hr) as [Hr2|?]; [|by right]. by apply H12.
Qed.

Lemma outboundsFrom_core_call tx P (f : Core → Core * option error) :
  keeps (outboundsFrom tx P) (core_call f).
Proof.
  intros w w' r. unfold core_call. destruct (f (core w)) as [c e].
  intros [= <- _] o Ho. left. by destruct tx.
Qed.

Lemma outboundsFrom_saveOutbound tx (outbound : Outbound.t) :
  keeps (outboundsFrom tx (λ r, Outbound.Options r = Outbound.Options outbound))
        (exec tx (saveOutbound outbound)).
Proof.
  intros w w' r. unfold exec.
  destruct (saveOutbound outbound (view tx w)) as [[a d]|e|p] eqn:Hsave;
    intros [= <- _] o Ho; [|left; by rewrite view_counted in Ho..].
  rewrite view_with_view in Ho. revert Hsave. unfold saveOutbound, gorm.Save.
  set (x' := if N.eqb _ 0 then _ else _).
  assert (Hx' : Outbound.Options x' = Outbound.Options outbound)
    by (subst x'; by destruct (N.eqb _ 0)).
  destruct (gorm.violates_unique x' _); cbn [obind]; [done|].
  destruct (bool_decide _); cbn [obind fst snd]; intros [= _ <-]; simpl in Ho.
  - apply list_elem_of_fmap in Ho as (r0 & -> & Hr0).
    destruct (N.eqb (Outbound.Id r0) _); [right; exact Hx' | by left].
  - apply elem_of_app in Ho as [?|Ho]; [by left|].
    apply list_elem_of_singleton in Ho as ->. right. exact Hx'.
Qed.

Lemma outboundsFrom_delete tx P (p : Outbound.t → bool) :
  keeps (outboundsFrom tx P)
        (exec tx (λ d, Ok (tt, set_outbounds (gorm.Delete p (tbl_outbounds d)) d))).
Proof.
  intros w w' r. unfold exec. intros [= <- _] o Ho. left.
  rewrite view_with_view in Ho. simpl in Ho. unfold gorm.Delete in Ho.
  by apply list_elem_of_filter in Ho as [_ Ho].
Qed.

(** OutboundService.Save keeps the options of the stored outbounds
    decoded: a row it writes carries the options of the outbound it
    decoded. *)
Lemma OutboundService_Save_decodedOptions (tx : handle) (act : string) (data : RawMessage)
    (w w' : World) (r : outcome unit) :
  Forall decodedOptions (tbl_outbounds (view tx w)) →
  OutboundService_Save tx act data w = (w', r) →
  Forall decodedOptions (tbl_outbounds (view tx w')).
Proof.
  intros Hold. unfold OutboundService_Save.
  pose proof outboundsFrom_core_call. pose proof outboundsFrom_saveOutbound.
  pose proof outboundsFrom_delete.
  destruct (decide (act = "new" ∨ act = "edit")) as [Hact|Hact].
  - destruct (Outbound_UnmarshalJSON Outbound.zero data) as [outbound|e|p] eqn:Hdecode;
      cbn [wrap].
    2:{ rewrite (bind_lift_Fail _ _ _ _ eq_refl). by intros [= <- _]. }
    2:{ unfold bind, lift. by intros [= <- _]. }
    rewrite (bind_lift_Ok _ _ _ _ eq_refl). intros Hrun.
    assert (Hfrom : outboundsFrom tx (λ r, Outbound.Options r = Outbound.Options outbound) w w').
    { revert Hrun. generalize w w' r.
      change (keeps (outboundsFrom tx (λ r, Outbound.Options r = Outbound.Options outbound))
                (_ <- lift (check (negb (bool_decide (Outbound.Tag outbound = "")))
                              (NewError "outbound tag cannot be empty")) ;;
                 count <- query tx (λ d, gorm.Count
                            (λ r, bool_decide (Outbound.Tag r = Outbound.Tag outbound)
                                  && (if decide (act = "edit")
                                      then negb (bool_decide (Outbound.Id r = Outbound.Id outbound))
                                      else true))
                            (tbl_outbounds d)) ;;
                 _ <- lift (check (negb (0 <? count))
                              (NewError ("outbound tag '" +:+ Outbound.Tag outbound
                                         +:+ "' already exists"))) ;;
                 _ <- outboundCoreSync tx act outbound ;;
                 _ <- wrapM ("failed to save outbound '" +:+ Outbound.Tag outbound
                             +:+ "' to database: ")
                        (exec tx (saveOutbound outbound)) ;;
                 ret tt)).
      unfold outboundCoreSync. keeps_auto. }
    apply Forall_forall. intros o Ho. destruct (Hfrom o Ho) as [Hin|Hoptions].
    + by apply (proj1 (Forall_forall _ _) Hold).
    + by exists data, outbound.
  - intros Hrun.
    assert (Hfrom : outboundsFrom tx (λ _, False) w w').
    { revert Hrun. generalize w w' r.
      change (keeps (outboundsFrom tx (λ _, False))
                (if decide (act = "del") then
                   tag <- lift (wrap "failed to unmarshal tag for delete: "
                                  (Json.Unmarshal_string data)) ;;
                   _ <- lift (check (negb (bool_decide (tag = "")))
                                (NewError "tag for delete cannot be empty")) ;;
                   running <- gets (λ w, IsRunning (core w)) ;;
                   _ <- (if running then
                           _ <- core_call (RemoveOutbound tag) ;; ret tt
                         else ret tt) ;;
                   exec tx (λ d, Ok (tt, set_outbounds
                                           (gorm.Delete (λ r, bool_decide (Outbound.Tag r = tag))
                                                        (tbl_outbounds d)) d))
                 else fail (NewError ("unknown action: " +:+ act)))).
      keeps_auto. }
    apply Forall_forall. intros o Ho. destruct (Hfrom o Ho) as [Hin|[]].
    by apply (proj1 (Forall_forall _ _) Hold).
Qed.

(** C9 (amended). Assembling the configuration document reads the store
    and changes nothing. When it succeeds, its inbounds section holds, row
    by row and in the order of the table, the serialized form of every
    stored inbound (its own document with the users the store lists for
    it), its endpoints section the serialized form of every stored
    endpoint, and its outbounds section the serialized form of every stored
    outbound whose serialization succeeds, in the order of the table: an
    outbound that fails to serialize is skipped, whereas an inbound or an
    endpoint that fails to serialize makes the assembly fail. So the
    inbounds and endpoints arrays have one element per row, and the
    outbounds array has one element per serializable outbound: at most as
    many as there are outbound rows, and exactly one per row, each the
    serialized form of its row, when every outbound serializes; that is the
    case when the options of every row are what UnmarshalJSON made of a
    payload, as for the rows that OutboundService.Save writes. *)
Theorem GetConfig_array_sizes (data : string) (w w' : World) (cfg : SingBoxConfig)
    (Hrun : ConfigService_GetConfig data w = (w', Ok cfg)) :
  w' = w ∧
  Forall2 (inboundConfig w) (preloadTls (durable w) <$> tbl_inbounds (durable w))
          (cfg_Inbounds cfg) ∧
  length (cfg_Inbounds cfg) = length (tbl_inbounds (durable w)) ∧
  Forall2 (λ endpoint endpointJson, Endpoint_MarshalJSON endpoint = Ok endpointJson)
          (tbl_endpoints (durable w)) (cfg_Endpoints cfg) ∧
  length (cfg_Endpoints cfg) = length (tbl_endpoints (durable w)) ∧
  Forall2 (λ outbound outboundJson, Outbound_MarshalJSON outbound = Ok outboundJson)
          (filter serializable (tbl_outbounds (durable w))) (cfg_Outbounds cfg) ∧
  length (cfg_Outbounds cfg) = length (filter serializable (tbl_outbounds (durable w))) ∧
  (length (cfg_Outbounds cfg) ≤ length (tbl_outbounds (durable w)))%nat ∧
  (Forall serializable (tbl_outbounds (durable w)) →
   length (cfg_Outbounds cfg) = length (tbl_outbounds (durable w)) ∧
   Forall2 (λ outbound outboundJson, Outbound_MarshalJSON outbound = Ok outboundJson)
           (tbl_outbounds (durable w)) (cfg_Outbounds cfg)) ∧
  (Forall decodedOptions (tbl_outbounds (durable w)) →
   length (cfg_Outbounds cfg) = length (tbl_outbounds (durable w))).
Proof.
  assert (w' = w) as -> by (symmetry; by eapply ConfigService_GetConfig_readonly).
  split; [done|].
  unfold ConfigService_GetConfig in Hrun.
  apply bind_Ok_inv in Hrun as (data' & w1 & Hdata & Hrun).
  assert (w1 = w) as ->.
  { symmetry. revert Hdata. destruct (decide _); [|by intros [= <- _]].
    unfold SettingService_GetConfig. apply keeps_wrapM, getString_readonly. }
  apply bind_Ok_inv in Hrun as (base & w1 & [= <- _] & Hrun).
  apply bind_Ok_inv in Hrun as (inbounds & w1 & Hin%wrapM_Ok_inv & Hrun).
  assert (w1 = w) as -> by (symmetry; by eapply InboundService_GetAllConfig_readonly).
  apply bind_Ok_inv in Hrun as (outbounds & w1 & Hout%wrapM_Ok_inv & Hrun).
  assert (w1 = w) as -> by (symmetry; by eapply OutboundService_GetAllConfig_readonly).
  apply bind_Ok_inv in Hrun as (endpoints & w1 & Hep%wrapM_Ok_inv & Hrun).
  injection Hrun as _ <-. simpl.
  assert (Hins : Forall2 (inboundConfig w) (preloadTls (durable w) <$> tbl_inbounds (durable w))
                   inbounds) by (by eapply InboundService_GetAllConfig_contents).
  assert (Houts : Forall2 (λ outbound outboundJson,
                             Outbound_MarshalJSON outbound = Ok outboundJson)
                    (filter serializable (tbl_outbounds (durable w))) outbounds).
  { destruct (OutboundService_GetAllConfig_contents TheDB w) as (js & Hjs & Hall).
    rewrite Hjs in Hout. by injection Hout as <-. }
  assert (Hall : Forall2 (λ endpoint endpointJson, Endpoint_MarshalJSON endpoint = Ok endpointJson)
                   (tbl_endpoints (durable w)) endpoints).
  { unfold EndpointService_GetAllConfig in Hep.
    apply bind_Ok_inv in Hep as (rows & w2 & [= <- <-] & [= _ Hmap]).
    by apply mapO_Ok_inv. }
  assert (Hser : Forall serializable (tbl_outbounds (durable w)) →
                 filter serializable (tbl_outbounds (durable w)) = tbl_outbounds (durable w)).
  { intros Hser. clear -Hser. induction Hser as [|o l Ho _ IH]; [done|].
    by rewrite filter_cons_True, IH. }
  split; [done|]. split.
  { rewrite <- (Forall2_length _ _ _ Hins). apply length_fmap. }
  split; [done|]. split; [by rewrite (Forall2_length _ _ _ Hall)|].
  split; [done|]. split; [by rewrite (Forall2_length _ _ _ Houts)|]. split; [|split].
  - rewrite <- (Forall2_length _ _ _ Houts). apply length_filter.
  - intros Hall_ser. rewrite (Hser Hall_ser) in Houts.
    split; [by rewrite (Forall2_length _ _ _ Houts) | done].
  - intros Hdecoded. rewrite <- (Forall2_length _ _ _ Houts). f_equal. apply Hser.
    eapply Forall_impl; [exact Hdecoded|]. apply decodedOptions_serializable.
Qed.
End Assembler.

(** An outbound row whose options column does not hold a JSON text. *)
Definition broken_outbound : Outbound.t := Outbound.mk 1 "direct" "out1" RawInvalid.
Definition direct_outbound : Outbound.t := Outbound.mk 2 "direct" "out2" RawNil.

Definition assembled_world : @World (Scenario.collaborators None) :=
  Scenario.world None false
    (set_outbounds [broken_outbound; direct_outbound]
       (set_endpoints [shadowing_endpoint] (set_inbounds [in1] Scenario.empty_db))).

Lemma GetConfig_array_sizes_witness :
  ∃ cfg,
    ConfigService_GetConfig "{}" assembled_world = (assembled_world, Ok cfg) ∧
    length (cfg_Inbounds cfg) = 1%nat ∧
    length (cfg_Endpoints cfg) = 1%nat ∧
    Forall2 (λ outbound outboundJson, Outbound_MarshalJSON outbound = Ok outboundJson)
            [direct_outbound] (cfg_Outbounds cfg) ∧
    cfg_Outbounds cfg = [JObj {[ "tag" := JStr "out2"; "type" := JStr "direct" ]}].
Proof.
  eassert (Hrun : ConfigService_GetConfig "{}" assembled_world = (assembled_world, Ok _))
    by (vm_compute; reflexivity).
  eexists. split; [exact Hrun|].
  destruct (GetConfig_array_sizes "{}" assembled_world assembled_world _ Hrun)
    as (_ & _ & Hin & _ & Hep & Houts & _).
  split; [exact Hin|]. split; [exact Hep|]. split; [exact Houts|]. reflexivity.
Defined.

(** C9, as stated, fails on the outbounds section: with one stored
    outbound whose options do not parse, the assembled document has no
    outbound at all. *)
Lemma GetConfig_skips_unserializable_outbound :
  let w := Scenario.world None false (set_outbounds [broken_outbound] Scenario.empty_db) in
  length (tbl_outbounds (durable w)) = 1%nat ∧
  ∃ cfg, ConfigService_GetConfig "{}" w = (w, Ok cfg) ∧ length (cfg_Outbounds cfg) = 0%nat.
Proof. split; [done|]. eexists. split; [vm_compute; reflexivity | done]. Qed.

(** ** The inbound service on an edit *)

Section InboundEdit.
Context `{Collaborators}.

Lemma core_call_run (f : Core → Core * option error) (w : World) c e :
  f (core w) = (c, e) → core_call f w = (with_core c w, Ok e).
Proof. unfold core_call. by intros ->. Qed.

(** The inbound as InboundService.Save has it before the store write:
    decoded, with its TLS association resolved. *)
Definition resolvedTls (tx : handle) (w : World) (inbound : Inbound.t) : Inbound.t :=
  if (0 <? Inbound.TlsId inbound)%N
  then Inbound.set_Tls
         (head (gorm.Find (λ t, bool_decide (Tls.Id t = Inbound.TlsId inbound))
                          (tbl_tls (view tx w))))
         inbound
  else inbound.

Lemma bind_assoc {A B C} (m : M A) (k1 : A → M B) (k2 : B → M C) (w : World) :
  bind (bind m k1) k2 w = bind m (λ a, bind (k1 a) k2) w.
Proof. unfold bind. by destruct (m w) as [w1 [a|e|p]]. Qed.

Lemma gets_run {A} (f : World → A) (w : World) : gets f w = (w, Ok (f w)).
Proof. done. Qed.

Lemma query_run {A} (h : handle) (f : DB → A) (w : World) : query h f w = (w, Ok (f (view h w))).
Proof. done. Qed.

Lemma core_with_view (h : handle) (d : DB) (w : World) : core (with_view h d (counted w)) = core w.
Proof. by destruct h. Qed.

Lemma ret_run {A} (a : A) (w : World) : ret a w = (w, Ok a).
Proof. done. Qed.

Lemma fail_run {A} (e : error) (w : World) : fail (A := A) e w = (w, Fail e).
Proof. done. Qed.

Lemma lift_run {A} (o : outcome A) (w : World) : lift o w = (w, o).
Proof. done. Qed.

(** C4 (amended). When a live core is running and an inbound is saved with
    action "edit", a failure of the RemoveInbound call other than the
    distinguished not-found condition aborts the save: the error is
    returned, wrapped, and AddInbound is not called. Only the not-found
    condition (or no error) lets processing continue to the AddInbound
    step. *)
Theorem InboundEdit_removal_failure_aborts (tx : handle) (data : RawMessage)
    (initUserIds hostname : string) (w : World) (decoded inbound : Inbound.t)
    (id : N) (d' : DB) (c' : Core) (err : option error)
    (Hdecode : Inbound_UnmarshalJSON data = Ok decoded)
    (Hfill : FillOutJson (resolvedTls tx w decoded) hostname = Ok inbound)
    (Hsave : saveInbound inbound (view tx w) = Ok (id, d'))
    (Hrunning : IsRunning (core w) = true) :
  let oldTag := Pluck Inbound.Tag (λ r, bool_decide (Inbound.Id r = id)) "" (tbl_inbounds d') in
  let w1 := with_core c' (with_view tx d' (counted w)) in
  oldTag ≠ "" →
  RemoveInbound oldTag (core w) = (c', err) →
  (∀ e, err = Some e → is_ErrInvalid e = false →
        InboundService_Save tx "edit" data initUserIds hostname w =
          (w1, Fail (Error ("failed to remove old inbound '" +:+ oldTag +:+ "' from core: "
                            +:+ error_string e)))) ∧
  (err = None ∨ err = Some ErrInvalid →
   ∀ config config' w2 c'' added,
     Inbound_MarshalJSON (Inbound.set_Id id inbound) = Ok config →
     addUsers tx config id (Inbound.Typ inbound) w1 = (w2, Ok config') →
     AddInbound config' (core w2) = (c'', added) →
     InboundService_Save tx "edit" data initUserIds hostname w =
       (with_core c'' w2, match added with Some e => Fail e | None => Ok id end)).
Proof.
  intros oldTag w1 Htag Hremove.
  assert (Htls : (if (0 <? Inbound.TlsId decoded)%N then
                    found <- query tx (λ d, gorm.Find
                                (λ t, bool_decide (Tls.Id t = Inbound.TlsId decoded))
                                (tbl_tls d)) ;;
                    ret (Inbound.set_Tls (head found) decoded)
                  else ret decoded) w = (w, Ok (resolvedTls tx w decoded))).
  { unfold resolvedTls. by destruct (0 <? _)%N. }
  set (w0 := with_view tx d' (counted w)).
  assert (Hcall : core_call (RemoveInbound oldTag) w0 = (w1, Ok err)).
  { apply core_call_run. subst w0. by rewrite core_with_view. }
  unfold InboundService_Save. rewrite decide_True by auto.
  rewrite (bind_lift_Ok _ _ _ _ Hdecode).
  rewrite (bind_Ok _ _ _ _ _ Htls).
  rewrite (bind_lift_Ok _ _ _ _ Hfill).
  rewrite (bind_Ok _ _ _ _ _ (exec_Ok _ _ _ _ _ Hsave)). fold w0. cbv zeta.
  rewrite (bind_Ok _ _ _ _ _ (gets_run _ _)).
  replace (IsRunning (core w0)) with true by (subst w0; by rewrite core_with_view).
  rewrite !decide_True by done.
  rewrite ?bind_assoc.
  rewrite (bind_Ok _ _ _ _ _ (query_run _ _ _)).
  replace (view tx w0) with d' by (subst w0; by rewrite view_with_view).
  change (Inbound.Id (Inbound.set_Id id inbound)) with id. fold oldTag.
  change (Inbound.Typ (Inbound.set_Id id inbound)) with (Inbound.Typ inbound).
  rewrite (bool_decide_eq_false_2 _ Htag). cbn [negb].
  rewrite ?bind_assoc.
  rewrite (bind_Ok _ _ _ _ _ Hcall).
  split.
  - intros e -> He. rewrite He. rewrite ?bind_assoc.
    by rewrite (bind_Fail _ _ _ _ _ (fail_run _ _)).
  - intros Hsoft config config' w2 c'' added Hcfg Husers Hadd.
    assert (Hskip : match err with
                    | Some e => if is_ErrInvalid e then ret tt
                                else fail (Error ("failed to remove old inbound '" +:+ oldTag
                                                  +:+ "' from core: " +:+ error_string e))
                    | None => ret tt
                    end w1 = (w1, Ok tt)) by (by destruct Hsoft as [-> | ->]).
    rewrite ?bind_assoc. rewrite (bind_Ok _ _ _ _ _ Hskip).
    rewrite ?bind_assoc. rewrite (bind_lift_Ok _ _ _ _ Hcfg).
    rewrite ?bind_assoc. rewrite (bind_Ok _ _ _ _ _ Husers).
    rewrite ?bind_assoc. rewrite (bind_Ok _ _ _ _ _ (core_call_run _ _ _ _ Hadd)).
    destruct added; [by rewrite (bind_Fail _ _ _ _ _ (fail_run _ _))|].
    by rewrite (bind_Ok _ _ _ _ _ (ret_run _ _)).
Qed.
End InboundEdit.

(** The edit of inbound "in1" against a running core whose removals fail
    with an error that is not the not-found condition. *)
Definition edit_in1 : RawMessage :=
  Raw (JObj (list_to_map [ ("id", JNum 1); ("type", JStr "vless"); ("tag", JStr "in1");
                           ("listen_port", JNum 443) ])).

Lemma InboundEdit_removal_failure_aborts_witness :
  let w := alice_world (Some (Error "core busy")) true in
  ∃ w1,
    InboundService_Save TheTx "edit" edit_in1 "" "host" w =
      (w1, Fail (Error "failed to remove old inbound 'in1' from core: core busy")).
Proof.
  intros w. eexists.
  refine (proj1 (InboundEdit_removal_failure_aborts TheTx edit_in1 "" "host" w
                   in1 in1 1 (view TheTx w) (Scenario.mkCore true [Scenario.CRemove "inbound" "in1"])
                   (Some (Error "core busy")) eq_refl eq_refl eq_refl eq_refl _ eq_refl)
                (Error "core busy") eq_refl eq_refl).
  done.
Defined.

(** C4, as stated, fails: the removal error makes the save fail, and the
    core never receives the AddInbound call. *)
Lemma InboundEdit_removal_error_fails_save :
  let w := alice_world (Some (Error "core busy")) true in
  let r := InboundService_Save TheTx "edit" edit_in1 "" "host" w in
  r.2 = Fail (Error "failed to remove old inbound 'in1' from core: core busy") ∧
  Scenario.calls (core r.1) = [Scenario.CRemove "inbound" "in1"].
Proof. vm_compute. done. Qed.

(** ** The address-range check of the endpoint service *)

Section EndpointRanges.
Context `{Collaborators}.

(** A loop that cannot panic fails with the error of its first failing
    element. *)
Lemma forO_first_failure {A} (f : A → outcome unit) (l : list A) :
  (∀ x, x ∈ l → f x = Ok tt ∨ ∃ e, f x = Fail e) →
  (∃ x, x ∈ l ∧ f x ≠ Ok tt) →
  ∃ x e, x ∈ l ∧ f x = Fail e ∧ forO_ f l = Fail e.
Proof.
  induction l as [|y l IH]; intros Hcases (x & Hx & Hfail); [by apply elem_of_nil in Hx|].
  destruct (Hcases y) as [Hy | (e & Hy)]; [left| |].
  - destruct IH as (x' & e & Hx' & Hf & Hrun).
    + intros z Hz. apply Hcases. by right.
    + apply elem_of_cons in Hx as [->|Hx]; [done|]. eauto.
    + exists x', e. split; [by right|]. split; [done|]. simpl. by rewrite Hy.
  - exists y, e. split; [left|]. split; [done|]. simpl. by rewrite Hy.
Qed.

Lemma forO_all_Ok {A} (f : A → outcome unit) (l : list A) :
  (∀ x, x ∈ l → f x = Ok tt) → forO_ f l = Ok tt.
Proof.
  induction l as [|y l IH]; intros Hall; [done|].
  simpl. rewrite Hall by left. simpl. apply IH. intros x Hx. apply Hall. by right.
Qed.

(** The inner loops of the conflict check on one stored range. *)
Lemma scan_new_cases (tag existingIPStr : string) (newAllowedIPs : list string) :
  let scan := forO_ (λ newIP, if decide (newIP = existingIPStr)
                              then Fail (ipInUse newIP tag) else Ok tt) newAllowedIPs in
  ((existingIPStr ∈ newAllowedIPs) ∧ scan = Fail (ipInUse existingIPStr tag)) ∨
  ((existingIPStr ∉ newAllowedIPs) ∧ scan = Ok tt).
Proof.
  induction newAllowedIPs as [|newIP l IH]; simpl.
  - right. split; [apply not_elem_of_nil | done].
  - destruct (decide (newIP = existingIPStr)) as [->|Hne]; simpl.
    + left. split; [left | done].
    + destruct IH as [[Hin ->] | [Hout ->]].
      * left. split; [by right | done].
      * right. split; [|done]. by intros [?|?]%elem_of_cons.
Qed.

(** The conflict check against one stored endpoint: it passes, or fails
    naming that endpoint and a range the two have in common. *)
Lemma conflictWith_cases (newAllowedIPs : list string) (ep : Endpoint.t) :
  (conflictWith newAllowedIPs ep = Ok tt ∧
   (isWireguard (Endpoint.Typ ep) = true →
    ∀ existing, extractAllowedIPsFromOptions (Endpoint.Options ep) = Ok existing →
                ∀ ip, ip ∈ existing → ip ∉ newAllowedIPs)) ∨
  (∃ ip existing,
     conflictWith newAllowedIPs ep = Fail (ipInUse ip (Endpoint.Tag ep)) ∧
     isWireguard (Endpoint.Typ ep) = true ∧
     extractAllowedIPsFromOptions (Endpoint.Options ep) = Ok existing ∧
     ip ∈ existing ∧ ip ∈ newAllowedIPs).
Proof.
  unfold conflictWith. destruct (isWireguard (Endpoint.Typ ep)); simpl; [|left; split; done].
  destruct (extractAllowedIPsFromOptions (Endpoint.Options ep)) as [existing| |];
    [|left; split; done..].
  assert (Hscan :
    (forO_ (λ existingIPStr,
              forO_ (λ newIP, if decide (newIP = existingIPStr)
                              then Fail (ipInUse newIP (Endpoint.Tag ep)) else Ok tt)
                    newAllowedIPs) existing = Ok tt
     ∧ ∀ ip, ip ∈ existing → ip ∉ newAllowedIPs) ∨
    (∃ ip, forO_ (λ existingIPStr,
              forO_ (λ newIP, if decide (newIP = existingIPStr)
                              then Fail (ipInUse newIP (Endpoint.Tag ep)) else Ok tt)
                    newAllowedIPs) existing = Fail (ipInUse ip (Endpoint.Tag ep))
           ∧ ip ∈ existing ∧ ip ∈ newAllowedIPs)).
  { induction existing as [|ip0 existing IH]; simpl.
    - left. split; [done|]. by intros ip ?%elem_of_nil.
    - destruct (scan_new_cases (Endpoint.Tag ep) ip0 newAllowedIPs) as [[Hin ->] | [Hout ->]];
        simpl.
      + right. exists ip0. split; [done|]. split; [left | done].
      + destruct IH as [[-> Hnone] | (ip & -> & Hi & Hn)].
        * left. split; [done|]. intros ip [->|?]%elem_of_cons; auto.
        * right. exists ip. split; [done|]. split; [by right | done]. }
  destruct Hscan as [[-> Hnone] | (ip & -> & Hi & Hn)].
  - left. split; [done|]. intros _ existing' [= <-]. exact Hnone.
  - right. exists ip, existing. done.
Qed.

(** The stored endpoints the candidate is compared with. *)
Definition otherEndpoints (tx : handle) (act : string) (endpoint : Endpoint.t) (w : World)
  : list Endpoint.t :=
  if decide (act = "edit")
  then gorm.Find (λ r, negb (bool_decide (Endpoint.Id r = Endpoint.Id endpoint)))
                 (tbl_endpoints (view tx w))
  else tbl_endpoints (view tx w).

(** A stored endpoint [ep] that shares the range string [ip] with the
    candidate. *)
Definition sharesRange (newAllowedIPs : list string) (ep : Endpoint.t) (ip : string) : Prop :=
  isWireguard (Endpoint.Typ ep) = true ∧
  ip ∈ newAllowedIPs ∧
  ∃ existing, extractAllowedIPsFromOptions (Endpoint.Options ep) = Ok existing ∧ ip ∈ existing.

Lemma checkAllowedIPs_conflict (tx : handle) (act : string) (endpoint ep : Endpoint.t)
    (w : World) (newAllowedIPs : list string) (ip : string) :
  isWireguard (Endpoint.Typ endpoint) = true →
  extractAllowedIPsFromOptions (Endpoint.Options endpoint) = Ok newAllowedIPs →
  ep ∈ otherEndpoints tx act endpoint w →
  sharesRange newAllowedIPs ep ip →
  ∃ ep' ip',
    ep' ∈ otherEndpoints tx act endpoint w ∧ sharesRange newAllowedIPs ep' ip' ∧
    checkAllowedIPs tx act endpoint w = (w, Fail (ipInUse ip' (Endpoint.Tag ep'))).
Proof.
  intros Hwg Hnew Hep (Hwg' & Hip & existing & Hex & Hip').
  destruct (forO_first_failure (conflictWith newAllowedIPs) (otherEndpoints tx act endpoint w))
    as (ep' & e & Hep' & Hfail & Hrun).
  - intros x _. destruct (conflictWith_cases newAllowedIPs x) as [[-> _] | (i & l & -> & _)]; eauto.
  - exists ep. split; [done|]. intros Hok.
    destruct (conflictWith_cases newAllowedIPs ep) as [[_ Hnone] | (i & l & Hf & _)].
    + by apply (Hnone Hwg' existing Hex ip).
    + congruence.
  - destruct (conflictWith_cases newAllowedIPs ep') as [[Hok _] | (ip' & l & Hf & Hw & Hl & Hi & Hn)];
      [congruence|].
    exists ep', ip'. split; [done|]. split; [by repeat split; eauto|].
    unfold checkAllowedIPs. rewrite Hwg, Hnew. simpl.
    unfold bind at 1. simpl.
    rewrite decide_False by (destruct newAllowedIPs; [by apply elem_of_nil in Hip | done]).
    unfold bind, query, gets, lift. fold (otherEndpoints tx act endpoint w).
    rewrite Hrun. congruence.
Qed.

Lemma bind_lift {A B} (o : outcome A) (k : A → M B) (w : World) :
  bind (lift o) k w =
    match o with
    | Ok a => k a w
    | Fail e => (w, Fail e)
    | Panic p => (w, Panic p)
    end.
Proof. by destruct o. Qed.

Lemma check_cases (b : bool) (e : error) :
  (b = true ∧ check b e = Ok tt) ∨ (b = false ∧ check b e = Fail e).
Proof. destruct b; auto. Qed.

Lemma validatePeers_no_panic (i : nat) (peers : list json) (p : string) :
  validatePeers i peers ≠ Panic p.
Proof.
  revert i. induction peers as [|peer peers IH]; intros i; [done|].
  simpl. destruct peer; try done.
  repeat match goal with
    | |- obind (check ?b ?e) _ ≠ _ =>
        destruct (check_cases b e) as [[_ ->] | [_ ->]]; [simpl | done]
    end.
  apply IH.
Qed.

Lemma endpoint_validation_no_panic (endpoint : Endpoint.t) (p : string) :
  endpointOptions endpoint ≠ Panic p ∧
  ∀ opts, wireguardValidation endpoint opts ≠ Panic p.
Proof.
  split.
  - unfold endpointOptions. destruct (isWireguard _); [|done].
    destruct (Endpoint.Options endpoint); [done|done|].
    by destruct (Json.Unmarshal_map _).
  - intros opts. unfold wireguardValidation. destruct (isWireguard _); [|done].
    destruct (as_array _) as [[|peer rest]|]; [done| |done]. apply validatePeers_no_panic.
Qed.

(** The tag check reads the store and either passes or fails. *)
Lemma checkDuplicateTag_cases (tx : handle) (act : string) (endpoint : Endpoint.t) (w : World) :
  checkDuplicateTag tx act endpoint w = (w, Ok tt) ∨
  ∃ e, checkDuplicateTag tx act endpoint w = (w, Fail e).
Proof.
  unfold checkDuplicateTag.
  destruct (decide (act = "new")); [|destruct (decide (act = "edit"))].
  - rewrite (bind_Ok _ _ _ _ _ (query_run _ _ _)).
    destruct (0 <? _); [right|left]; eauto.
  - rewrite (bind_Ok _ _ _ _ _ (query_run _ _ _)).
    destruct (gorm.First _ _) as [existing|err|p] eqn:Hfound.
    + destruct (decide (Endpoint.Tag existing ≠ Endpoint.Tag endpoint)); [|by left].
      rewrite (bind_Ok _ _ _ _ _ (query_run _ _ _)).
      destruct (0 <? _); [right|left]; eauto.
    + right; eauto.
    + unfold gorm.First in Hfound. by destruct (gorm.Find _ _).
  - by left.
Qed.

(** The checks of Save that precede the range check all pass. *)
Definition passesEarlierChecks (tx : handle) (act : string) (endpoint : Endpoint.t)
           (w : World) : Prop :=
  Endpoint.Tag endpoint ≠ "" ∧
  (∃ endpointOpts, endpointOptions endpoint = Ok endpointOpts ∧
                   wireguardValidation endpoint endpointOpts = Ok tt) ∧
  checkDuplicateTag tx act endpoint w = (w, Ok tt).

(** C1 (amended). For every endpoint save with action "new" or "edit" of
    a wireguard/warp candidate, if one of the candidate's advertised
    address ranges is equal, as a string, to an advertised range of some
    other stored wireguard/warp endpoint (the record itself excluded on
    edit) whose options can be read, the save returns a hard validation
    failure and performs no store write (the world is unchanged); when the
    candidate passes the checks that come first (required fields, peer
    shape, tag uniqueness), the failure names the tag of a stored endpoint
    that shares a range with the candidate. Ranges are compared for
    equality only. *)
Theorem EndpointSave_equal_range_rejected (tx : handle) (act : string) (data : RawMessage)
    (w : World) (endpoint ep : Endpoint.t) (newAllowedIPs : list string) (ip : string)
    (Hact : act = "new" ∨ act = "edit")
    (Hdecode : Endpoint_UnmarshalJSON Endpoint.zero data = Ok endpoint)
    (Hwg : isWireguard (Endpoint.Typ endpoint) = true)
    (Hnew : extractAllowedIPsFromOptions (Endpoint.Options endpoint) = Ok newAllowedIPs)
    (Hep : ep ∈ otherEndpoints tx act endpoint w)
    (Hshare : sharesRange newAllowedIPs ep ip) :
  ∃ e,
    EndpointService_Save tx act data w = (w, Fail e) ∧
    (passesEarlierChecks tx act endpoint w →
     ∃ ep' ip',
       ep' ∈ otherEndpoints tx act endpoint w ∧ sharesRange newAllowedIPs ep' ip' ∧
       e = ipInUse ip' (Endpoint.Tag ep')).
Proof.
  destruct (checkAllowedIPs_conflict tx act endpoint ep w newAllowedIPs ip Hwg Hnew Hep Hshare)
    as (ep' & ip' & Hep' & Hshare' & Hranges).
  unfold EndpointService_Save. rewrite decide_True by done.
  rewrite (bind_lift_Ok _ _ _ _ Hdecode).
  assert (Htype : Endpoint.Typ endpoint ≠ "").
  { intros Hempty. rewrite Hempty in Hwg. done. }
  rewrite bind_lift, (bool_decide_eq_false_2 _ Htype). cbn [negb check].
  rewrite bind_lift.
  destruct (decide (Endpoint.Tag endpoint = "")) as [Htag|Htag].
  { rewrite (bool_decide_eq_true_2 _ Htag). cbn [negb check].
    eexists. split; [done|]. by intros [? _]. }
  rewrite (bool_decide_eq_false_2 _ Htag). cbn [negb check].
  rewrite bind_lift.
  destruct (endpoint_validation_no_panic endpoint "") as [_ _].
  destruct (endpointOptions endpoint) as [opts|e|p] eqn:Hopts.
  2:{ eexists. split; [done|]. intros (_ & (? & ? & _) & _). congruence. }
  2:{ by destruct (proj1 (endpoint_validation_no_panic endpoint p)). }
  rewrite bind_lift.
  destruct (wireguardValidation endpoint opts) as [[]|e|p] eqn:Hvalid.
  2:{ eexists. split; [done|]. intros (_ & (opts' & Ho & Hv) & _). congruence. }
  2:{ by destruct (proj2 (endpoint_validation_no_panic endpoint p) opts). }
  destruct (checkDuplicateTag_cases tx act endpoint w) as [Hdup | (e & Hdup)].
  - rewrite (bind_Ok _ _ _ _ _ Hdup). rewrite (bind_Fail _ _ _ _ _ Hranges).
    eexists. split; [done|]. intros _. eauto.
  - rewrite (bind_Fail _ _ _ _ _ Hdup). eexists. split; [done|].
    intros (_ & _ & Hpass). congruence.
Qed.
End EndpointRanges.

(** The stored endpoint of the spec's scenario. *)
Definition ep1 : Endpoint.t :=
  Endpoint.mk 1 "wireguard" "ep1"
    (Raw (JObj {[ "peers" := Scenario.peers ["10.0.0.0/24"] ]})) (Raw JNull).

(** C1, as stated, fails on its own example: with "ep1" storing
    10.0.0.0/24, a new endpoint that declares 10.0.0.5/32 is saved. *)
Lemma EndpointSave_overlapping_range_accepted :
  let w := Scenario.world None false (set_endpoints [ep1] Scenario.empty_db) in
  let r := EndpointService_Save TheTx "new" (Raw (Scenario.wireguard 0 "ep2" ["10.0.0.5/32"])) w in
  extractAllowedIPsFromOptions (Endpoint.Options ep1) = Ok ["10.0.0.0/24"] ∧
  r.2 = Ok tt ∧
  Endpoint.Tag <$> tbl_endpoints (txn r.1) = ["ep1"; "ep2"] ∧
  (extractAllowedIPsFromOptions ∘ Endpoint.Options) <$> tbl_endpoints (txn r.1)
    = [Ok ["10.0.0.0/24"]; Ok ["10.0.0.5/32"]] ∧
  writes r.1 = 1%nat.
Proof. vm_compute. done. Qed.

Lemma EndpointSave_equal_range_rejected_witness :
  let w := Scenario.world None false (set_endpoints [ep1] Scenario.empty_db) in
  ∃ e,
    EndpointService_Save TheTx "new" (Raw (Scenario.wireguard 0 "ep3" ["10.0.0.0/24"])) w
      = (w, Fail e).
Proof.
  intros w.
  destruct (EndpointSave_equal_range_rejected TheTx "new"
              (Raw (Scenario.wireguard 0 "ep3" ["10.0.0.0/24"])) w
              (Endpoint.mk 0 "wireguard" "ep3" (Endpoint.Options ep1) (Raw JNull))
              ep1 ["10.0.0.0/24"] "10.0.0.0/24")
    as (e & Hrun & _).
  - by left.
  - reflexivity.
  - reflexivity.
  - reflexivity.
  - vm_compute. left.
  - split; [done|]. split; [left|]. exists ["10.0.0.0/24"]. split; [reflexivity | left].
  - by exists e.
Defined.

(** ** Unique keys and unique tags *)

Section UniqueRows.
Context {A : Type} `{Hrow : gorm.Row A} (tag : A → string).
Hypothesis unique_col_tag : ∀ r, gorm.unique_col r = Some (tag r).

(** A table whose primary keys and whose tags are pairwise distinct. *)
Definition wellKeyed (rows : list A) : Prop :=
  NoDup (gorm.pk <$> rows) ∧ NoDup (tag <$> rows).

Lemma next_pk_fresh (rows : list A) : gorm.next_pk rows ∉ gorm.pk <$> rows.
Proof.
  assert (Hmax : ∀ i, i ∈ gorm.pk <$> rows → (i < gorm.next_pk rows)%N).
  { unfold gorm.next_pk. induction rows as [|r rows IH]; intros i Hi.
    - by apply elem_of_nil in Hi.
    - rewrite fmap_cons in Hi |- *. cbn [foldr].
      apply elem_of_cons in Hi as [->|Hi].
      + pose proof (N.le_max_l (gorm.pk r) (foldr N.max 0%N (gorm.pk <$> rows))). lia.
      + specialize (IH i Hi).
        pose proof (N.le_max_r (gorm.pk r) (foldr N.max 0%N (gorm.pk <$> rows))). lia. }
  intros Hin. specialize (Hmax _ Hin). lia.
Qed.

Lemma violates_unique_false (x : A) (rows : list A) :
  gorm.violates_unique x rows = false →
  ∀ r, r ∈ rows → gorm.pk r ≠ gorm.pk x → tag r ≠ tag x.
Proof.
  unfold gorm.violates_unique. rewrite unique_col_tag.
  intros Hv r Hr Hpk Htag. apply bool_decide_eq_false in Hv. apply Hv.
  apply Exists_exists. exists r. split; [done|]. split; [done|].
  by rewrite unique_col_tag, Htag.
Qed.

Lemma replaced_wellKeyed (x : A) (rows : list A) :
  wellKeyed rows →
  (∀ r, r ∈ rows → gorm.pk r ≠ gorm.pk x → tag r ≠ tag x) →
  wellKeyed (replaced x rows).
Proof.
  intros [Hpk Htag] Hother. split; [by rewrite replaced_pk|].
  unfold replaced. induction rows as [|r rows IH]; [constructor|].
  rewrite !fmap_cons in *. apply NoDup_cons in Hpk as [Hr Hpk].
  apply NoDup_cons in Htag as [Hrt Htag]. apply NoDup_cons. split.
  - intros (r' & Heq & Hin)%list_elem_of_fmap.
    apply list_elem_of_fmap in Hin as (r0 & -> & Hr0).
    destruct (N.eqb_spec (gorm.pk r) (gorm.pk x)) as [Hrx|Hrx];
      destruct (N.eqb_spec (gorm.pk r0) (gorm.pk x)) as [Hr0x|Hr0x].
    + apply Hr. rewrite Hrx, <- Hr0x. by apply list_elem_of_fmap_2.
    + apply (Hother r0); [by right | done | done].
    + apply (Hother r); [left | done | done].
    + apply Hrt. rewrite Heq. by apply list_elem_of_fmap_2.
  - apply IH; [done | done |]. intros r' Hr'. apply Hother. by right.
Qed.

Lemma Save_wellKeyed (x x' : A) (rows rows' : list A) :
  wellKeyed rows → gorm.Save x rows = Ok (x', rows') → wellKeyed rows'.
Proof.
  intros Hwk. unfold gorm.Save.
  set (y := if (gorm.pk x =? 0)%N then gorm.set_pk (gorm.next_pk rows) x else x).
  destruct (gorm.violates_unique y rows) eqn:Hv; [done|].
  pose proof (violates_unique_false y rows Hv) as Hother.
  case_bool_decide as Hex; intros [= _ <-].
  - by apply replaced_wellKeyed.
  - destruct Hwk as [Hpk Htag]. unfold wellKeyed. rewrite !fmap_app. simpl.
    assert (Hfresh : ∀ r, r ∈ rows → gorm.pk r ≠ gorm.pk y).
    { intros r Hr Heq. apply Hex, Exists_exists. eauto. }
    split; apply NoDup_app; (split; [done|]); (split; [|apply NoDup_singleton]).
    + intros i (r & -> & Hr)%list_elem_of_fmap [= Heq]%list_elem_of_singleton.
      by apply (Hfresh r).
    + intros t (r & -> & Hr)%list_elem_of_fmap Heq%list_elem_of_singleton.
      by apply (Hother r Hr (Hfresh r Hr)).
Qed.

Lemma Delete_wellKeyed (p : A → bool) (rows : list A) :
  wellKeyed rows → wellKeyed (gorm.Delete p rows).
Proof.
  intros [Hpk Htag]. unfold gorm.Delete. split; by apply NoDup_fmap_filter.
Qed.

End UniqueRows.

Section UniqueTags.
Context `{Collaborators}.

(** The store invariant: in each of the three classes the keys and the
    tags are pairwise distinct. *)
Definition uniqueTags (d : DB) : Prop :=
  wellKeyed Inbound.Tag (tbl_inbounds d) ∧
  wellKeyed Outbound.Tag (tbl_outbounds d) ∧
  wellKeyed Endpoint.Tag (tbl_endpoints d).

Definition keepsUnique (tx : handle) : relation World :=
  λ w w', uniqueTags (view tx w) → uniqueTags (view tx w').

#[local] Instance keepsUnique_refl tx : Reflexive (keepsUnique tx).
Proof. intros w Hu. exact Hu. Qed.
#[local] Instance keepsUnique_trans tx : Transitive (keepsUnique tx).
Proof. intros w1 w2 w3 H12 H23 Hu. apply H23, H12, Hu. Qed.

Lemma keeps_readonly (R : relation World) `{!Reflexive R} {A} (m : M A) :
  keeps eq m → keeps R m.
Proof. intros Hm w w' r Hrun. by rewrite (Hm w w' r Hrun). Qed.

Lemma keepsUnique_core_call tx (f : Core → Core * option error) :
  keeps (keepsUnique tx) (core_call f).
Proof.
  intros w w' r. unfold core_call. destruct (f (core w)) as [c e].
  intros [= <- _] Hu. by destruct tx.
Qed.

Lemma keepsUnique_exec tx {A} (f : DB → outcome (A * DB)) :
  (∀ d a d', f d = Ok (a, d') → uniqueTags d → uniqueTags d') →
  keeps (keepsUnique tx) (exec tx f).
Proof.
  intros Hf w w' r. unfold exec.
  destruct (f (view tx w)) as [[a d]|e|p] eqn:Hrun; intros [= <- _].
  - unfold keepsUnique. rewrite view_with_view. eauto.
  - unfold keepsUnique. by rewrite view_counted.
  - unfold keepsUnique. by rewrite view_counted.
Qed.

Lemma saveEndpoint_unique endpoint d a d' :
  saveEndpoint endpoint d = Ok (a, d') → uniqueTags d → uniqueTags d'.
Proof.
  unfold saveEndpoint. intros ([x rows] & Hsave & [= _ <-])%obind_Ok_inv (Hi & Ho & He).
  split; [done|]. split; [done|].
  by apply (Save_wellKeyed (Hrow := gorm.Row_Endpoint) Endpoint.Tag
              (λ _, eq_refl) _ _ _ _ He Hsave).
Qed.

Lemma saveOutbound_unique outbound d a d' :
  saveOutbound outbound d = Ok (a, d') → uniqueTags d → uniqueTags d'.
Proof.
  unfold saveOutbound. intros ([x rows] & Hsave & [= _ <-])%obind_Ok_inv (Hi & Ho & He).
  split; [done|]. split; [|done].
  by apply (Save_wellKeyed (Hrow := gorm.Row_Outbound) Outbound.Tag
              (λ _, eq_refl) _ _ _ _ Ho Hsave).
Qed.

Lemma saveInbound_unique inbound d a d' :
  saveInbound inbound d = Ok (a, d') → uniqueTags d → uniqueTags d'.
Proof.
  unfold saveInbound. intros ([x rows] & Hsave & [= _ <-])%obind_Ok_inv (Hi & Ho & He).
  split; [|done].
  by apply (Save_wellKeyed (Hrow := gorm.Row_Inbound) Inbound.Tag
              (λ _, eq_refl) _ _ _ _ Hi Hsave).
Qed.

Lemma keepsUnique_saveEndpoint tx endpoint : keeps (keepsUnique tx) (exec tx (saveEndpoint endpoint)).
Proof. apply keepsUnique_exec, saveEndpoint_unique. Qed.

Lemma keepsUnique_saveOutbound tx outbound : keeps (keepsUnique tx) (exec tx (saveOutbound outbound)).
Proof. apply keepsUnique_exec, saveOutbound_unique. Qed.

Lemma keepsUnique_saveInbound tx inbound : keeps (keepsUnique tx) (exec tx (saveInbound inbound)).
Proof. apply keepsUnique_exec, saveInbound_unique. Qed.

Lemma keepsUnique_deleteEndpoint tx (p : Endpoint.t → bool) :
  keeps (keepsUnique tx)
    (exec tx (λ d, Ok (tt, set_endpoints (gorm.Delete p (tbl_endpoints d)) d))).
Proof.
  apply keepsUnique_exec. intros d [] d' [= <-] (Hi & Ho & He).
  split; [done|]. split; [done|]. by apply (Delete_wellKeyed (Hrow := gorm.Row_Endpoint)).
Qed.

Lemma keepsUnique_deleteOutbound tx (p : Outbound.t → bool) :
  keeps (keepsUnique tx)
    (exec tx (λ d, Ok (tt, set_outbounds (gorm.Delete p (tbl_outbounds d)) d))).
Proof.
  apply keepsUnique_exec. intros d [] d' [= <-] (Hi & Ho & He).
  split; [done|]. split; [|done]. by apply (Delete_wellKeyed (Hrow := gorm.Row_Outbound)).
Qed.

Lemma keepsUnique_deleteInbound tx (p : Inbound.t → bool) :
  keeps (keepsUnique tx)
    (exec tx (λ d, Ok (tt, set_inbounds (gorm.Delete p (tbl_inbounds d)) d))).
Proof.
  apply keepsUnique_exec. intros d [] d' [= <-] (Hi & Ho & He).
  split; [|done]. by apply (Delete_wellKeyed (Hrow := gorm.Row_Inbound)).
Qed.

Lemma keepsUnique_addUsers tx db inboundJson inboundId inboundType :
  keeps (keepsUnique tx) (addUsers db inboundJson inboundId inboundType).
Proof. apply keeps_readonly; [typeclasses eauto | apply addUsers_readonly]. Qed.

Lemma keepsUnique_initUsers tx db inboundJson clientIds inboundType :
  keeps (keepsUnique tx) (initUsers db inboundJson clientIds inboundType).
Proof.
  apply keeps_readonly; [typeclasses eauto|]. unfold initUsers.
  pose proof fetchUsers_readonly. keeps_auto.
Qed.

Hint Resolve keepsUnique_core_call keepsUnique_saveEndpoint keepsUnique_saveOutbound
  keepsUnique_saveInbound keepsUnique_deleteEndpoint keepsUnique_deleteOutbound
  keepsUnique_deleteInbound keepsUnique_addUsers keepsUnique_initUsers : frame.

Lemma EndpointService_Save_unique tx act data :
  keeps (keepsUnique tx) (EndpointService_Save tx act data).
Proof.
  unfold EndpointService_Save, checkDuplicateTag, checkAllowedIPs, warpHandling,
    endpointCoreSync.
  keeps_auto. 
Qed.

Lemma OutboundService_Save_unique tx act data :
  keeps (keepsUnique tx) (OutboundService_Save tx act data).
Proof. unfold OutboundService_Save, outboundCoreSync. keeps_auto. Qed.

Lemma InboundService_Save_unique tx act data initUserIds hostname :
  keeps (keepsUnique tx) (InboundService_Save tx act data initUserIds hostname).
Proof. unfold InboundService_Save. keeps_auto. Qed.

(** A request to one of the three services. *)
Inductive request : Type :=
| SaveEndpoint (act : string) (data : RawMessage)
| SaveOutbound (act : string) (data : RawMessage)
| SaveInbound (act : string) (data : RawMessage) (initUserIds hostname : string).

(** The world after a request was served through the handle [tx],
    whatever it returned. *)
Definition serve (tx : handle) (w : World) (r : request) : World :=
  match r with
  | SaveEndpoint act data => (EndpointService_Save tx act data w).1
  | SaveOutbound act data => (OutboundService_Save tx act data w).1
  | SaveInbound act data initUserIds hostname =>
      (InboundService_Save tx act data initUserIds hostname w).1
  end.

Definition serveAll (tx : handle) (rs : list request) (w : World) : World :=
  foldl (serve tx) w rs.

Lemma serve_unique tx w r : uniqueTags (view tx w) → uniqueTags (view tx (serve tx w r)).
Proof.
  intros Hu. destruct r as [act data|act data|act data initUserIds hostname]; simpl.
  - destruct (EndpointService_Save tx act data w) as [w' o] eqn:Hrun.
    by apply (EndpointService_Save_unique _ _ _ _ _ _ Hrun).
  - destruct (OutboundService_Save tx act data w) as [w' o] eqn:Hrun.
    by apply (OutboundService_Save_unique _ _ _ _ _ _ Hrun).
  - destruct (InboundService_Save tx act data initUserIds hostname w) as [w' o] eqn:Hrun.
    by apply (InboundService_Save_unique _ _ _ _ _ _ _ _ Hrun).
Qed.

Lemma serveAll_unique tx rs w : uniqueTags (view tx w) → uniqueTags (view tx (serveAll tx rs w)).
Proof.
  unfold serveAll. revert w. induction rs as [|r rs IH]; intros w Hu; [done|].
  simpl. by apply IH, serve_unique.
Qed.

(** A stored row holds the tag of the candidate [x]; on an edit, a row
    other than the one with the key of [x]. *)
Definition tagTaken {A} `{Hrow : gorm.Row A} (tag : A → string) (act : string) (x : A)
           (rows : list A) : Prop :=
  ∃ r, (r ∈ rows) ∧ tag r = tag x ∧ (act = "edit" → gorm.pk r ≠ gorm.pk x).

Definition outboundTagExists (tag : string) : error :=
  NewError ("outbound tag '" +:+ tag +:+ "' already exists").

Lemma outbound_count_taken (act : string) (outbound : Outbound.t) (rows : list Outbound.t) :
  (0 <? gorm.Count
          (λ r, bool_decide (Outbound.Tag r = Outbound.Tag outbound)
                && (if decide (act = "edit")
                    then negb (bool_decide (Outbound.Id r = Outbound.Id outbound))
                    else true)) rows) = true
  ↔ tagTaken (Hrow := gorm.Row_Outbound) Outbound.Tag act outbound rows.
Proof.
  rewrite Count_pos, Exists_exists. unfold tagTaken. simpl.
  split; intros (r & Hr & Hp); exists r; (split; [done|]).
  - apply andb_prop in Hp as [Ht Hi]. apply bool_decide_eq_true in Ht. split; [done|].
    intros He. rewrite decide_True in Hi by done.
    apply negb_true_iff, bool_decide_eq_false in Hi. done.
  - destruct Hp as [Ht Hi]. apply andb_true_intro. split; [by apply bool_decide_eq_true|].
    destruct (decide (act = "edit")); [|done].
    apply negb_true_iff, bool_decide_eq_false. auto.
Qed.

Lemma Outbound_UnmarshalJSON_tag (data : RawMessage) (outbound : Outbound.t) :
  Outbound_UnmarshalJSON Outbound.zero data = Ok outbound → Outbound.Tag outbound ≠ "".
Proof.
  unfold Outbound_UnmarshalJSON.
  intros (raw & _ & (id & _ & Hrest)%obind_Ok_inv)%obind_Ok_inv.
  repeat case_match; simplify_eq; done.
Qed.

(** The tag check of OutboundService.Save. *)
Lemma OutboundService_Save_taken tx act data w outbound :
  act = "new" ∨ act = "edit" →
  Outbound_UnmarshalJSON Outbound.zero data = Ok outbound →
  tagTaken (Hrow := gorm.Row_Outbound) Outbound.Tag act outbound (tbl_outbounds (view tx w)) →
  OutboundService_Save tx act data w = (w, Fail (outboundTagExists (Outbound.Tag outbound))).
Proof.
  intros Hact Hdecode Htaken. unfold OutboundService_Save. rewrite decide_True by done.
  rewrite bind_lift, Hdecode. cbn [wrap].
  rewrite bind_lift, (bool_decide_eq_false_2 _ (Outbound_UnmarshalJSON_tag _ _ Hdecode)).
  cbn [negb check].
  rewrite (bind_Ok _ _ _ _ _ (query_run _ _ _)).
  by rewrite (proj2 (outbound_count_taken act outbound _) Htaken).
Qed.

Lemma outboundCoreSync_error tx act outbound w w' e :
  outboundCoreSync tx act outbound w = (w', Fail e) → ∃ msg, e = Error (String "f" msg).
Proof.
  unfold outboundCoreSync, bind, gets, lift, query, core_call, fail, ret, wrap.
  intros Hrun. repeat (case_match; simplify_eq/=); eauto.
Qed.

Lemma OutboundService_Save_exists_inv tx act data w w' outbound :
  act = "new" ∨ act = "edit" →
  Outbound_UnmarshalJSON Outbound.zero data = Ok outbound →
  OutboundService_Save tx act data w = (w', Fail (outboundTagExists (Outbound.Tag outbound))) →
  tagTaken (Hrow := gorm.Row_Outbound) Outbound.Tag act outbound (tbl_outbounds (view tx w)).
Proof.
  intros Hact Hdecode. unfold OutboundService_Save. rewrite decide_True by done.
  rewrite bind_lift, Hdecode. cbn [wrap].
  rewrite bind_lift, (bool_decide_eq_false_2 _ (Outbound_UnmarshalJSON_tag _ _ Hdecode)).
  cbn [negb check].
  rewrite (bind_Ok _ _ _ _ _ (query_run _ _ _)).
  destruct (0 <? _) eqn:Hcount; [intros _; by apply outbound_count_taken|].
  cbn [negb check]. rewrite bind_lift.
  unfold bind at 1.
  destruct (outboundCoreSync tx act outbound w) as [w1 [[]|e|p]] eqn:Hsync.
  - unfold bind, wrapM, exec, wrap, ret, outboundTagExists, NewError.
    intros Hrun. repeat (case_match; simplify_eq/=).
  - apply outboundCoreSync_error in Hsync as [msg ->]. by intros [= _ ?].
  - done.
Qed.

Lemma First_Ok_inv {A} (p : A → bool) (rows : list A) (r : A) :
  gorm.First p rows = Ok r → (r ∈ rows) ∧ p r = true.
Proof.
  unfold gorm.First, gorm.Find. destruct (filter _ rows) as [|r' l] eqn:Hf; [done|].
  intros [= ->].
  assert (Hin : r ∈ filter (λ r, p r = true) rows) by (rewrite Hf; left).
  apply list_elem_of_filter in Hin as [Hp Hin]. done.
Qed.

Lemma First_Fail_inv {A} (p : A → bool) (rows : list A) (e : error) :
  gorm.First p rows = Fail e → e = ErrRecordNotFound ∧ ∀ r, r ∈ rows → p r = false.
Proof.
  unfold gorm.First, gorm.Find. destruct (filter _ rows) as [|r' l] eqn:Hf; [|done].
  intros [= <-]. split; [done|]. intros r Hr. apply not_true_iff_false. intros Hp.
  assert (Hin : r ∈ filter (λ r, p r = true) rows) by by apply list_elem_of_filter.
  rewrite Hf in Hin. by apply elem_of_nil in Hin.
Qed.

(** The tag check of EndpointService.Save: what it answers when the tag
    is taken, and that it answers "already exists" only then. *)
Lemma checkDuplicateTag_taken tx act endpoint w :
  act = "new" ∨ act = "edit" →
  wellKeyed Endpoint.Tag (tbl_endpoints (view tx w)) →
  tagTaken (Hrow := gorm.Row_Endpoint) Endpoint.Tag act endpoint (tbl_endpoints (view tx w)) →
  ∃ e, checkDuplicateTag tx act endpoint w = (w, Fail e) ∧
       ((act = "edit" → Endpoint.Id endpoint ∈ Endpoint.Id <$> tbl_endpoints (view tx w)) →
        e = tagExists (Endpoint.Tag endpoint)).
Proof.
  intros Hact [_ Htags] (r & Hr & Htag & Hother). unfold checkDuplicateTag.
  destruct Hact as [-> | ->].
  - rewrite decide_True by done. rewrite (bind_Ok _ _ _ _ _ (query_run _ _ _)).
    rewrite (proj2 (Count_pos _ _)); [by eexists|].
    apply Exists_exists. exists r. split; [done|]. by apply bool_decide_eq_true.
  - rewrite decide_False, decide_True by done.
    rewrite (bind_Ok _ _ _ _ _ (query_run _ _ _)). simpl in Hother.
    destruct (gorm.First _ _) as [existing|err|p] eqn:Hfound.
    + apply First_Ok_inv in Hfound as [Hex Hid]. apply bool_decide_eq_true in Hid.
      destruct (decide (Endpoint.Tag existing ≠ Endpoint.Tag endpoint)) as [Hne|Heq].
      * rewrite (bind_Ok _ _ _ _ _ (query_run _ _ _)).
        rewrite (proj2 (Count_pos _ _)); [by eexists|].
        apply Exists_exists. exists r. split; [done|]. apply andb_true_intro.
        split; [by apply bool_decide_eq_true|].
        apply negb_true_iff, bool_decide_eq_false. auto.
      * exfalso. apply dec_stable in Heq. apply (Hother eq_refl). rewrite <- Hid.
        f_equal. apply (NoDup_fmap_eq Endpoint.Tag _ _ _ Htags Hr Hex). congruence.
    + eexists. split; [done|]. intros Hstored. exfalso.
      apply First_Fail_inv in Hfound as [_ Hnone].
      destruct (proj1 (list_elem_of_fmap _ _ _) (Hstored eq_refl)) as (r' & Hid & Hr').
      specialize (Hnone r' Hr'). apply bool_decide_eq_false in Hnone. congruence.
    + unfold gorm.First in Hfound. by destruct (gorm.Find _ _).
Qed.

Lemma checkDuplicateTag_exists_inv tx act endpoint w w' :
  act = "new" ∨ act = "edit" →
  checkDuplicateTag tx act endpoint w = (w', Fail (tagExists (Endpoint.Tag endpoint))) →
  tagTaken (Hrow := gorm.Row_Endpoint) Endpoint.Tag act endpoint (tbl_endpoints (view tx w)).
Proof.
  intros Hact. unfold checkDuplicateTag, tagTaken. destruct Hact as [-> | ->].
  - rewrite decide_True by done. rewrite (bind_Ok _ _ _ _ _ (query_run _ _ _)).
    destruct (0 <? _) eqn:Hcount; [intros _|done].
    apply Count_pos, Exists_exists in Hcount as (r & Hr & Hp).
    exists r. split; [done|]. split; [by apply bool_decide_eq_true in Hp | done].
  - rewrite decide_False, decide_True by done.
    rewrite (bind_Ok _ _ _ _ _ (query_run _ _ _)).
    destruct (gorm.First _ _) as [existing|err|p] eqn:Hfound; [| |done].
    + destruct (decide _); [|done]. rewrite (bind_Ok _ _ _ _ _ (query_run _ _ _)).
      destruct (0 <? _) eqn:Hcount; [intros _|done].
      apply Count_pos, Exists_exists in Hcount as (r & Hr & Hp).
      apply andb_prop in Hp as [Ht Hi]. apply bool_decide_eq_true in Ht.
      apply negb_true_iff, bool_decide_eq_false in Hi.
      exists r. split; [done|]. split; [done|]. by intros _.
    + intros Hrun. by simplify_eq/=.
Qed.

Lemma checkDuplicateTag_free tx act endpoint w :
  act = "new" ∨ act = "edit" →
  (act = "edit" → Endpoint.Id endpoint ∈ Endpoint.Id <$> tbl_endpoints (view tx w)) →
  ¬ tagTaken (Hrow := gorm.Row_Endpoint) Endpoint.Tag act endpoint (tbl_endpoints (view tx w)) →
  checkDuplicateTag tx act endpoint w = (w, Ok tt).
Proof.
  intros Hact Hstored Hfree.
  destruct (checkDuplicateTag_cases tx act endpoint w) as [Hok | (e & Hfail)]; [done|].
  exfalso. apply Hfree. apply (checkDuplicateTag_exists_inv tx act endpoint w w Hact).
  rewrite Hfail. do 2 f_equal. revert Hfail. unfold checkDuplicateTag.
  destruct Hact as [-> | ->].
  - rewrite decide_True by done. rewrite (bind_Ok _ _ _ _ _ (query_run _ _ _)).
    destruct (0 <? _); [by intros [= <-] | done].
  - rewrite decide_False, decide_True by done.
    rewrite (bind_Ok _ _ _ _ _ (query_run _ _ _)).
    destruct (gorm.First _ _) as [existing|err|p] eqn:Hfound; [| |done].
    + destruct (decide _); [|done]. rewrite (bind_Ok _ _ _ _ _ (query_run _ _ _)).
      destruct (0 <? _); [by intros [= <-] | done].
    + exfalso. apply First_Fail_inv in Hfound as [_ Hnone].
      destruct (proj1 (list_elem_of_fmap _ _ _) (Hstored eq_refl)) as (r' & Hid & Hr').
      specialize (Hnone r' Hr'). apply bool_decide_eq_false in Hnone. congruence.
Qed.

Lemma EndpointService_Save_taken tx act data w endpoint :
  act = "new" ∨ act = "edit" →
  Endpoint_UnmarshalJSON Endpoint.zero data = Ok endpoint →
  wellKeyed Endpoint.Tag (tbl_endpoints (view tx w)) →
  tagTaken (Hrow := gorm.Row_Endpoint) Endpoint.Tag act endpoint (tbl_endpoints (view tx w)) →
  ∃ e, EndpointService_Save tx act data w = (w, Fail e).
Proof.
  intros Hact Hdecode Hkeys Htaken.
  destruct (checkDuplicateTag_taken tx act endpoint w Hact Hkeys Htaken) as (e & Hdup & _).
  unfold EndpointService_Save. rewrite decide_True by done.
  rewrite (bind_lift_Ok _ _ _ _ Hdecode).
  do 2 (rewrite bind_lift;
        match goal with
        | |- context [check ?b ?e0] =>
            destruct (check_cases b e0) as [[_ ->] | [_ ->]]; [|by eexists]
        end).
  rewrite bind_lift.
  destruct (endpointOptions endpoint) as [opts|e3|p3] eqn:Hopts; [|by eexists|].
  2:{ by destruct (proj1 (endpoint_validation_no_panic endpoint p3)). }
  rewrite bind_lift.
  destruct (wireguardValidation endpoint opts) as [[]|e4|p4] eqn:Hvalid; [|by eexists|].
  2:{ by destruct (proj2 (endpoint_validation_no_panic endpoint p4) opts). }
  rewrite (bind_Fail _ _ _ _ _ Hdup). by eexists.
Qed.

(** The inbound service has no check of its own: a taken tag is refused
    by the unique index when the write is issued. *)
Lemma InboundService_Save_taken tx act data initUserIds hostname w decoded inbound r :
  act = "new" ∨ act = "edit" →
  Inbound_UnmarshalJSON data = Ok decoded →
  FillOutJson (resolvedTls tx w decoded) hostname = Ok inbound →
  r ∈ tbl_inbounds (view tx w) →
  Inbound.Tag r = Inbound.Tag inbound →
  (Inbound.Id inbound ≠ 0%N → Inbound.Id r ≠ Inbound.Id inbound) →
  InboundService_Save tx act data initUserIds hostname w =
    (counted w, Fail (gorm.constraint_error (A := Inbound.t))).
Proof.
  intros Hact Hdecode Hfill Hr Htag Hother.
  assert (Htls : (if (0 <? Inbound.TlsId decoded)%N then
                    found <- query tx (λ d, gorm.Find
                                (λ t, bool_decide (Tls.Id t = Inbound.TlsId decoded))
                                (tbl_tls d)) ;;
                    ret (Inbound.set_Tls (head found) decoded)
                  else ret decoded) w = (w, Ok (resolvedTls tx w decoded))).
  { unfold resolvedTls. by destruct (0 <? _)%N. }
  assert (Hsave : saveInbound inbound (view tx w) = Fail (gorm.constraint_error (A := Inbound.t))).
  { unfold saveInbound, gorm.Save.
    set (x := if (gorm.pk (Inbound.set_Tls None inbound) =? 0)%N
              then gorm.set_pk (gorm.next_pk (tbl_inbounds (view tx w)))
                     (Inbound.set_Tls None inbound)
              else Inbound.set_Tls None inbound).
    assert (gorm.violates_unique x (tbl_inbounds (view tx w)) = true) as ->; [|done].
    unfold gorm.violates_unique. simpl. apply bool_decide_eq_true, Exists_exists.
    exists r. split; [done|]. subst x. simpl.
    destruct (N.eqb_spec (Inbound.Id inbound) 0) as [Hz|Hnz]; simpl.
    - split; [|by rewrite Htag]. intros Heq.
      apply (next_pk_fresh (Hrow := gorm.Row_Inbound) (tbl_inbounds (view tx w))).
      rewrite <- Heq. by apply list_elem_of_fmap_2.
    - split; [by apply Hother | by rewrite Htag]. }
  unfold InboundService_Save. rewrite decide_True by auto.
  rewrite (bind_lift_Ok _ _ _ _ Hdecode).
  rewrite (bind_Ok _ _ _ _ _ Htls).
  rewrite (bind_lift_Ok _ _ _ _ Hfill).
  by rewrite (bind_Fail _ _ _ _ _ (exec_Fail _ _ _ _ Hsave)).
Qed.

(** C7 (amended). After any sequence of save operations of the three
    services, whatever their actions and results, tags (and keys) are
    unique within each of the inbound, outbound and endpoint classes
    independently. For outbounds and endpoints the service checks the tag
    itself, before any store write and any core call: an outbound save with
    action "new" or "edit" answers "already exists" with the world
    unchanged exactly when a stored outbound (on edit: one other than the
    edited record, by id) holds the tag; an endpoint save whose tag is
    taken in that sense fails with the world unchanged, its tag check
    answering "already exists" only when the tag is taken, and passing when
    it is free and, on edit, the edited record is stored. The inbound
    service has no such check: it issues the write, and a taken tag is
    refused by the unique index of the store on that write. *)
Theorem Saves_keep_tags_unique (tx : handle) (rs : list request) (w : World)
    (Hunique : uniqueTags (view tx w)) :
  uniqueTags (view tx (serveAll tx rs w)) ∧
  (∀ act data outbound,
     act = "new" ∨ act = "edit" →
     Outbound_UnmarshalJSON Outbound.zero data = Ok outbound →
     let taken := tagTaken (Hrow := gorm.Row_Outbound) Outbound.Tag act outbound
                    (tbl_outbounds (view tx w)) in
     let refusal := Fail (outboundTagExists (Outbound.Tag outbound)) in
     (taken → OutboundService_Save tx act data w = (w, refusal)) ∧
     (∀ w', OutboundService_Save tx act data w = (w', refusal) → taken)) ∧
  (∀ act data endpoint,
     act = "new" ∨ act = "edit" →
     Endpoint_UnmarshalJSON Endpoint.zero data = Ok endpoint →
     let taken := tagTaken (Hrow := gorm.Row_Endpoint) Endpoint.Tag act endpoint
                    (tbl_endpoints (view tx w)) in
     let stored := act = "edit" →
                   Endpoint.Id endpoint ∈ Endpoint.Id <$> tbl_endpoints (view tx w) in
     let refusal := Fail (tagExists (Endpoint.Tag endpoint)) in
     (taken → ∃ e, EndpointService_Save tx act data w = (w, Fail e)) ∧
     (taken → stored → checkDuplicateTag tx act endpoint w = (w, refusal)) ∧
     (∀ w', checkDuplicateTag tx act endpoint w = (w', refusal) → taken) ∧
     (¬ taken → stored → checkDuplicateTag tx act endpoint w = (w, Ok tt))) ∧
  (∀ act data initUserIds hostname decoded inbound r,
     act = "new" ∨ act = "edit" →
     Inbound_UnmarshalJSON data = Ok decoded →
     FillOutJson (resolvedTls tx w decoded) hostname = Ok inbound →
     r ∈ tbl_inbounds (view tx w) →
     Inbound.Tag r = Inbound.Tag inbound →
     (Inbound.Id inbound ≠ 0%N → Inbound.Id r ≠ Inbound.Id inbound) →
     InboundService_Save tx act data initUserIds hostname w =
       (counted w, Fail (gorm.constraint_error (A := Inbound.t)))).
Proof.
  split; [by apply serveAll_unique|]. split; [|split].
  - intros act data outbound Hact Hdecode taken refusal. split.
    + by apply OutboundService_Save_taken.
    + intros w'. by apply OutboundService_Save_exists_inv.
  - intros act data endpoint Hact Hdecode taken stored refusal.
    destruct Hunique as (_ & _ & Hkeys). repeat split.
    + by apply EndpointService_Save_taken.
    + intros Htaken Hstored.
      destruct (checkDuplicateTag_taken tx act endpoint w Hact Hkeys Htaken) as (e & Hdup & He).
      by rewrite Hdup, (He Hstored).
    + intros w'. by apply checkDuplicateTag_exists_inv.
    + intros Hfree Hstored. by apply checkDuplicateTag_free.
  - intros act data initUserIds hostname decoded inbound r.
    apply InboundService_Save_taken.
Qed.

End UniqueTags.

(** A store with one record of each class. *)
Definition tagged_world : @World (Scenario.collaborators None) :=
  Scenario.world None false
    (set_outbounds [direct_outbound] (set_endpoints [ep1] (set_inbounds [in1] Scenario.empty_db))).

(** A new inbound that takes the tag of the stored inbound "in1". *)
Definition second_in1 : RawMessage :=
  Raw (JObj (list_to_map [ ("type", JStr "trojan"); ("tag", JStr "in1");
                           ("listen_port", JNum 8443) ])).

Lemma Saves_keep_tags_unique_witness :
  let w := tagged_world in
  let rs := [ SaveOutbound "new" (Raw (JObj {[ "type" := JStr "direct"; "tag" := JStr "out3" ]}));
              SaveInbound "new" second_in1 "" "host";
              SaveEndpoint "edit" (Raw (Scenario.wireguard 1 "ep9" ["10.0.0.0/24"])) ] in
  uniqueTags (view TheTx (serveAll TheTx rs w)) ∧
  OutboundService_Save TheTx "new" (Raw (JObj {[ "type" := JStr "direct"; "tag" := JStr "out2" ]})) w
    = (w, Fail (Error "outbound tag 'out2' already exists")) ∧
  InboundService_Save TheTx "new" second_in1 "" "host" w
    = (counted w, Fail (Error "UNIQUE constraint failed: inbounds.tag")).
Proof.
  intros w rs.
  destruct (Saves_keep_tags_unique TheTx rs w) as (Hinv & Hout & _ & Hin).
  - repeat split; apply NoDup_singleton.
  - split; [exact Hinv|]. split.
    + apply (Hout "new" _ (Outbound.mk 0 "direct" "out2" RawNil)); [by left | reflexivity |].
      exists direct_outbound. split; [left|]. split; [reflexivity | discriminate].
    + apply (Hin "new" second_in1 "" "host"
               (Inbound.mk 0 "trojan" "in1" 0 None RawNil
                  (Raw (JObj {[ "listen_port" := JNum 8443 ]})))
               (Inbound.mk 0 "trojan" "in1" 0 None RawNil
                  (Raw (JObj {[ "listen_port" := JNum 8443 ]})))
               in1); [by left | reflexivity | reflexivity | left | reflexivity | done].
Defined.

(** C7, as stated, fails for inbounds: no check precedes the write. A new
    inbound with a taken tag is refused by the store when the write is
    issued; one that also carries the key of the record that holds the tag
    is accepted and overwrites it. The endpoint service, for comparison,
    refuses the same request without a write. *)
Lemma InboundSave_has_no_tag_check :
  let w := tagged_world in
  let refused := InboundService_Save TheTx "new" second_in1 "" "host" w in
  let accepted := InboundService_Save TheTx "new" edit_in1 "" "host" w in
  let endpoint := EndpointService_Save TheTx "new"
                    (Raw (Scenario.wireguard 1 "ep1" ["10.9.0.0/24"])) w in
  Inbound.Tag <$> tbl_inbounds (txn w) = ["in1"] ∧
  refused.2 = Fail (Error "UNIQUE constraint failed: inbounds.tag") ∧
  writes refused.1 = S (writes w) ∧
  accepted.2 = Ok 1%N ∧
  writes accepted.1 = S (writes w) ∧
  endpoint.2 = Fail (Error "Endpoint tag 'ep1' already exists.") ∧
  writes endpoint.1 = writes w.
Proof. vm_compute. done. Qed.

(** ** Rollback *)

Section Rollback.
Context `{Collaborators}.

(** What a transaction that is still open leaves alone: the committed
    store and the in-memory watermark. *)
Definition committed : relation World :=
  λ w w', durable w' = durable w ∧ LastUpdate w' = LastUpdate w.

#[local] Instance committed_refl : Reflexive committed.
Proof. intros w. split; reflexivity. Qed.
#[local] Instance committed_trans : Transitive committed.
Proof. intros w1 w2 w3 [Hd Hl] [Hd' Hl']. split; congruence. Qed.

Lemma committed_core_call (f : Core → Core * option error) : keeps committed (core_call f).
Proof.
  intros w w' r. unfold core_call. destruct (f (core w)) as [c e].
  intros [= <- _]. split; reflexivity.
Qed.

Lemma committed_exec {A} (f : DB → outcome (A * DB)) : keeps committed (exec TheTx f).
Proof.
  intros w w' r. unfold exec.
  destruct (f (view TheTx w)) as [[a d]|e|p]; intros [= <- _]; split; reflexivity.
Qed.

Lemma committed_tlsSave act data : keeps committed (tlsSave TheTx act data).
Proof.
  intros w w' r. unfold tlsSave. destruct (TlsService_Save act data (view TheTx w)) as [d o].
  intros [= <- _]. split; reflexivity.
Qed.

Lemma committed_addUsers db inboundJson inboundId inboundType :
  keeps committed (addUsers db inboundJson inboundId inboundType).
Proof. apply keeps_readonly; [typeclasses eauto | apply addUsers_readonly]. Qed.

Lemma committed_initUsers db inboundJson clientIds inboundType :
  keeps committed (initUsers db inboundJson clientIds inboundType).
Proof.
  apply keeps_readonly; [typeclasses eauto|]. unfold initUsers.
  pose proof fetchUsers_readonly. keeps_auto.
Qed.

Lemma committed_GetConfig data : keeps committed (ConfigService_GetConfig data).
Proof. apply keeps_readonly; [typeclasses eauto | apply ConfigService_GetConfig_readonly]. Qed.

Hint Resolve committed_core_call committed_exec committed_tlsSave committed_addUsers
  committed_initUsers committed_GetConfig : frame.

Lemma committed_ClientService_Save act data hostname :
  keeps committed (ClientService_Save TheTx act data hostname).
Proof. unfold ClientService_Save, updateLinksWithFixedInbounds. keeps_auto. Qed.

Lemma committed_UpdateClientsOnInboundAdd initIds inboundId hostname :
  keeps committed (UpdateClientsOnInboundAdd TheTx initIds inboundId hostname).
Proof. unfold UpdateClientsOnInboundAdd. keeps_auto. Qed.

Lemma committed_UpdateClientsOnInboundDelete id tag :
  keeps committed (UpdateClientsOnInboundDelete TheTx id tag).
Proof. unfold UpdateClientsOnInboundDelete. keeps_auto. Qed.

Lemma committed_UpdateLinksByInboundChange inbounIds hostname :
  keeps committed (UpdateLinksByInboundChange TheTx inbounIds hostname).
Proof. unfold UpdateLinksByInboundChange. keeps_auto. Qed.

Lemma committed_UpdateOutJsons inboundIds hostname :
  keeps committed (InboundService_UpdateOutJsons TheTx inboundIds hostname).
Proof. unfold InboundService_UpdateOutJsons. keeps_auto. Qed.

Lemma committed_InboundService_Save act data initUserIds hostname :
  keeps committed (InboundService_Save TheTx act data initUserIds hostname).
Proof. unfold InboundService_Save. keeps_auto. Qed.

Lemma committed_OutboundService_Save act data :
  keeps committed (OutboundService_Save TheTx act data).
Proof. unfold OutboundService_Save, outboundCoreSync. keeps_auto. Qed.

Lemma committed_EndpointService_Save act data :
  keeps committed (EndpointService_Save TheTx act data).
Proof.
  unfold EndpointService_Save, checkDuplicateTag, checkAllowedIPs, warpHandling,
    endpointCoreSync.
  keeps_auto.
Qed.

Lemma committed_SettingService_Update key value :
  keeps committed (SettingService_Update (Some TheTx) key value).
Proof. unfold SettingService_Update, saveSetting. cbn [default]. keeps_auto. Qed.

Hint Resolve committed_ClientService_Save committed_UpdateClientsOnInboundAdd
  committed_UpdateClientsOnInboundDelete committed_UpdateLinksByInboundChange
  committed_UpdateOutJsons committed_InboundService_Save committed_OutboundService_Save
  committed_EndpointService_Save committed_SettingService_Update : frame.

(** Everything between [db.Begin()] and the deferred function goes
    through the transaction. *)
Lemma saveBody_committed obj act data initUsers loginUser hostname :
  keeps committed (saveBody obj act data initUsers loginUser hostname).
Proof.
  unfold saveBody, saveObject, saveInbounds, sideChanges, restartCoreWithConfig,
    ConfigService_StopCore, ConfigService_StartCore.
  keeps_auto.
Qed.

(** The deferred function logs the errors of the calls it makes: on the
    commit path Save does not return an error. *)
Lemma afterCommit_no_error (inboundIdsToRestart : list N) (objs : list string)
    (w w' : World) (e : error) :
  (_ <- afterCommit inboundIdsToRestart ;; ret objs) w ≠ (w', Fail e).
Proof.
  unfold afterCommit, bind, gets, try, set_LastUpdate, modify, ret.
  repeat (case_match; simplify_eq); done.
Qed.

Lemma ConfigService_Save_run obj act data initUsers loginUser hostname (w : World) :
  ConfigService_Save obj act data initUsers loginUser hostname w =
    match saveBody obj act data initUsers loginUser hostname (Begin w).1 with
    | (w1, Panic p) => ((Rollback w1).1, Panic p)
    | (w1, Fail err) => ((Rollback w1).1, Fail err)
    | (w1, Ok (objs, inboundIdsToRestart)) =>
        (_ <- afterCommit inboundIdsToRestart ;; ret objs) (Commit w1).1
    end.
Proof. reflexivity. Qed.

(** The outcome [r] of Save is the error [r1] of its body. *)
Definition raised {A B} (r1 : outcome A) (r : outcome B) : Prop :=
  match r1, r with
  | Fail e1, Fail e => e = e1
  | Panic p1, Panic p => p = p1
  | _, _ => False
  end.

(** C2. For every call to the Save Orchestrator, if an error occurs in
    the validation and mutation phase (the body of Save fails, or panics,
    before the commit), Save returns that error and the transaction is
    rolled back: the durable store after the call equals the store before
    it, so nothing written in earlier mutation steps of the request
    persists and no change-log record is appended; the in-memory watermark
    is not advanced either. In particular, whenever Save returns an error,
    the durable store is the one before the call. *)
Theorem Save_error_rolls_back (obj act : string) (data : RawMessage)
    (initUsers loginUser hostname : string) (w w' : World) (r : outcome (list string))
    (Hrun : ConfigService_Save obj act data initUsers loginUser hostname w = (w', r)) :
  (∀ w1 r1,
     saveBody obj act data initUsers loginUser hostname (Begin w).1 = (w1, r1) →
     is_Ok r1 = false →
     raised r1 r ∧
     durable w' = durable w ∧ txn w' = durable w ∧
     tbl_changes (durable w') = tbl_changes (durable w) ∧
     LastUpdate w' = LastUpdate w) ∧
  (∀ e, r = Fail e →
        durable w' = durable w ∧ tbl_changes (durable w') = tbl_changes (durable w) ∧
        LastUpdate w' = LastUpdate w).
Proof.
  assert (Hbody : ∀ w1 r1,
     saveBody obj act data initUsers loginUser hostname (Begin w).1 = (w1, r1) →
     is_Ok r1 = false →
     raised r1 r ∧ durable w' = durable w ∧ txn w' = durable w ∧ LastUpdate w' = LastUpdate w).
  { intros w1 r1 Hbody Hfailed.
    destruct (saveBody_committed _ _ _ _ _ _ _ _ _ Hbody) as [Hd Hl].
    simpl in Hd, Hl. revert Hrun. rewrite ConfigService_Save_run, Hbody.
    destruct r1 as [saved|e|p]; [done| |]; intros [= <- <-]; simpl; by rewrite Hd, Hl. }
  split.
  - intros w1 r1 Hrun1 Hfailed.
    destruct (Hbody w1 r1 Hrun1 Hfailed) as (Hr & Hd & Ht & Hl). by rewrite Hd.
  - intros e ->.
    destruct (saveBody obj act data initUsers loginUser hostname (Begin w).1)
      as [w1 r1] eqn:Hrun1.
    destruct r1 as [[objs ids]|e1|p1].
    + exfalso. revert Hrun. rewrite ConfigService_Save_run, Hrun1.
      apply afterCommit_no_error.
    + destruct (Hbody w1 (Fail e1) eq_refl eq_refl) as (_ & Hd & _ & Hl). by rewrite Hd.
    + destruct (Hbody w1 (Panic p1) eq_refl eq_refl) as ([] & _).
Qed.

End Rollback.

(** A settings save of two keys: the port of the panel, which is written,
    and a port of the subscription server that is not a number. *)
Definition two_settings : RawMessage :=
  Raw (JObj {[ "webPort" := JStr "8080"; "subPort" := JStr "abc" ]}).

Lemma Save_error_rolls_back_witness :
  let w := alice_world None false in
  let body := saveBody "settings" "edit" two_settings "" "admin" "host" (Begin w).1 in
  let run := ConfigService_Save "settings" "edit" two_settings "" "admin" "host" w in
  Setting.Key <$> tbl_settings (txn body.1) = ["webPort"] ∧
  is_Ok body.2 = false ∧
  raised body.2 run.2 ∧
  durable run.1 = durable w ∧
  tbl_changes (durable run.1) = tbl_changes (durable w) ∧
  LastUpdate run.1 = LastUpdate w.
Proof.
  intros w body run.
  destruct (Save_error_rolls_back "settings" "edit" two_settings "" "admin" "host" w
              run.1 run.2 (surjective_pairing run)) as [Hbody _].
  destruct (Hbody body.1 body.2 (surjective_pairing body)) as (Hr & Hd & _ & Hc & Hl).
  - vm_compute. reflexivity.
  - split; [vm_compute; reflexivity|]. split; [vm_compute; reflexivity|].
    exact (conj Hr (conj Hd (conj Hc Hl))).
Defined.

(** ** The JSON forms of outbounds and endpoints *)

Section ModelJson.
Context `{Collaborators}.

(** Decoding a payload and encoding the result gives the payload back
    without its id (and with the type as a string); decoding that document
    gives the outbound again, without the id. *)
Theorem Outbound_decode_encode (data : RawMessage) (outbound : Outbound.t)
    (Hdecode : Outbound_UnmarshalJSON Outbound.zero data = Ok outbound) :
  ∃ raw,
    Json.Unmarshal_map data = Ok raw ∧
    let doc := <["type" := JStr (Outbound.Typ outbound)]> (delete "id" raw) in
    Outbound_MarshalJSON outbound = Ok (JObj doc) ∧
    (is_Some (as_string (raw !! "type")) → doc = delete "id" raw) ∧
    Outbound_UnmarshalJSON Outbound.zero (Raw (JObj doc)) =
      Ok (Outbound.mk 0 (Outbound.Typ outbound) (Outbound.Tag outbound)
            (Outbound.Options outbound)).
Proof.
  destruct (Outbound_UnmarshalJSON_inv data outbound Hdecode)
    as (raw & Hraw & Htag & Hne & Htyp & Hid & Hopts).
  exists raw. split; [done|]. intros doc.
  assert (Hrest : delete "tag" (delete "type" (delete "id" doc))
                  = delete "tag" (delete "type" (delete "id" raw))).
  { subst doc. apply map_eq. intros k.
    destruct (decide (k = "tag")) as [->|?]; [by rewrite !lookup_delete_eq|].
    destruct (decide (k = "type")) as [->|?];
      [by rewrite !(lookup_delete_ne _ "tag"), !lookup_delete_eq by done|].
    destruct (decide (k = "id")) as [->|?].
    - by rewrite !(lookup_delete_ne _ "tag"), !(lookup_delete_ne _ "type"), !lookup_delete_eq
        by done.
    - by rewrite !lookup_delete_ne, lookup_insert_ne, lookup_delete_ne by done. }
  split; [|split].
  - destruct outbound as [id typ tag options]. simpl in *. subst options.
    rewrite Outbound_MarshalJSON_rest. do 2 f_equal. subst doc. apply map_eq. intros k.
    destruct (decide (k = "type")) as [->|?].
    { rewrite lookup_insert_eq. apply lookup_union_Some_raw. right.
      split; [by rewrite lookup_delete_ne, lookup_delete_eq by done|].
      by rewrite lookup_insert_ne, lookup_insert_eq by done. }
    rewrite lookup_insert_ne by done.
    destruct (decide (k = "tag")) as [->|?].
    { rewrite lookup_delete_ne, Htag by done. apply lookup_union_Some_raw. right.
      split; [by rewrite lookup_delete_eq | by rewrite lookup_insert_eq]. }
    destruct (decide (k = "id")) as [->|?].
    { rewrite lookup_delete_eq. apply lookup_union_None. split.
      - by rewrite !lookup_delete_ne, lookup_delete_eq by done.
      - by rewrite !lookup_insert_ne by done. }
    rewrite lookup_delete_ne by done.
    destruct (raw !! k) as [j|] eqn:Hk.
    + apply lookup_union_Some_raw. left. by rewrite !lookup_delete_ne by done.
    + apply lookup_union_None. split; [by rewrite !lookup_delete_ne by done|].
      by rewrite !lookup_insert_ne by done.
  - intros [t Ht]. subst doc. apply map_eq. intros k.
    destruct (decide (k = "type")) as [->|?]; [|by rewrite lookup_insert_ne by done].
    rewrite lookup_insert_eq, lookup_delete_ne, Htyp by done.
    destruct (raw !! "type") as [[]|]; simpl in *; congruence.
  - unfold Outbound_UnmarshalJSON. cbn [Json.Unmarshal_map wrap obind].
    assert (doc !! "id" = None) as -> by (subst doc; by rewrite lookup_insert_ne, lookup_delete_eq).
    cbn [obind Outbound.Id Outbound.zero].
    assert (delete "id" doc !! "type" = Some (JStr (Outbound.Typ outbound))) as ->
      by (subst doc; by rewrite lookup_delete_ne, lookup_insert_eq).
    assert (delete "type" (delete "id" doc) !! "tag" = Some (JStr (Outbound.Tag outbound))) as ->.
    { subst doc. by rewrite !lookup_delete_ne, lookup_insert_ne, lookup_delete_ne by done. }
    rewrite decide_False by done. rewrite Hrest. simpl in Hopts. by rewrite Hopts.
Qed.

End ModelJson.

(** The payload of an outbound edit: a direct outbound with one option. *)
Definition direct_payload : RawMessage :=
  Raw (JObj (list_to_map [ ("id", JNum 7); ("type", JStr "direct"); ("tag", JStr "out7");
                           ("domain_strategy", JStr "prefer_ipv4") ])).

Lemma Outbound_decode_encode_witness :
  ∃ outbound doc,
    Outbound_UnmarshalJSON (H := Scenario.collaborators None) Outbound.zero direct_payload
      = Ok outbound ∧
    Outbound.Id outbound = 7%N ∧
    Outbound_MarshalJSON outbound = Ok (JObj doc) ∧
    doc !! "id" = None ∧
    doc !! "domain_strategy" = Some (JStr "prefer_ipv4").
Proof.
  eexists. destruct (Outbound_decode_encode (H := Scenario.collaborators None) direct_payload _
                       eq_refl) as (raw & Hraw & Hdoc & _).
  injection Hraw as <-. eexists. split; [reflexivity|]. split; [reflexivity|].
  split; [exact Hdoc|]. split; reflexivity.
Defined.

(** A lookup in a map built by inserts, deletes and unions, at a key that
    was compared with the keys of the inserts and deletes. *)
Ltac lookup_step :=
  first [ rewrite lookup_insert_eq | rewrite lookup_delete_eq
        | rewrite lookup_insert_ne by done | rewrite lookup_delete_ne by done
        | rewrite lookup_empty | rewrite lookup_union ].

Section EndpointJson.

(** The type under which the core knows an endpoint. *)
Definition coreType (typ : string) : string :=
  if decide (typ = "warp") then "wireguard" else typ.

(** A decoded endpoint payload, encoded for the core: the payload without
    its id, always with a "type", a "tag" and an "ext" member (the empty
    string and [null] when the payload had none), and with the type "warp"
    written as "wireguard". Decoding never fails on an object. *)
Theorem Endpoint_decode_encode (data : RawMessage) (raw : gmap string json)
    (Hraw : Json.Unmarshal_map data = Ok raw) :
  ∃ endpoint,
    Endpoint_UnmarshalJSON Endpoint.zero data = Ok endpoint ∧
    Endpoint.Id endpoint = default 0%N (uint_of_float64 <$> as_float64 (raw !! "id")) ∧
    Endpoint.Typ endpoint = default "" (as_string (raw !! "type")) ∧
    Endpoint.Tag endpoint = default "" (as_string (raw !! "tag")) ∧
    Endpoint_MarshalJSON endpoint =
      Ok (JObj (<["type" := JStr (coreType (Endpoint.Typ endpoint))]>
                 (<["tag" := JStr (Endpoint.Tag endpoint)]>
                    (<["ext" := default JNull (raw !! "ext")]> (delete "id" raw))))).
Proof.
  unfold Endpoint_UnmarshalJSON. rewrite Hraw. cbn [obind]. eexists. split; [done|].
  cbn [Endpoint.Id Endpoint.Typ Endpoint.Tag Endpoint.zero].
  rewrite !lookup_delete_ne by done.
  split; [by destruct (as_float64 (raw !! "id"))|]. split; [done|]. split; [done|].
  set (typ := default "" (as_string (raw !! "type"))).
  set (tag := default "" (as_string (raw !! "tag"))).
  set (ext := default JNull (raw !! "ext")).
  set (rest := delete "ext" (delete "tag" (delete "type" (delete "id" raw)))).
  assert (Hopts : Json.Unmarshal_map (MarshalIndent_map data rest) = Ok rest).
  { unfold MarshalIndent_map. destruct data as [| |[]]; try done.
    simpl in Hraw. injection Hraw as <-. simpl. subst rest. by rewrite !delete_empty. }
  unfold Endpoint_MarshalJSON. cbn [Endpoint.Typ Endpoint.Tag Endpoint.Ext Endpoint.Options].
  fold (coreType typ).
  assert (MarshalIndent_map data rest ≠ RawNil) as Hnn.
  { unfold MarshalIndent_map. by destruct (is_null data). }
  destruct (MarshalIndent_map data rest) as [| |j] eqn:Hmi; [done| |].
  { by rewrite Hopts. }
  rewrite Hopts. cbn [obind].
  cbv beta iota zeta.
  replace ((Raw <$> rest) ∪ <["ext" := Raw ext]>
             (<["tag" := Raw (JStr tag)]> (<["type" := Raw (JStr (coreType typ))]> ∅)))
    with (Raw <$> (rest ∪ <["ext" := ext]>
             (<["tag" := JStr tag]> (<["type" := JStr (coreType typ)]> ∅))))
    by (by rewrite map_fmap_union, !fmap_insert, fmap_empty).
  rewrite Marshal_raw_map_Raw. do 2 f_equal. subst rest. apply map_eq. intros k.
  destruct (decide (k = "type")) as [->|?]; [by repeat lookup_step|].
  destruct (decide (k = "tag")) as [->|?]; [by repeat lookup_step|].
  destruct (decide (k = "ext")) as [->|?]; [by repeat lookup_step|].
  destruct (decide (k = "id")) as [->|?]; [by repeat lookup_step|].
  repeat lookup_step. by destruct (raw !! k).
Qed.

End EndpointJson.

Lemma Endpoint_decode_encode_witness :
  ∃ endpoint doc,
    Endpoint_UnmarshalJSON Endpoint.zero
      (Raw (JObj (list_to_map [ ("id", JNum 3); ("type", JStr "warp"); ("tag", JStr "w1");
                                ("mtu", JNum 1280) ]))) = Ok endpoint ∧
    Endpoint_MarshalJSON endpoint = Ok (JObj doc) ∧
    doc !! "type" = Some (JStr "wireguard") ∧ doc !! "ext" = Some JNull ∧
    doc !! "id" = None ∧ doc !! "mtu" = Some (JNum 1280).
Proof.
  destruct (Endpoint_decode_encode
              (Raw (JObj (list_to_map [ ("id", JNum 3); ("type", JStr "warp");
                                        ("tag", JStr "w1"); ("mtu", JNum 1280) ]))) _ eq_refl)
    as (endpoint & Hdecode & _ & _ & _ & Hencode).
  exists endpoint. eexists. split; [exact Hdecode|]. split; [exact Hencode|].
  injection Hdecode as <-. repeat split; reflexivity.
Defined.

(** ** Deleting an inbound through the orchestrator *)

Section InboundDeletion.
Context `{Collaborators}.

(** The payload that Save decodes as the id of the inbound is the one
    InboundService.Save decodes as its tag: no JSON value is both a
    non-zero number and a string. *)
Lemma saveInbounds_del_fails (tx : handle) (data : RawMessage) (initUsers hostname : string)
    (w : World) :
  ∃ e, saveInbounds tx "del" data initUsers hostname w = (w, Fail e).
Proof.
  unfold saveInbounds. rewrite decide_True by done. rewrite ?bind_assoc.
  rewrite bind_lift.
  destruct (Json.Unmarshal_uint data) as [idToDelete|e|p] eqn:Hid; cbn [wrap];
    [|by eexists|exfalso; unfold Json.Unmarshal_uint in Hid; by repeat case_match].
  rewrite ?bind_assoc, bind_lift.
  destruct (check_cases (negb (N.eqb idToDelete 0))
              (NewError "inbound ID for deletion cannot be zero")) as [[Hnz ->] | [_ ->]];
    [|by eexists].
  rewrite ?bind_assoc. rewrite (bind_Ok _ _ _ _ _ (query_run _ _ _)). rewrite bind_lift.
  destruct (gorm.First _ _) as [tempInbound|e|p] eqn:Hfound; cbn [wrap];
    [|by eexists|exfalso; unfold gorm.First in Hfound; by repeat case_match].
  rewrite (bind_Ok _ _ _ _ _ (ret_run _ _)).
  assert (Htag : ∃ e, Json.Unmarshal_string data = Fail e).
  { destruct data as [| |[]]; simpl in Hid; try done; [|by eexists].
    injection Hid as <-. done. }
  destruct Htag as [e Htag].
  unfold InboundService_Save. rewrite decide_False by (intros [?|?]; done).
  rewrite decide_True by done. rewrite ?bind_assoc, bind_lift, Htag. by eexists.
Qed.

(** Whatever the payload and the store, a deletion of an inbound through
    ConfigService.Save returns an error: nothing is deleted, the core is
    not called and no change is recorded. *)
Theorem Save_inbound_deletion_fails (data : RawMessage) (initUsers loginUser hostname : string)
    (w : World) :
  ∃ e w',
    ConfigService_Save "inbounds" "del" data initUsers loginUser hostname w = (w', Fail e) ∧
    durable w' = durable w ∧ core w' = core w ∧ LastUpdate w' = LastUpdate w ∧
    writes w' = writes w.
Proof.
  destruct (saveInbounds_del_fails TheTx data initUsers hostname (Begin w).1) as [e Hfail].
  exists e. eexists. rewrite ConfigService_Save_run.
  unfold saveBody, saveObject. rewrite !decide_False by done. rewrite decide_True by done.
  rewrite ?bind_assoc. rewrite (bind_Fail _ _ _ _ _ Hfail). done.
Qed.

End InboundDeletion.

(** ** The user list of shadowtls and shadowsocks inbounds *)

Section Users.
Context `{Collaborators}.

(** fetchUsers asserts that the "version" member of a shadowtls inbound,
    and the "method" member of a shadowsocks inbound, is a
    [json.RawMessage]; the document was decoded into a
    [map[string]interface{}], whose members never are. So addUsers panics
    on every shadowtls document that has a "version" member and on every
    shadowsocks document that has a "method" member, before the store is
    read; a shadowtls document without "version" gets the user list
    [null] whatever the clients are. *)
Theorem addUsers_shadowtls_shadowsocks (db : handle) (doc : gmap string json) (inboundId : N)
    (w : World) :
  (is_Some (doc !! "version") →
   ∃ p, addUsers db (JObj doc) inboundId "shadowtls" w = (w, Panic p)) ∧
  (doc !! "version" = None →
   addUsers db (JObj doc) inboundId "shadowtls" w = (w, Ok (JObj (<["users" := JNull]> doc)))) ∧
  (is_Some (doc !! "method") →
   ∃ p, addUsers db (JObj doc) inboundId "shadowsocks" w = (w, Panic p)).
Proof.
  unfold addUsers.
  change (hasUser "shadowtls") with true. change (hasUser "shadowsocks") with true.
  cbn [negb Json.Unmarshal_map]. rewrite !(bind_lift_Ok _ _ _ _ eq_refl).
  unfold fetchUsers. rewrite !decide_True by done.
  rewrite decide_False by done. rewrite decide_True by done.
  split; [|split].
  - intros [v ->]. by eexists.
  - intros ->. by rewrite (bind_Ok _ _ _ _ _ (ret_run _ _)).
  - intros [v ->]. by eexists.
Qed.

End Users.

(** A shadowtls inbound as the panel writes it, with its version. *)
Lemma addUsers_shadowtls_example :
  let w := alice_world None false in
  is_Ok (addUsers TheDB (JObj {[ "tag" := JStr "st"; "type" := JStr "shadowtls";
                                 "version" := JNum 3 ]}) 1 "shadowtls" w).2 = false.
Proof. reflexivity. Qed.

(** ** Writing a setting and reading it back *)

Section SettingStore.
Context `{Collaborators}.

(** The handle Update writes through: the transaction it is given, or
    the store itself. *)
Definition dbToUse (tx : option handle) : handle := default TheDB tx.

(** Saving a new row: it is appended under the next key. *)
Lemma Save_inserts {A} `{Hrow : gorm.Row A} (x : A) (rows : list A) :
  gorm.pk x = 0%N → gorm.unique_col x = None →
  (∀ i r, gorm.pk (gorm.set_pk i r) = i) →
  (∀ i r, gorm.unique_col (gorm.set_pk i r) = gorm.unique_col r) →
  gorm.Save x rows = Ok (gorm.set_pk (gorm.next_pk rows) x,
                         rows ++ [gorm.set_pk (gorm.next_pk rows) x]).
Proof.
  intros Hpk Hu Hset Hcol. unfold gorm.Save. rewrite Hpk. simpl.
  unfold gorm.violates_unique. rewrite Hcol, Hu.
  rewrite bool_decide_eq_false_2; [done|].
  intros (r & Hr & Heq)%Exists_exists. rewrite Hset in Heq.
  apply (next_pk_fresh rows). rewrite <- Heq. by apply list_elem_of_fmap_2.
Qed.

(** The first row that satisfies [p], after the row found by [First p]
    was saved again with another value. *)
Lemma First_replaced {A} `{Hrow : gorm.Row A} (p : A → bool) (x old : A) (rows : list A) :
  gorm.First p rows = Ok old → gorm.pk x = gorm.pk old → p x = true →
  gorm.First p (replaced x rows) = Ok x.
Proof.
  unfold gorm.First, gorm.Find, replaced. intros Hold Hpk Hp.
  induction rows as [|r rows IH]; [done|].
  rewrite fmap_cons, filter_cons. rewrite filter_cons in Hold.
  destruct (decide (p r = true)) as [Hr|Hr].
  - injection Hold as ->. rewrite Hpk, N.eqb_refl. by rewrite decide_True.
  - destruct (N.eqb_spec (gorm.pk r) (gorm.pk x)).
    + by rewrite decide_True.
    + rewrite decide_False by done. by apply IH.
Qed.

(** The rows that satisfy [p] are the same after a row that does not
    satisfy it was replaced by one that does not either. *)
Lemma Find_replaced_other {A} `{Hrow : gorm.Row A} (p : A → bool) (x old : A) (rows : list A) :
  NoDup (gorm.pk <$> rows) → old ∈ rows → gorm.pk x = gorm.pk old →
  p old = false → p x = false →
  gorm.Find p (replaced x rows) = gorm.Find p rows.
Proof.
  intros Hnd Hold Hpk Hpo Hpx.
  assert (Honly : ∀ r, r ∈ rows → gorm.pk r = gorm.pk x → r = old).
  { intros r Hr Heq. apply (NoDup_fmap_eq gorm.pk rows r old Hnd Hr Hold). congruence. }
  clear Hnd Hold. unfold gorm.Find, replaced.
  induction rows as [|r rows IH]; [done|].
  rewrite fmap_cons, !filter_cons. rewrite IH by (intros r' Hr'; apply Honly; by right).
  destruct (N.eqb_spec (gorm.pk r) (gorm.pk x)) as [Heq|Hne]; [|done].
  rewrite (Honly r) by (done || left). rewrite !decide_False; [done|..]; congruence.
Qed.

Lemma Find_none {A} (p : A → bool) (rows : list A) :
  (∀ r, r ∈ rows → p r = false) → gorm.Find p rows = [].
Proof.
  unfold gorm.Find. induction rows as [|r rows IH]; intros Hnone; [done|].
  rewrite filter_cons, decide_False by (rewrite (Hnone r) by left; done).
  apply IH. intros r' Hr'. apply Hnone. by right.
Qed.

Lemma getString_result (db : handle) (key : string) (w : World) :
  getString db key w =
    (w, match gorm.First (λ r, bool_decide (Setting.Key r = key)) (tbl_settings (view db w)) with
        | Ok setting => Ok (Setting.Value setting)
        | Fail ErrRecordNotFound =>
            match defaultValueMap !! key with
            | Some value => Ok value
            | None => Fail (NewError ("key <" +:+ key
                                      +:+ "> not in defaultValueMap and not found in DB"))
            end
        | Fail err => Fail (NewError ("failed to get setting '" +:+ key +:+ "': "
                                      +:+ error_string err))
        | Panic p => Panic p
        end).
Proof.
  unfold getString. rewrite (bind_Ok _ _ _ _ _ (query_run _ _ _)).
  destruct (gorm.First _ _) as [setting|[]|p]; try done. by destruct (defaultValueMap !! key).
Qed.

(** The store after a successful Update. *)
Lemma Update_Ok_inv (tx : option handle) (key value : string) (w w' : World) :
  Forall (λ r, Setting.Id r ≠ 0%N) (tbl_settings (view (dbToUse tx) w)) →
  SettingService_Update tx key value w = (w', Ok tt) →
  ∃ v rows',
    typedValue key value = Ok v ∧
    w' = with_view (dbToUse tx) (set_settings rows' (view (dbToUse tx) w)) (counted w) ∧
    let rows := tbl_settings (view (dbToUse tx) w) in
    match gorm.First (λ r, bool_decide (Setting.Key r = key)) rows with
    | Ok old => rows' = replaced (Setting.set_Value (valueStr v) old) rows
    | _ => rows' = rows ++ [Setting.mk (gorm.next_pk rows) key (valueStr v)]
    end.
Proof.
  intros Hids. unfold SettingService_Update. rewrite bind_lift.
  destruct (typedValue key value) as [v|e|p]; [|done..].
  change (default TheDB tx) with (dbToUse tx). intros Hsave%wrapM_Ok_inv. exists v. revert Hsave.
  unfold saveSetting. rewrite (bind_Ok _ _ _ _ _ (query_run _ _ _)).
  destruct (gorm.First _ _) as [old|[]|p] eqn:Hfound; try done.
  - apply First_Ok_inv in Hfound as [Hold _].
    assert (Hsave : gorm.Save (Setting.set_Value (valueStr v) old) (tbl_settings (view (dbToUse tx) w))
                    = Ok (Setting.set_Value (valueStr v) old,
                          replaced (Setting.set_Value (valueStr v) old) (tbl_settings (view (dbToUse tx) w)))).
    { apply (Save_replaces (Hrow := gorm.Row_Setting)); [| |done].
      - by apply (proj1 (Forall_forall _ _) Hids old).
      - by apply (list_elem_of_fmap_2 Setting.Id) in Hold. }
    unfold exec. cbv beta. rewrite Hsave. cbn [obind fst snd]. intros [= <-]. by eexists.
  - unfold exec. cbv beta.
    rewrite (Save_inserts (Hrow := gorm.Row_Setting) (Setting.mk 0 key (valueStr v)))
      by done.
    cbn [obind fst snd]. intros [= <-]. by eexists.
Qed.

(** Reading the settings after a successful Update. *)
Lemma Update_read_back (tx : option handle) (key value : string) (w w' : World) :
  Forall (λ r, Setting.Id r ≠ 0%N) (tbl_settings (view (dbToUse tx) w)) →
  NoDup (Setting.Id <$> tbl_settings (view (dbToUse tx) w)) →
  SettingService_Update tx key value w = (w', Ok tt) →
  ∃ v,
    typedValue key value = Ok v ∧
    getString (dbToUse tx) key w' = (w', Ok (valueStr v)) ∧
    ∀ key', key' ≠ key → (getString (dbToUse tx) key' w').2 = (getString (dbToUse tx) key' w).2.
Proof.
  intros Hids Hkeys Hrun.
  destruct (Update_Ok_inv tx key value w w' Hids Hrun) as (v & rows' & Hv & -> & Hrows).
  exists v. split; [done|]. cbn zeta in Hrows.
  assert (Hview : tbl_settings (view (dbToUse tx) (with_view (dbToUse tx) (set_settings rows' (view (dbToUse tx) w))
                                           (counted w))) = rows')
    by (by rewrite view_with_view).
  split.
  - rewrite getString_result, Hview.
    destruct (gorm.First _ (tbl_settings (view (dbToUse tx) w))) as [old|e|p] eqn:Hfound.
    + subst rows'.
      rewrite (First_replaced (Hrow := gorm.Row_Setting) _
                 (Setting.set_Value (valueStr v) old) old _ Hfound eq_refl); [done|].
      apply First_Ok_inv in Hfound as [_ Hkey]. done.
    + apply First_Fail_inv in Hfound as [_ Hnone]. subst rows'.
      unfold gorm.First, gorm.Find. rewrite filter_app, filter_cons, filter_nil.
      rewrite decide_True by (by apply bool_decide_eq_true).
      pose proof (Find_none _ _ Hnone) as Hempty. unfold gorm.Find in Hempty.
      by rewrite Hempty.
    + exfalso. unfold gorm.First in Hfound. by destruct (gorm.Find _ _).
  - intros key' Hne. rewrite !getString_result, Hview. cbn [snd].
    assert (gorm.Find (λ r, bool_decide (Setting.Key r = key')) rows'
            = gorm.Find (λ r, bool_decide (Setting.Key r = key')) (tbl_settings (view (dbToUse tx) w)))
      as Hsame; [|by unfold gorm.First; rewrite Hsame].
    destruct (gorm.First _ (tbl_settings (view (dbToUse tx) w))) as [old|e|p] eqn:Hfound; subst rows'.
    + apply First_Ok_inv in Hfound as [Hold Hkey]. apply bool_decide_eq_true in Hkey.
      apply (Find_replaced_other (Hrow := gorm.Row_Setting) _
               (Setting.set_Value (valueStr v) old) old); [done..| |].
      * apply bool_decide_eq_false. congruence.
      * apply bool_decide_eq_false. simpl. congruence.
    + unfold gorm.Find. rewrite filter_app, filter_cons, filter_nil.
      rewrite decide_False; [by rewrite app_nil_r|].
      rewrite bool_decide_eq_false_2; [done|]. simpl. congruence.
    + unfold gorm.Find. rewrite filter_app, filter_cons, filter_nil.
      rewrite decide_False; [by rewrite app_nil_r|].
      rewrite bool_decide_eq_false_2; [done|]. simpl. congruence.
Qed.

(** A setting that Update wrote is the one getString reads: the value as
    Update validated and printed it; the other keys read as before. The
    store is one whose setting rows have distinct, non-zero primary keys. *)
Theorem Update_then_getString (tx : option handle) (key value : string) (w w' : World)
    (Hids : Forall (λ r, Setting.Id r ≠ 0%N) (tbl_settings (view (dbToUse tx) w)))
    (Hkeys : NoDup (Setting.Id <$> tbl_settings (view (dbToUse tx) w)))
    (Hrun : SettingService_Update tx key value w = (w', Ok tt)) :
  ∃ v,
    typedValue key value = Ok v ∧
    getString (dbToUse tx) key w' = (w', Ok (valueStr v)) ∧
    ∀ key', key' ≠ key → (getString (dbToUse tx) key' w').2 = (getString (dbToUse tx) key' w).2.
Proof. exact (Update_read_back tx key value w w' Hids Hkeys Hrun). Qed.

End SettingStore.

(** The path of the panel, stored with its slashes and written again
    without them. *)
Lemma Update_then_getString_witness :
  let w := Scenario.world None false
             (set_settings [Setting.mk 1 "webPath" "/app/"] Scenario.empty_db) in
  let w' := (SettingService_Update (Some TheTx) "webPath" "panel" w).1 in
  getString TheTx "webPath" w' = (w', Ok "/panel/").
Proof.
  intros w w'.
  destruct (Update_then_getString (Some TheTx) "webPath" "panel" w w') as (v & Hv & Hget & _).
  - repeat constructor. done.
  - apply NoDup_singleton.
  - apply injective_projections; [reflexivity | vm_compute; reflexivity].
  - vm_compute in Hv. injection Hv as <-. exact Hget.
Defined.

(** ** The paths of the panel and of the subscription server *)

Section Paths.
Context `{Collaborators}.

(** SettingService.GetWebPath. *)
Definition SettingService_GetWebPath : M string :=
  webPath <- getString TheDB "webPath" ;;
  if negb (bool_decide (webPath = "")) then
    let webPath := if negb (strings.HasPrefix webPath "/") then "/" +:+ webPath else webPath in
    let webPath := if negb (strings.HasSuffix webPath "/") then webPath +:+ "/" else webPath in
    ret webPath
  else ret webPath.

(** SettingService.SetWebPath. *)
Definition SettingService_SetWebPath (webPath : string) : M unit :=
  SettingService_Update None "webPath" webPath.

(** SettingService.GetSubPath. *)
Definition SettingService_GetSubPath : M string :=
  subPath <- getString TheDB "subPath" ;;
  if negb (bool_decide (subPath = "")) then
    let subPath := if negb (strings.HasPrefix subPath "/") then "/" +:+ subPath else subPath in
    let subPath := if negb (strings.HasSuffix subPath "/") then subPath +:+ "/" else subPath in
    ret subPath
  else ret subPath.

(** SettingService.SetSubPath. *)
Definition SettingService_SetSubPath (subPath : string) : M unit :=
  SettingService_Update None "subPath" subPath.

(** A path that has its slashes is left as it is. *)
Lemma normalizePath_fixed (value : string) :
  strings.HasPrefix value "/" = true → strings.HasSuffix value "/" = true →
  normalizePath value = value.
Proof. intros Hp Hs. unfold normalizePath. cbv zeta. rewrite Hp. cbn [negb]. by rewrite Hs. Qed.

Lemma normalizePath_idempotent (value : string) :
  normalizePath (normalizePath value) = normalizePath value.
Proof. destruct (normalizePath_slashes value). by apply normalizePath_fixed. Qed.

Lemma normalizePath_nonempty (value : string) : normalizePath value ≠ "".
Proof.
  intros Hempty. destruct (normalizePath_slashes value) as [Hp _].
  rewrite Hempty in Hp. done.
Qed.

(** An update whose value passes the first switch succeeds on a store
    whose setting rows have non-zero keys. *)
Lemma Update_succeeds (tx : option handle) (key value : string) (v : typed) (w : World) :
  typedValue key value = Ok v →
  Forall (λ r, Setting.Id r ≠ 0%N) (tbl_settings (view (dbToUse tx) w)) →
  ∃ w', SettingService_Update tx key value w = (w', Ok tt).
Proof.
  intros Hv Hids. rewrite (Update_typed _ _ _ _ _ Hv).
  change (default TheDB tx) with (dbToUse tx).
  unfold saveSetting. unfold wrapM. rewrite (bind_Ok _ _ _ _ _ (query_run _ _ _)).
  destruct (gorm.First _ _) as [old|e|p] eqn:Hfound.
  - apply First_Ok_inv in Hfound as [Hold _]. unfold exec. cbv beta.
    rewrite (Save_replaces (Hrow := gorm.Row_Setting)); [by eexists| | |done].
    + by apply (proj1 (Forall_forall _ _) Hids old).
    + by apply (list_elem_of_fmap_2 Setting.Id) in Hold.
  - apply First_Fail_inv in Hfound as [-> _]. unfold exec. cbv beta.
    rewrite (Save_inserts (Hrow := gorm.Row_Setting) (Setting.mk 0 key (valueStr v))) by done.
    by eexists.
  - exfalso. unfold gorm.First in Hfound. by destruct (gorm.Find _ _).
Qed.

(** SetWebPath followed by GetWebPath: whatever path is given, the write
    succeeds and the path read back is the given one with a leading and a
    trailing slash added where they were missing (the empty path reads
    back as "/"); writing the path that was read back changes nothing
    more. The same holds for SetSubPath and GetSubPath. The store is one
    whose setting rows have distinct, non-zero primary keys. *)
Theorem SetPath_then_GetPath (path : string) (w : World)
    (Hids : Forall (λ r, Setting.Id r ≠ 0%N) (tbl_settings (durable w)))
    (Hkeys : NoDup (Setting.Id <$> tbl_settings (durable w))) :
  (∃ w', SettingService_SetWebPath path w = (w', Ok tt) ∧
         SettingService_GetWebPath w' = (w', Ok (normalizePath path))) ∧
  (∃ w', SettingService_SetSubPath path w = (w', Ok tt) ∧
         SettingService_GetSubPath w' = (w', Ok (normalizePath path))) ∧
  strings.HasPrefix (normalizePath path) "/" = true ∧
  strings.HasSuffix (normalizePath path) "/" = true ∧
  normalizePath (normalizePath path) = normalizePath path.
Proof.
  destruct (normalizePath_slashes path) as [Hp Hs].
  assert (Hread : ∀ key, key ∈ ["webPath"; "subPath"] →
            ∃ w', SettingService_Update None key path w = (w', Ok tt) ∧
                  getString TheDB key w' = (w', Ok (normalizePath path))).
  { intros key Hkey. pose proof (typedValue_path key path Hkey) as Hv.
    destruct (Update_succeeds None key path _ w Hv Hids) as [w' Hrun].
    exists w'. split; [done|].
    destruct (Update_read_back None key path w w' Hids Hkeys Hrun) as (v & Hv' & Hget & _).
    rewrite Hv in Hv'. injection Hv' as <-. exact Hget. }
  split; [|split; [|split; [done|split; [done|apply normalizePath_idempotent]]]].
  - destruct (Hread "webPath") as (w' & Hrun & Hget); [left|].
    exists w'. split; [done|]. unfold SettingService_GetWebPath.
    rewrite (bind_Ok _ _ _ _ _ Hget).
    rewrite (bool_decide_eq_false_2 _ (normalizePath_nonempty path)). cbn [negb]. cbv zeta.
    rewrite Hp. cbn [negb]. by rewrite Hs.
  - destruct (Hread "subPath") as (w' & Hrun & Hget); [right; left|].
    exists w'. split; [done|]. unfold SettingService_GetSubPath.
    rewrite (bind_Ok _ _ _ _ _ Hget).
    rewrite (bool_decide_eq_false_2 _ (normalizePath_nonempty path)). cbn [negb]. cbv zeta.
    rewrite Hp. cbn [negb]. by rewrite Hs.
Qed.

End Paths.

Lemma SetPath_then_GetPath_witness :
  let w := Scenario.world None false
             (set_settings [Setting.mk 1 "webPath" "/app/"] Scenario.empty_db) in
  ∃ w', SettingService_SetWebPath "" w = (w', Ok tt) ∧
        SettingService_GetWebPath w' = (w', Ok "/").
Proof.
  intros w. destruct (SetPath_then_GetPath "" w) as ((w' & Hset & Hget) & _).
  - repeat constructor. done.
  - apply NoDup_singleton.
  - exists w'. split; [exact Hset | exact Hget].
Defined.

(** ** The inbounds to restart after a sweep *)

Section UniqueAppend.
(** The order in which [range] visits the keys of a map is not fixed by
    the language: any enumeration of the keys. *)
Variable rangeKeys : gmap N bool → list N.
Hypothesis rangeKeys_keys : ∀ m, rangeKeys m ≡ₚ (map_to_list m).*1.

(** ClientService.uniqueAppendInboundIds. *)
Definition uniqueAppendInboundIds (a b : list N) : list N :=
  let m : gmap N bool := ∅ in
  let m := foldl (λ m v, <[v := true]> m) m a in
  let m := foldl (λ m v, <[v := true]> m) m b in
  rangeKeys m.

Lemma marked_keys (l : list N) (m : gmap N bool) (k : N) :
  is_Some (foldl (λ m v, <[v := true]> m) m l !! k) ↔ k ∈ l ∨ is_Some (m !! k).
Proof.
  revert m. induction l as [|v l IH]; intros m; simpl.
  - split; [by right | intros [?%elem_of_nil|?]; done].
  - rewrite IH, elem_of_cons. destruct (decide (k = v)) as [->|Hne].
    + rewrite lookup_insert_eq. split; [by left; left | by right].
    + rewrite lookup_insert_ne by done. tauto.
Qed.

(** The result lists each id of [a] and of [b] once, in some order, and
    nothing else; it is empty only when both are. *)
Theorem uniqueAppendInboundIds_union (a b : list N) :
  NoDup (uniqueAppendInboundIds a b) ∧
  (∀ id, id ∈ uniqueAppendInboundIds a b ↔ id ∈ a ∨ id ∈ b) ∧
  (length (uniqueAppendInboundIds a b) ≤ length a + length b)%nat ∧
  (uniqueAppendInboundIds a b = [] ↔ a = [] ∧ b = []).
Proof.
  unfold uniqueAppendInboundIds. cbv zeta.
  set (m := foldl _ (foldl _ ∅ a) b).
  assert (Hnd : NoDup (rangeKeys m)).
  { rewrite rangeKeys_keys. apply NoDup_fst_map_to_list. }
  assert (Hin : ∀ id, id ∈ rangeKeys m ↔ id ∈ a ∨ id ∈ b).
  { intros id. rewrite rangeKeys_keys. rewrite list_elem_of_fmap.
    transitivity (is_Some (m !! id)).
    - split.
      + intros ([k v] & -> & Hkv). apply elem_of_map_to_list in Hkv. by eexists.
      + intros [v Hv]. exists (id, v). split; [done|]. by apply elem_of_map_to_list.
    - subst m. rewrite !marked_keys, lookup_empty. split; [|tauto].
      intros [?|[?|[? ?]]]; [tauto|tauto|done]. }
  split; [done|]. split; [done|]. split.
  - rewrite <- length_app. apply submseteq_length, NoDup_submseteq; [done|].
    intros id Hid. apply elem_of_app, Hin, Hid.
  - split.
    + intros Hnil. rewrite Hnil in Hin. split.
      * destruct a as [|x a]; [done|]. exfalso.
        apply (not_elem_of_nil x), Hin. left. left.
      * destruct b as [|x b]; [done|]. exfalso.
        apply (not_elem_of_nil x), Hin. right. left.
    + intros [-> ->]. destruct (rangeKeys m) as [|x l] eqn:Hl; [done|]. exfalso.
      assert (x ∈ x :: l) as Hx by left. apply Hin in Hx as [?%elem_of_nil|?%elem_of_nil]; done.
Qed.

End UniqueAppend.

Lemma uniqueAppendInboundIds_union_witness :
  let res := uniqueAppendInboundIds (λ m, (map_to_list m).*1) [3; 1; 3]%N [1; 2]%N in
  NoDup res ∧ (∀ id, id ∈ res ↔ id ∈ [3; 1; 3]%N ∨ id ∈ [1; 2]%N).
Proof.
  intros res.
  destruct (uniqueAppendInboundIds_union (λ m, (map_to_list m).*1) (λ m, reflexivity _)
              [3; 1; 3]%N [1; 2]%N) as (Hnd & Hin & _).
  split; [exact Hnd | exact Hin].
Defined.

(** ** The sweep that disables depleted clients *)

Section Deplete.
Context `{Collaborators}.
(** The order of [range] over a map, and what [json.Unmarshal] leaves in
    the slice it was decoding into when it reports an error. *)
Variable rangeKeys : gmap N bool → list N.
Variable decodedSoFar : RawMessage → list N.

Definition set_Enable (v : bool) (x : Client.t) : Client.t :=
  Client.mk (Client.Id x) v (Client.Name x) (Client.Config x) (Client.Inbounds x)
    (Client.Links x) (Client.Volume x) (Client.Expiry x) (Client.Up x) (Client.Down x).

(** [enable = true AND ((volume > 0 AND up+down > volume) OR
    (expiry > 0 AND expiry < now))]. *)
Definition depleted (now : Z) (c : Client.t) : bool :=
  Client.Enable c
  && (((0 <? Client.Volume c) && (Client.Volume c <? Client.Up c + Client.Down c))
      || ((0 <? Client.Expiry c) && (Client.Expiry c <? now))).

(** The double-quote character. *)
Definition quote : string := String (ascii_of_N 34) EmptyString.

(** The record of the change log for one disabled client. *)
Definition disableRecord (dt : Z) (client : Client.t) : Changes.t :=
  Changes.mk 0 dt "DepleteJob" "clients" "disable"
    (raw_of_string (quote +:+ Client.Name client +:+ quote)).

(** The loop over the depleted clients: the inbounds to restart. *)
Definition depletedInbounds (clients : list Client.t) : list N :=
  foldl (λ inboundIds client,
           let userInbounds :=
             match Client.Inbounds client with
             | RawNil => []
             | inbounds =>
                 match Json.Unmarshal_uints inbounds with
                 | Ok userInbounds => userInbounds
                 | _ => decodedSoFar inbounds        (* logged; the error is cleared *)
                 end
             end in
           uniqueAppendInboundIds rangeKeys inboundIds userInbounds)
        [] clients.

(** [Create(&changes)]: the records are inserted one after the other. *)
Definition createAll (changes : list Changes.t) (d : DB) : outcome (unit * DB) :=
  foldl (λ acc change, st <~ acc ;; createChange change st.2) (Ok (tt, d)) changes.

(** The body of DepleteClients, between [db.Begin()] and the deferred
    function. The clock is read twice, for the condition and for the
    records; it does not move during a call. *)
Definition depleteBody : M (list N) :=
  now0 <- gets now ;;
  clients <- query TheTx (λ d, gorm.Find (depleted now0) (tbl_clients d)) ;;
  dt <- gets now ;;
  let inboundIds := depletedInbounds clients in
  let changes := disableRecord dt <$> clients in
  _ <- (if decide (0 < length changes)%nat then
          _ <- wrapM "failed to update clients to disabled state during depletion: "
                 (exec TheTx (λ d, Ok (tt, set_clients
                    ((λ c, if depleted now0 c then set_Enable false c else c)
                       <$> tbl_clients d) d))) ;;
          _ <- wrapM "failed to create change log during client depletion: "
                 (exec TheTx (createAll changes)) ;;
          set_LastUpdate dt
        else ret tt) ;;
  ret inboundIds.

(** ClientService.DepleteClients. The deferred function commits when the
    body returned without an error, and then restarts the inbounds
    through the handle of the transaction; it rolls back otherwise. It does
    not recover: a panic of the body passes through it, with [err] nil. *)
Definition DepleteClients : M unit :=
  λ w,
    let '(w0, _) := Begin w in
    match depleteBody w0 with
    | (w1, Ok inboundIds) =>
        let '(w2, _) := Commit w1 in
        (running <- gets (λ w, IsRunning (core w)) ;;
         _ <- (if bool_decide (0 < length inboundIds)%nat && running
               then try (InboundService_RestartInbounds TheTx inboundIds)
               else ret None) ;;
         ret tt) w2
    | (w1, Fail err) => let '(w2, _) := Rollback w1 in (w2, Fail err)
    | (w1, Panic p) => let '(w2, _) := Commit w1 in (w2, Panic p)
    end.

(** The table after [Update("enable", false)] on the depleted clients. *)
Definition disabled (now : Z) (clients : list Client.t) : list Client.t :=
  (λ c, if depleted now c then set_Enable false c else c) <$> clients.

Lemma disabled_none (now : Z) (clients : list Client.t) :
  gorm.Find (depleted now) clients = [] → disabled now clients = clients.
Proof.
  unfold gorm.Find, disabled. induction clients as [|c clients IH]; [done|].
  rewrite filter_cons, fmap_cons. destruct (depleted now c) eqn:Hc.
  - by rewrite decide_True.
  - rewrite decide_False by done. intros Hnone. by rewrite IH.
Qed.

Lemma disabled_not_depleted (now : Z) (clients : list Client.t) :
  Forall (λ c, depleted now c = false) (disabled now clients).
Proof.
  unfold disabled. apply Forall_fmap, Forall_forall. intros c _. simpl.
  destruct (depleted now c) eqn:Hc; [done | exact Hc].
Qed.

(** The records of a batch, as stored: each under a key of its own. *)
Lemma createAll_appends (changes : list Changes.t) (d : DB) :
  Forall (λ ch, Changes.Id ch = 0%N) changes →
  ∃ added,
    createAll changes d = Ok (tt, set_changes (tbl_changes d ++ added) d) ∧
    Forall2 (λ stored ch, stored = gorm.set_pk (Changes.Id stored) ch) added changes.
Proof.
  unfold createAll. intros Hzero.
  assert (Hgen : ∀ d0 : DB, ∃ added,
            foldl (λ acc change, st <~ acc ;; createChange change st.2) (Ok (tt, d0)) changes
              = Ok (tt, set_changes (tbl_changes d0 ++ added) d0) ∧
            Forall2 (λ stored ch, stored = gorm.set_pk (Changes.Id stored) ch) added changes).
  { induction Hzero as [|ch changes Hch Hzero IH]; intros d0.
    - exists []. split; [|constructor]. simpl. rewrite app_nil_r. by destruct d0.
    - simpl. unfold createChange at 2.
      rewrite (Save_inserts (Hrow := gorm.Row_Changes) ch) by done. cbn [obind fst snd].
      destruct (IH (set_changes (tbl_changes d0 ++ [gorm.set_pk (gorm.next_pk (tbl_changes d0)) ch])
                      d0)) as (added & -> & Hadded).
      exists (gorm.set_pk (gorm.next_pk (tbl_changes d0)) ch :: added).
      split; [|by constructor].
      destruct d0. simpl. by rewrite <- app_assoc. }
  apply Hgen.
Qed.

#[local] Existing Instances committed_refl committed_trans.

Lemma RestartInbounds_committed (ids : list N) :
  keeps committed (InboundService_RestartInbounds TheTx ids).
Proof.
  unfold InboundService_RestartInbounds.
  pose proof committed_core_call. pose proof committed_addUsers. keeps_auto.
Qed.

(** What the sweep leaves in the store, whatever it returns: every client
    that was enabled and over its volume or past its expiry is disabled,
    and no other client is touched, so that no depleted client is left; the
    change log grows by one "disable" record per disabled client, in their
    order, stamped with the time of the sweep and naming the client; the
    watermark moves to that time when a client was disabled and stays
    otherwise. No constraint of the store makes the sweep return an
    error. *)
Theorem DepleteClients_disables (w : World) :
  let w' := (DepleteClients w).1 in
  let gone := gorm.Find (depleted (now w)) (tbl_clients (durable w)) in
  tbl_clients (durable w') = disabled (now w) (tbl_clients (durable w)) ∧
  Forall (λ c, depleted (now w) c = false) (tbl_clients (durable w')) ∧
  (∃ added,
     tbl_changes (durable w') = tbl_changes (durable w) ++ added ∧
     Forall2 (λ stored c, stored = gorm.set_pk (Changes.Id stored) (disableRecord (now w) c))
             added gone) ∧
  LastUpdate w' = (if decide (gone = []) then LastUpdate w else now w) ∧
  (∀ e, (DepleteClients w).2 ≠ Fail e).
Proof.
  intros w' gone.
  (* the body *)
  assert (Hbody : ∃ w1 ids added,
            depleteBody (Begin w).1 = (w1, Ok ids) ∧
            tbl_clients (txn w1) = disabled (now w) (tbl_clients (durable w)) ∧
            tbl_changes (txn w1) = tbl_changes (durable w) ++ added ∧
            Forall2 (λ stored c,
                       stored = gorm.set_pk (Changes.Id stored) (disableRecord (now w) c))
                    added gone ∧
            LastUpdate w1 = (if decide (gone = []) then LastUpdate w else now w)).
  { unfold depleteBody.
    rewrite (bind_Ok _ _ _ _ _ (gets_run _ _)).
    rewrite (bind_Ok _ _ _ _ _ (query_run _ _ _)).
    rewrite (bind_Ok _ _ _ _ _ (gets_run _ _)).
    change (now (Begin w).1) with (now w).
    change (tbl_clients (view TheTx (Begin w).1)) with (tbl_clients (durable w)).
    fold gone. cbv zeta. rewrite length_fmap.
    destruct (decide (0 < length gone)%nat) as [Hsome|Hnone].
    - destruct (createAll_appends (disableRecord (now w) <$> gone)
                  (set_clients (disabled (now w) (tbl_clients (durable w))) (durable w)))
        as (added & Hcreate & Hadded).
      { apply Forall_fmap, Forall_forall. by intros c _. }
      rewrite ?bind_assoc.
      assert (Hupdate :
        exec TheTx (λ d, Ok (tt, set_clients
                      ((λ c, if depleted (now w) c then set_Enable false c else c)
                         <$> tbl_clients d) d)) (Begin w).1
        = (with_view TheTx (set_clients (disabled (now w) (tbl_clients (durable w)))
                              (durable w)) (counted (Begin w).1), Ok tt)) by reflexivity.
      set (w1 := with_view TheTx (set_clients (disabled (now w) (tbl_clients (durable w)))
                                    (durable w)) (counted (Begin w).1)) in Hupdate.
      rewrite (bind_Ok _ _ _ _ _ (wrapM_Ok _ _ _ _ _ Hupdate)).
      rewrite ?bind_assoc.
      rewrite (bind_Ok _ _ _ _ _
                 (wrapM_Ok _ _ _ _ _ (exec_Ok TheTx (createAll _) w1 tt _ Hcreate))).
      rewrite ?bind_assoc. unfold set_LastUpdate, modify.
      eexists. exists (depletedInbounds gone), added. split; [reflexivity|].
      split; [done|]. split; [done|]. split.
      + by apply Forall2_fmap_r in Hadded.
      + rewrite decide_False; [done|]. intros Hnil. rewrite Hnil in Hsome. simpl in Hsome. lia.
    - assert (gone = []) as Hnil by (destruct gone; [done | simpl in Hnone; lia]).
      rewrite (bind_Ok _ _ _ _ _ (ret_run _ _)).
      eexists. exists (depletedInbounds gone), []. split; [reflexivity|].
      split; [by rewrite disabled_none|]. split; [by rewrite app_nil_r|].
      split; [rewrite Hnil; constructor|]. by rewrite decide_True. }
  destruct Hbody as (w1 & ids & added & Hbody & Hclients & Hchanges & Hadded & Hlast).
  (* the deferred function *)
  assert (Hrun : ∃ w2 r, DepleteClients w = (w2, r) ∧ (∀ e, r ≠ Fail e) ∧
                         durable w2 = txn w1 ∧ LastUpdate w2 = LastUpdate w1).
  { unfold DepleteClients. change (let '(w0, _) := Begin w in _)
      with (match depleteBody (Begin w).1 with
            | (w1, Ok inboundIds) =>
                (running <- gets (λ w, IsRunning (core w)) ;;
                 _ <- (if bool_decide (0 < length inboundIds)%nat && running
                       then try (InboundService_RestartInbounds TheTx inboundIds)
                       else ret None) ;;
                 ret tt) (Commit w1).1
            | (w1, Fail err) => ((Rollback w1).1, Fail err)
            | (w1, Panic p) => ((Commit w1).1, Panic p)
            end).
    rewrite Hbody. rewrite (bind_Ok _ _ _ _ _ (gets_run _ _)).
    destruct (bool_decide (0 < length ids)%nat && IsRunning (core (Commit w1).1)).
    - unfold bind, try.
      destruct (InboundService_RestartInbounds TheTx ids (Commit w1).1) as [w2 o] eqn:Hrestart.
      destruct (RestartInbounds_committed ids _ _ _ Hrestart) as [Hd Hl].
      destruct o; do 2 eexists; (split; [reflexivity|]); (split; [done|]); by rewrite Hd, Hl.
    - rewrite (bind_Ok _ _ _ _ _ (ret_run _ _)). do 2 eexists. split; [reflexivity|]. done. }
  destruct Hrun as (w2 & r & Hrun & Hnofail & Hd & Hl).
  subst w'. rewrite Hrun. cbn [fst snd].
  rewrite Hd. split; [done|]. split.
  { rewrite Hclients. apply disabled_not_depleted. }
  split; [by exists added|]. split; [by rewrite Hl|]. exact Hnofail.
Qed.

End Deplete.

(** ** The outbound service and the answers of the core *)

Section OutboundCore.
Context `{Collaborators}.

(** An outbound save does not depend on what the core answers to
    RemoveOutbound. On an edit with a live core, whatever error the removal
    of the old tag returns, the new document is added and, when the core
    accepts it, the row is written and the save succeeds. On a deletion of
    a non-empty tag the rows with that tag are deleted and the save
    succeeds whatever the removal returned. *)
Theorem OutboundSave_removal_best_effort (tx : handle) (w : World) :
  (∀ data outbound config saved d' c1 err c2,
     Outbound_UnmarshalJSON Outbound.zero data = Ok outbound →
     ¬ tagTaken (Hrow := gorm.Row_Outbound) Outbound.Tag "edit" outbound
         (tbl_outbounds (view tx w)) →
     IsRunning (core w) = true →
     Outbound_MarshalJSON outbound = Ok config →
     let oldTag := Pluck Outbound.Tag (λ r, bool_decide (Outbound.Id r = Outbound.Id outbound))
                     "" (tbl_outbounds (view tx w)) in
     oldTag ≠ "" →
     RemoveOutbound oldTag (core w) = (c1, err) →
     AddOutbound config c1 = (c2, None) →
     saveOutbound outbound (view tx w) = Ok (saved, d') →
     OutboundService_Save tx "edit" data w =
       (with_view tx d' (counted (with_core c2 w)), Ok tt)) ∧
  (∀ tag,
     tag ≠ "" →
     ∃ c',
       OutboundService_Save tx "del" (Raw (JStr tag)) w =
         (with_view tx
            (set_outbounds (gorm.Delete (λ r, bool_decide (Outbound.Tag r = tag))
                                        (tbl_outbounds (view tx w))) (view tx w))
            (counted (with_core c' w)), Ok tt)).
Proof.
  split.
  - intros data outbound config saved d' c1 err c2 Hdecode Hfree Hrunning Hconfig oldTag
      Hold Hremove Hadd Hsave.
    unfold OutboundService_Save. rewrite decide_True by auto.
    rewrite bind_lift, Hdecode. cbn [wrap].
    rewrite bind_lift, (bool_decide_eq_false_2 _ (Outbound_UnmarshalJSON_tag _ _ Hdecode)).
    cbn [negb check].
    rewrite (bind_Ok _ _ _ _ _ (query_run _ _ _)).
    destruct (0 <? _) eqn:Hcount; [by apply outbound_count_taken in Hcount|].
    cbn [negb check]. rewrite bind_lift.
    assert (Hsync : outboundCoreSync tx "edit" outbound w = (with_core c2 w, Ok tt)).
    { unfold outboundCoreSync. rewrite (bind_Ok _ _ _ _ _ (gets_run _ _)), Hrunning.
      rewrite bind_lift, Hconfig. cbn [wrap]. rewrite decide_True by done.
      rewrite ?bind_assoc. rewrite (bind_Ok _ _ _ _ _ (query_run _ _ _)). fold oldTag.
      rewrite (bool_decide_eq_false_2 _ Hold). cbn [negb].
      rewrite ?bind_assoc. rewrite (bind_Ok _ _ _ _ _ (core_call_run _ _ _ _ Hremove)).
      rewrite (bind_Ok _ _ _ _ _ (ret_run _ _)).
      assert (Hadd' : AddOutbound config (core (with_core c1 w)) = (c2, None)) by done.
      rewrite (bind_Ok _ _ _ _ _ (core_call_run _ _ _ _ Hadd')). done. }
    rewrite (bind_Ok _ _ _ _ _ Hsync).
    assert (Hsave' : saveOutbound outbound (view tx (with_core c2 w)) = Ok (saved, d'))
      by (by destruct tx).
    rewrite (bind_Ok _ _ _ _ _ (wrapM_Ok _ _ _ _ _ (exec_Ok _ _ _ _ _ Hsave'))). done.
  - intros tag Htag. unfold OutboundService_Save.
    rewrite decide_False by (intros [?|?]; done). rewrite decide_True by done.
    cbn [Json.Unmarshal_string wrap]. rewrite (bind_lift_Ok _ _ _ _ eq_refl).
    rewrite bind_lift, (bool_decide_eq_false_2 _ Htag). cbn [negb check].
    rewrite (bind_Ok _ _ _ _ _ (gets_run _ _)).
    destruct (IsRunning (core w)).
    + destruct (RemoveOutbound tag (core w)) as [c' err] eqn:Hremove. exists c'.
      rewrite ?bind_assoc. rewrite (bind_Ok _ _ _ _ _ (core_call_run _ _ _ _ Hremove)).
      rewrite (bind_Ok _ _ _ _ _ (ret_run _ _)). unfold exec. by destruct tx.
    + exists (core w). rewrite (bind_Ok _ _ _ _ _ (ret_run _ _)). unfold exec.
      by destruct tx, w.
Qed.

End OutboundCore.

(** An edit of the outbound "out2" against a live core whose removals
    fail. *)
Lemma OutboundSave_removal_best_effort_witness :
  let w := Scenario.world (Some (Error "core busy")) true
             (set_outbounds [direct_outbound] Scenario.empty_db) in
  let data := Raw (JObj (list_to_map [ ("id", JNum 2); ("type", JStr "direct");
                                       ("tag", JStr "out2-renamed") ])) in
  let r := OutboundService_Save TheTx "edit" data w in
  r.2 = Ok tt ∧
  Outbound.Tag <$> tbl_outbounds (txn r.1) = ["out2-renamed"] ∧
  Scenario.calls (core r.1) =
    [ Scenario.CRemove "outbound" "out2";
      Scenario.CAdd "outbound" (JObj {[ "tag" := JStr "out2-renamed"; "type" := JStr "direct" ]}) ].
Proof.
  intros w data r.
  pose proof (proj1 (OutboundSave_removal_best_effort TheTx w) data
                (Outbound.mk 2 "direct" "out2-renamed" RawNil)
                (JObj {[ "tag" := JStr "out2-renamed"; "type" := JStr "direct" ]})
                (Outbound.mk 2 "direct" "out2-renamed" RawNil)
                (set_outbounds [Outbound.mk 2 "direct" "out2-renamed" RawNil] Scenario.empty_db)
                (Scenario.mkCore true [Scenario.CRemove "outbound" "out2"])
                (Some (Error "core busy"))
                (Scenario.mkCore true
                   [ Scenario.CRemove "outbound" "out2";
                     Scenario.CAdd "outbound"
                       (JObj {[ "tag" := JStr "out2-renamed"; "type" := JStr "direct" ]}) ])
                eq_refl) as Hrun.
  subst r. rewrite Hrun.
  - repeat split.
  - intros (r0 & Hr0 & Htag & Hid). apply list_elem_of_singleton in Hr0 as ->. by apply Hid.
  - reflexivity.
  - vm_compute. reflexivity.
  - done.
  - reflexivity.
  - reflexivity.
  - reflexivity.
Defined.

(** ** Validated peers and their address ranges *)

Section ValidatedPeers.
Context `{Collaborators}.

Lemma allowedIPsOfPeer_length (i j : nat) (entries : list json) (ips : list string) :
  allowedIPsOfPeer i j entries = Ok ips → length ips = length entries.
Proof.
  revert j ips. induction entries as [|entry entries IH]; intros j ips; simpl.
  - by intros [= <-].
  - destruct entry; try done.
    intros (ips' & Hrest & [= <-])%obind_Ok_inv. simpl. f_equal. by eapply IH.
Qed.

Lemma allowedIPsOfPeer_no_panic (i j : nat) (entries : list json) (p : string) :
  allowedIPsOfPeer i j entries ≠ Panic p.
Proof.
  revert j. induction entries as [|entry entries IH]; intros j; simpl; [done|].
  destruct entry; try done.
  specialize (IH (S j)). by destruct (allowedIPsOfPeer i (S j) entries).
Qed.

(** The peers that pass validatePeers each advertise a range, so the
    ranges extracted from them are not empty. *)
Lemma validated_peers_ranges (i : nat) (peers : list json) :
  peers ≠ [] → validatePeers i peers = Ok tt →
  (∀ p, allowedIPsOfPeers i peers ≠ Panic p) ∧
  ∀ ips, allowedIPsOfPeers i peers = Ok ips → ips ≠ [].
Proof.
  revert i. induction peers as [|peer peers IH]; intros i Hne; [done|]. clear Hne.
  simpl. destruct peer as [| | | | |peer]; try done.
  intros Hvalid.
  repeat match type of Hvalid with
    | obind (check ?b ?e) _ = _ =>
        let Hb := fresh "Hb" in
        let Hc := fresh "Hc" in
        destruct (check_cases b e) as [[Hb Hc] | [_ Hc]]; rewrite Hc in Hvalid; clear Hc;
        [cbn [obind] in Hvalid | cbn [obind] in Hvalid; done]
    end.
  destruct (peer !! "allowed_ips") as [[| | | |allowed|]|]; try by simplify_eq/=.
  assert (Hsome : allowed ≠ []) by (destruct allowed; by simplify_eq/=).
  split.
  - intros p. pose proof (allowedIPsOfPeer_no_panic i 0 allowed p).
    destruct (allowedIPsOfPeer i 0 allowed) as [mine| |]; [|done..]. cbn [obind].
    destruct peers as [|peer' peers]; [done|].
    destruct (IH (S i)) as [Hnp _]; [done|done|].
    specialize (Hnp p). by destruct (allowedIPsOfPeers (S i) (peer' :: peers)).
  - intros ips (mine & Hmine & (others & _ & [= <-])%obind_Ok_inv)%obind_Ok_inv.
    apply allowedIPsOfPeer_length in Hmine. destruct mine, allowed; done.
Qed.

(** A wireguard or warp candidate that passed the peer validation of
    Save advertises at least one address range, unless an entry of an
    allowed_ips array is not a string, which fails the extraction: the
    case of no range at all, which the range check of Save skips, does not
    occur after the validation. *)
Theorem validated_endpoint_has_ranges (endpoint : Endpoint.t) (endpointOpts : gmap string json)
    (Hwg : isWireguard (Endpoint.Typ endpoint) = true)
    (Hopts : endpointOptions endpoint = Ok endpointOpts)
    (Hvalid : wireguardValidation endpoint endpointOpts = Ok tt) :
  match extractAllowedIPsFromOptions (Endpoint.Options endpoint) with
  | Ok newAllowedIPs => newAllowedIPs ≠ []
  | Fail _ => True
  | Panic _ => False
  end.
Proof.
  unfold endpointOptions in Hopts. rewrite Hwg in Hopts.
  unfold wireguardValidation in Hvalid. rewrite Hwg in Hvalid.
  unfold extractAllowedIPsFromOptions.
  destruct (Endpoint.Options endpoint) as [| |options] eqn:Hoptions;
    [by simplify_eq/= | by simplify_eq/= |].
  destruct (Json.Unmarshal_map (Raw options)) as [opts| |]; [|by simplify_eq/=..].
  injection Hopts as ->. cbn [wrap obind].
  destruct (endpointOpts !! "peers") as [[| | | |peers|]|]; try done.
  simpl in Hvalid. destruct peers as [|peer peers]; [done|].
  destruct (validated_peers_ranges 0 (peer :: peers)) as [Hnp Hsome]; [done|done|].
  destruct (allowedIPsOfPeers 0 (peer :: peers)) as [ips|e|p]; [by apply Hsome | done |].
  by apply (Hnp p).
Qed.

End ValidatedPeers.

Lemma validated_endpoint_has_ranges_witness :
  extractAllowedIPsFromOptions (Endpoint.Options ep1) = Ok ["10.0.0.0/24"] ∧
  ["10.0.0.0/24"] ≠ @nil string.
Proof.
  pose proof (validated_endpoint_has_ranges ep1
                {[ "peers" := Scenario.peers ["10.0.0.0/24"] ]} eq_refl eq_refl eq_refl) as Hsome.
  split; [reflexivity | exact Hsome].
Defined.

(** ** The outbound list view *)

Section OutboundView.
Context `{Collaborators}.

(** A value of the list view's [map[string]interface{}]: a column of the
    row, or a member of its decoded options. *)
Inductive field : Type :=
| FUint (n : N)
| FString (s : string)
| FJson (j : json).

(** The map OutboundService.GetAll builds for one outbound. *)
Definition outboundData (outbound : Outbound.t) : gmap string field :=
  let outData : gmap string field :=
    <["tag" := FString (Outbound.Tag outbound)]>
      (<["type" := FString (Outbound.Typ outbound)]>
         (<["id" := FUint (Outbound.Id outbound)]> ∅)) in
  match Outbound.Options outbound with
  | RawNil => outData
  | options =>
      match Json.Unmarshal_map options with
      | Ok restFields => (FJson <$> restFields) ∪ outData
      | _ => outData            (* logged; the options are skipped *)
      end
  end.

(** OutboundService.GetAll. *)
Definition OutboundService_GetAll : M (list (gmap string field)) :=
  outbounds <- query TheDB tbl_outbounds ;;
  ret (outboundData <$> outbounds).

(** The list view copies the options over the columns, so a member of the
    options named like a column hides it. The options that
    UnmarshalJSON makes of a payload have no such member: for an outbound
    decoded from a payload the view shows the id, type and tag of the row
    and, under every other name, the member of the payload. *)
Theorem outboundData_of_payload (data : RawMessage) (outbound : Outbound.t)
    (Hdecode : Outbound_UnmarshalJSON Outbound.zero data = Ok outbound) :
  ∃ raw,
    Json.Unmarshal_map data = Ok raw ∧
    ∀ id,
      let stored := Outbound.mk id (Outbound.Typ outbound) (Outbound.Tag outbound)
                      (Outbound.Options outbound) in
      outboundData stored !! "id" = Some (FUint id) ∧
      outboundData stored !! "type" = Some (FString (Outbound.Typ outbound)) ∧
      outboundData stored !! "tag" = Some (FString (Outbound.Tag outbound)) ∧
      ∀ k, k ∉ ["id"; "type"; "tag"] → outboundData stored !! k = FJson <$> raw !! k.
Proof.
  destruct (Outbound_UnmarshalJSON_inv data outbound Hdecode)
    as (raw & Hraw & Htag & Hne & Htyp & Hid & Hopts).
  exists raw. split; [done|]. intros id stored.
  set (rest := delete "tag" (delete "type" (delete "id" raw))) in *.
  assert (Hdata : outboundData stored =
            (FJson <$> rest) ∪ <["tag" := FString (Outbound.Tag outbound)]>
              (<["type" := FString (Outbound.Typ outbound)]> (<["id" := FUint id]> ∅))).
  { unfold outboundData, stored. cbn [Outbound.Options Outbound.Tag Outbound.Typ Outbound.Id].
    simpl in Hopts. rewrite Hopts. destruct (decide (size rest = 0%nat)) as [Hempty|Hsome].
    - apply map_size_empty_inv in Hempty. rewrite Hempty, fmap_empty.
      by rewrite (left_id_L ∅ (∪)).
    - done. }
  rewrite Hdata. subst rest.
  split; [|split; [|split]].
  - rewrite lookup_union, lookup_fmap.
    rewrite !lookup_delete_ne, lookup_delete_eq by done.
    by rewrite !lookup_insert_ne, lookup_insert_eq by done.
  - rewrite lookup_union, lookup_fmap.
    rewrite lookup_delete_ne, lookup_delete_eq by done.
    by rewrite lookup_insert_ne, lookup_insert_eq by done.
  - rewrite lookup_union, lookup_fmap, lookup_delete_eq. by rewrite lookup_insert_eq.
  - intros k Hk.
    assert (k ≠ "id" ∧ k ≠ "type" ∧ k ≠ "tag") as (? & ? & ?)
      by (repeat split; intros ->; apply Hk; repeat first [left; reflexivity | right]).
    rewrite lookup_union, lookup_fmap.
    rewrite !lookup_delete_ne, !lookup_insert_ne, lookup_empty by done.
    by destruct (raw !! k).
Qed.

End OutboundView.

Lemma outboundData_of_payload_witness :
  ∃ outbound,
    Outbound_UnmarshalJSON (H := Scenario.collaborators None) Outbound.zero direct_payload
      = Ok outbound ∧
    let view := outboundData (Outbound.mk 9 (Outbound.Typ outbound) (Outbound.Tag outbound)
                                (Outbound.Options outbound)) in
    view !! "id" = Some (FUint 9) ∧ view !! "tag" = Some (FString "out7") ∧
    view !! "domain_strategy" = Some (FJson (JStr "prefer_ipv4")).
Proof.
  eexists. split; [reflexivity|].
  destruct (outboundData_of_payload (H := Scenario.collaborators None) direct_payload _ eq_refl)
    as (raw & Hraw & Hview).
  injection Hraw as <-. destruct (Hview 9%N) as (Hid & _ & Htag & Hrest).
  split; [exact Hid|]. split; [exact Htag|]. rewrite Hrest; [reflexivity|].
  intros Hin. repeat (apply elem_of_cons in Hin as [Hin|Hin]; [discriminate Hin|]).
  by apply elem_of_nil in Hin.
Defined.

(** ** Reading the change log *)

Section RecentChanges.
Context `{Collaborators}.

(** [Order("id desc")]. *)
Definition newerFirst (a b : Changes.t) : Prop := (Changes.Id b ≤ Changes.Id a)%N.

#[local] Instance newerFirst_dec a b : Decision (newerFirst a b).
Proof. unfold newerFirst. apply _. Defined.

(** The conditions GetChanges adds for an actor and a key that are not
    empty. *)
Definition changeMatches (actor chngKey : string) (r : Changes.t) : bool :=
  (bool_decide (String.length actor = 0%nat) || bool_decide (Changes.Actor r = actor))
  && (bool_decide (String.length chngKey = 0%nat) || bool_decide (Changes.Key r = chngKey)).

(** ConfigService.GetChanges. *)
Definition ConfigService_GetChanges (actor chngKey countStr : string) : M (list Changes.t) :=
  match strconv.Atoi countStr with
  | None => fail (NewError ("invalid count parameter '" +:+ countStr
                            +:+ "': strconv.Atoi: parsing " +:+ countStr
                            +:+ ": invalid syntax"))
  | Some c =>
      if c <=? 0 then ret []
      else
        query TheDB (λ d,
          take (Z.to_nat c)
               (merge_sort newerFirst (gorm.Find (changeMatches actor chngKey) (tbl_changes d))))
  end.

#[local] Instance newerFirst_trans : Transitive newerFirst.
Proof. unfold newerFirst. intros a b c. lia. Qed.
#[local] Instance newerFirst_total : Total newerFirst.
Proof. unfold newerFirst. intros a b. lia. Qed.

(** GetChanges answers with the newest records that match, at most as
    many as asked for: it reads nothing when the count is not a number (an
    error) or not positive (no record); otherwise it returns
    min(count, number of matching records) records of the log, each
    matching the actor and the key asked for, newest first, and no
    matching record it leaves out is newer than one it returns. *)
Theorem GetChanges_newest (actor chngKey countStr : string) (w : World) :
  let matching := gorm.Find (changeMatches actor chngKey) (tbl_changes (durable w)) in
  match strconv.Atoi countStr with
  | None => ∃ e, ConfigService_GetChanges actor chngKey countStr w = (w, Fail e)
  | Some c =>
      ∃ chngs,
        ConfigService_GetChanges actor chngKey countStr w = (w, Ok chngs) ∧
        length chngs = Nat.min (Z.to_nat c) (length matching) ∧
        chngs ⊆+ matching ∧
        Forall (λ r, (actor = "" ∨ Changes.Actor r = actor)
                     ∧ (chngKey = "" ∨ Changes.Key r = chngKey)) chngs ∧
        StronglySorted newerFirst chngs ∧
        ∀ x y, x ∈ chngs → y ∈ matching → y ∉ chngs → (Changes.Id y ≤ Changes.Id x)%N
  end.
Proof.
  intros matching. unfold ConfigService_GetChanges.
  destruct (strconv.Atoi countStr) as [c|]; [|by eexists].
  destruct (Z.leb_spec c 0) as [Hle|Hpos].
  { exists []. split; [done|]. replace (Z.to_nat c) with 0%nat by lia.
    split; [done|]. split; [apply submseteq_nil_l|]. split; [constructor|].
    split; [constructor|]. by intros x y ?%elem_of_nil. }
  set (sorted := merge_sort newerFirst matching).
  assert (Hperm : sorted ≡ₚ matching) by apply merge_sort_Permutation.
  assert (Hsorted : StronglySorted newerFirst sorted) by apply (StronglySorted_merge_sort _).
  exists (take (Z.to_nat c) sorted). split; [done|].
  split; [by rewrite length_take, Hperm|].
  split.
  { rewrite <- Hperm. apply sublist_submseteq, sublist_take. }
  split.
  { apply Forall_forall. intros r Hr.
    assert (Hin : r ∈ matching).
    { rewrite <- Hperm. by apply (subseteq_take (Z.to_nat c) sorted). }
    apply list_elem_of_filter in Hin as [Hm _]. unfold changeMatches in Hm.
    apply andb_prop in Hm as [Ha Hk]. split.
    - apply orb_prop in Ha as [Ha|Ha]; apply bool_decide_eq_true in Ha; [left|by right].
      by destruct actor.
    - apply orb_prop in Hk as [Hk|Hk]; apply bool_decide_eq_true in Hk; [left|by right].
      by destruct chngKey. }
  rewrite <- (take_drop (Z.to_nat c) sorted) in Hsorted.
  apply StronglySorted_app in Hsorted as (Hcross & Htake & Hdrop).
  split; [done|].
  intros x y Hx Hy Hout.
  rewrite <- Hperm, <- (take_drop (Z.to_nat c) sorted) in Hy.
  apply elem_of_app in Hy as [Hy|Hy]; [done|]. by apply (Hcross x y Hx Hy).
Qed.

End RecentChanges.

(** ** The settings as the panel lists them *)

Section AllSetting.
Context `{Collaborators}.

(** The body of the loop over defaultValueMap in GetAllSetting. *)
Definition fillDefault (allSetting : gmap string string) (entry : string * string)
  : M (gmap string string) :=
  let '(key, defaultValue) := entry in
  match allSetting !! key with
  | Some _ => ret allSetting
  | None =>
      _ <- saveSetting TheDB key defaultValue ;;
      ret (<[key := defaultValue]> allSetting)
  end.

Fixpoint foldM_ {A B} (f : B → A → M B) (b : B) (l : list A) : M B :=
  match l with
  | [] => ret b
  | x :: l' => b' <- f b x ;; foldM_ f b' l'
  end.

(** SettingService.GetAllSetting. *)
Definition SettingService_GetAllSetting : M (gmap string string) :=
  settings <- query TheDB tbl_settings ;;
  let allSetting : gmap string string :=
    foldl (λ allSetting setting, <[Setting.Key setting := Setting.Value setting]> allSetting)
          ∅ settings in
  allSetting <- foldM_ fillDefault allSetting (mapRange defaultValueMap) ;;
  ret (delete "version" (delete "config" (delete "secret" allSetting))).

(** SettingService.ResetSettings. *)
Definition SettingService_ResetSettings : M unit :=
  exec TheDB (λ d, Ok (tt, set_settings (gorm.Delete (λ _, true) (tbl_settings d)) d)).

Lemma allSetting_keys (settings : list Setting.t) (m : gmap string string) (k : string) :
  is_Some (foldl (λ allSetting setting,
                    <[Setting.Key setting := Setting.Value setting]> allSetting) m settings
           !! k)
  ↔ (∃ r, r ∈ settings ∧ Setting.Key r = k) ∨ is_Some (m !! k).
Proof.
  revert m. induction settings as [|s settings IH]; intros m; simpl.
  - split; [by right|]. intros [(r & ?%elem_of_nil & _)|?]; done.
  - rewrite IH. destruct (decide (k = Setting.Key s)) as [->|Hne].
    + rewrite lookup_insert_eq. split; [|by right]. intros _. left. exists s. split; [left|done].
    + rewrite lookup_insert_ne by done. split.
      * intros [(r & Hr & Hk)|?]; [|by right]. left. exists r. split; [by right|done].
      * intros [(r & Hr & Hk)|?]; [|by right].
        apply elem_of_cons in Hr as [->|Hr]; [congruence|]. left. by exists r.
Qed.

(** saveSetting on a key that no row holds: a row is appended. *)
Lemma saveSetting_missing (key value : string) (w : World) :
  (∀ r, r ∈ tbl_settings (durable w) → Setting.Key r ≠ key) →
  saveSetting TheDB key value w =
    (with_view TheDB
       (set_settings (tbl_settings (durable w)
                      ++ [Setting.mk (gorm.next_pk (tbl_settings (durable w))) key value])
                     (durable w))
       (counted w), Ok tt).
Proof.
  intros Hnone. unfold saveSetting. rewrite (bind_Ok _ _ _ _ _ (query_run _ _ _)).
  unfold gorm.First. rewrite Find_none.
  2:{ intros r Hr. apply bool_decide_eq_false. by apply Hnone. }
  unfold exec. cbv beta.
  change (view TheDB w) with (durable w).
  by rewrite (Save_inserts (Hrow := gorm.Row_Setting) (Setting.mk 0 key value)) by done.
Qed.

(** The rows that were added for the missing keys, each with the default
    of its key. *)
Definition defaultsOf (rows0 : list Setting.t) (added : list Setting.t) : Prop :=
  Forall (λ r, defaultValueMap !! Setting.Key r = Some (Setting.Value r)
               ∧ ∀ r0, r0 ∈ rows0 → Setting.Key r0 ≠ Setting.Key r) added.

(** The loop of GetAllSetting over the entries of the registry. It keeps
    the settings map and the table in step: the keys of the map are the
    keys of the rows, and what it appends to the table are the rows of the
    keys it found missing, one for each, with their defaults. *)
Lemma fillDefaults_run (entries : list (string * string)) (rows0 : list Setting.t) :
  (∀ key value, (key, value) ∈ entries → defaultValueMap !! key = Some value) →
  ∀ (w : World) (allSetting : gmap string string) (added : list Setting.t),
    tbl_settings (durable w) = rows0 ++ added →
    defaultsOf rows0 added →
    NoDup (Setting.Key <$> added) →
    (∀ k, is_Some (allSetting !! k) ↔ ∃ r, (r ∈ rows0 ++ added) ∧ Setting.Key r = k) →
    ∃ w' allSetting' added',
      foldM_ fillDefault allSetting entries w = (w', Ok allSetting') ∧
      tbl_settings (durable w') = rows0 ++ added' ∧
      defaultsOf rows0 added' ∧
      NoDup (Setting.Key <$> added') ∧
      (∀ k, is_Some (allSetting' !! k) ↔ ∃ r, (r ∈ rows0 ++ added') ∧ Setting.Key r = k) ∧
      (∀ k v, allSetting !! k = Some v → allSetting' !! k = Some v) ∧
      (∀ k v, allSetting' !! k = Some v →
              allSetting !! k = Some v ∨ (allSetting !! k = None ∧ (k, v) ∈ entries)) ∧
      (∀ k v, (k, v) ∈ entries → is_Some (allSetting' !! k)).
Proof.
  induction entries as [|[key value] entries IH];
    intros Hentries w allSetting added Hrows Hadded Hnd Hdom.
  - exists w, allSetting, added. split; [done|]. repeat (split; [done|]).
    split; [by left|]. by intros k v ?%elem_of_nil.
  - cbn [foldM_]. unfold fillDefault at 1.
    destruct (allSetting !! key) as [stored|] eqn:Hkey.
    + rewrite (bind_Ok _ _ _ _ _ (ret_run _ _)).
      destruct (IH (λ k v Hkv, Hentries k v (list_elem_of_further _ _ _ Hkv))
                  w allSetting added Hrows Hadded Hnd Hdom)
        as (w' & m' & added' & Hrun & Hrows' & Hadded' & Hnd' & Hdom' & Hkeep & Hfrom & Hall).
      exists w', m', added'. split; [done|]. repeat (split; [done|]). split.
      * intros k v Hk. destruct (Hfrom k v Hk) as [?|[? ?]]; [by left|right].
        split; [done|by right].
      * intros k v [[= -> ->]|Hkv]%elem_of_cons; [|by eapply Hall].
        rewrite (Hkeep _ _ Hkey). by eexists.
    + assert (Hnone : ∀ r, r ∈ tbl_settings (durable w) → Setting.Key r ≠ key).
      { intros r Hr Heq. rewrite Hrows in Hr.
        destruct (proj2 (Hdom key)) as [v Hv]; [by exists r|]. congruence. }
      rewrite ?bind_assoc. rewrite (bind_Ok _ _ _ _ _ (saveSetting_missing key value w Hnone)).
      rewrite (bind_Ok _ _ _ _ _ (ret_run _ _)).
      set (row := Setting.mk (gorm.next_pk (tbl_settings (durable w))) key value).
      set (w1 := with_view TheDB _ (counted w)).
      destruct (IH (λ k v Hkv, Hentries k v (list_elem_of_further _ _ _ Hkv))
                  w1 (<[key := value]> allSetting) (added ++ [row]))
        as (w' & m' & added' & Hrun & Hrows' & Hadded' & Hnd' & Hdom' & Hkeep & Hfrom & Hall).
      * subst w1. simpl. by rewrite Hrows, <- app_assoc.
      * apply Forall_app. split; [done|]. apply Forall_singleton. split.
        -- apply Hentries. left.
        -- intros r0 Hr0. apply Hnone. rewrite Hrows. apply elem_of_app. by left.
      * rewrite fmap_app. apply NoDup_app. split; [done|]. split; [|apply NoDup_singleton].
        intros k (r & -> & Hr)%list_elem_of_fmap Hk. apply list_elem_of_singleton in Hk.
        apply (Hnone r); [|done]. rewrite Hrows. apply elem_of_app. by right.
      * intros k. rewrite app_assoc. destruct (decide (k = key)) as [->|Hne].
        -- rewrite lookup_insert_eq. split; [|by eexists]. intros _. exists row.
           split; [|done]. apply elem_of_app. right. by left.
        -- rewrite lookup_insert_ne by done. rewrite Hdom. split.
           ++ intros (r & Hr & Hk). exists r. split; [|done]. apply elem_of_app. by left.
           ++ intros (r & [Hr|Hr]%elem_of_app & Hk); [by exists r|].
              apply list_elem_of_singleton in Hr as ->. done.
      * exists w', m', added'. split; [done|]. repeat (split; [done|]). split; [|split].
        -- intros k v Hk. apply Hkeep. rewrite lookup_insert_ne; [done|]. congruence.
        -- intros k v Hk. destruct (Hfrom k v Hk) as [Hins|[Hins Hkv]].
           ++ destruct (decide (k = key)) as [->|Hne].
              ** rewrite lookup_insert_eq in Hins. injection Hins as <-. right. split; [done|left].
              ** rewrite lookup_insert_ne in Hins by done. by left.
           ++ destruct (decide (k = key)) as [->|Hne];
                [by rewrite lookup_insert_eq in Hins|].
              rewrite lookup_insert_ne in Hins by done. right. split; [done|by right].
        -- intros k v [[= -> ->]|Hkv]%elem_of_cons; [|by eapply Hall].
           rewrite (Hkeep key value); [by eexists|]. by rewrite lookup_insert_eq.
Qed.

Lemma allSetting_values (settings : list Setting.t) (m : gmap string string) (k v : string) :
  foldl (λ allSetting setting,
           <[Setting.Key setting := Setting.Value setting]> allSetting) m settings !! k = Some v →
  (∃ r, (r ∈ settings) ∧ Setting.Key r = k ∧ Setting.Value r = v) ∨ m !! k = Some v.
Proof.
  revert m. induction settings as [|s settings IH]; intros m; simpl; [by right|].
  intros [(r & Hr & Hk & Hv)|Hm]%IH.
  - left. exists r. split; [by right|done].
  - destruct (decide (k = Setting.Key s)) as [->|Hne].
    + rewrite lookup_insert_eq in Hm. injection Hm as <-. left. exists s. split; [left|done].
    + rewrite lookup_insert_ne in Hm by done. by right.
Qed.

(** Reading a key after the defaults of the missing keys were stored. *)
Lemma getString_defaults (key : string) (w w' : World) (added : list Setting.t) :
  tbl_settings (durable w') = tbl_settings (durable w) ++ added →
  defaultsOf (tbl_settings (durable w)) added →
  (getString TheDB key w').2 = (getString TheDB key w).2.
Proof.
  intros Hrows Hadded. rewrite !getString_result. cbn [snd].
  change (view TheDB w') with (durable w'). change (view TheDB w) with (durable w).
  rewrite Hrows. unfold gorm.First, gorm.Find. rewrite filter_app.
  destruct (filter _ (tbl_settings (durable w))) as [|r0 found] eqn:Hold; [|done].
  rewrite app_nil_l.
  destruct (filter _ added) as [|r found] eqn:Hnew; [done|].
  assert (Hr : r ∈ filter (λ r, bool_decide (Setting.Key r = key) = true) added)
    by (rewrite Hnew; left).
  apply list_elem_of_filter in Hr as [Hkey%bool_decide_eq_true Hr].
  destruct (proj1 (Forall_forall _ _) Hadded r Hr) as [Hdefault _].
  by rewrite <- Hkey, Hdefault.
Qed.

(** GetAllSetting stores the default of every key of the registry that
    has no row: for each such key exactly one row, with the key and its
    default, is appended after the rows that were there, and nothing else
    is written to the table. It answers with the settings without
    "secret", "config" and "version": every other key of the registry is
    listed, with the value of a stored row of that key or, when none was
    stored, its default. Storing the defaults changes no reading: getString
    returns for every key what it returned before. The loop over the
    registry visits its entries. *)
Theorem GetAllSetting_defaults (w : World)
    (Hrange : ∀ key value,
        (key, value) ∈ mapRange defaultValueMap ↔ defaultValueMap !! key = Some value) :
  ∃ w' allSetting added,
    SettingService_GetAllSetting w = (w', Ok allSetting) ∧
    tbl_settings (durable w') = tbl_settings (durable w) ++ added ∧
    defaultsOf (tbl_settings (durable w)) added ∧
    NoDup (Setting.Key <$> added) ∧
    (∀ k v, defaultValueMap !! k = Some v →
            (∀ r, r ∈ tbl_settings (durable w) → Setting.Key r ≠ k) →
            ∃ r, (r ∈ added) ∧ Setting.Key r = k ∧ Setting.Value r = v) ∧
    (∀ k, is_Some (defaultValueMap !! k) →
          ∃ r, (r ∈ tbl_settings (durable w')) ∧ Setting.Key r = k) ∧
    allSetting !! "secret" = None ∧ allSetting !! "config" = None ∧
    allSetting !! "version" = None ∧
    (∀ k, k ∉ ["secret"; "config"; "version"] → is_Some (defaultValueMap !! k) →
          is_Some (allSetting !! k)) ∧
    (∀ k v, allSetting !! k = Some v →
            (∃ r, (r ∈ tbl_settings (durable w)) ∧ Setting.Key r = k ∧ Setting.Value r = v)
            ∨ ((∀ r, r ∈ tbl_settings (durable w) → Setting.Key r ≠ k)
               ∧ defaultValueMap !! k = Some v)) ∧
    (∀ k, (getString TheDB k w').2 = (getString TheDB k w).2).
Proof.
  unfold SettingService_GetAllSetting. rewrite (bind_Ok _ _ _ _ _ (query_run _ _ _)).
  change (view TheDB w) with (durable w). cbv zeta.
  set (rows0 := tbl_settings (durable w)).
  set (m0 := foldl _ ∅ rows0).
  destruct (fillDefaults_run (mapRange defaultValueMap) rows0
              (λ k v Hkv, proj1 (Hrange k v) Hkv) w m0 [])
    as (w' & m' & added & Hrun & Hrows & Hadded & Hnd & Hdom & Hkeep & Hfrom & Hall).
  { by rewrite app_nil_r. }
  { constructor. }
  { constructor. }
  { intros k. rewrite app_nil_r. subst m0. rewrite allSetting_keys.
    split; [intros [?|[? Hempty]]; [done | by rewrite lookup_empty in Hempty] | by left]. }
  rewrite (bind_Ok _ _ _ _ _ Hrun).
  exists w', (delete "version" (delete "config" (delete "secret" m'))), added.
  assert (Hstored : ∀ k, is_Some (defaultValueMap !! k) →
            ∃ r, (r ∈ rows0 ++ added) ∧ Setting.Key r = k).
  { intros k [v Hv]. apply Hdom. apply (Hall k v), Hrange, Hv. }
  split; [done|]. split; [done|]. split; [done|]. split; [done|].
  split.
  { intros k v Hv Hnone. destruct (Hstored k) as (r & Hr & Hk); [by eexists|].
    apply elem_of_app in Hr as [Hr|Hr]; [by destruct (Hnone r Hr)|].
    exists r. split; [done|]. split; [done|].
    destruct (proj1 (Forall_forall _ _) Hadded r Hr) as [Hdefault _].
    rewrite Hk in Hdefault. congruence. }
  split; [by rewrite Hrows|].
  split; [by rewrite !lookup_delete_ne, lookup_delete_eq by done|].
  split; [by rewrite lookup_delete_ne, lookup_delete_eq by done|].
  split; [by rewrite lookup_delete_eq|].
  split; [|split].
  - intros k Hk [v Hv].
    assert (k ≠ "secret" ∧ k ≠ "config" ∧ k ≠ "version") as (? & ? & ?)
      by (repeat split; intros ->; apply Hk; repeat first [left; reflexivity | right]).
    rewrite !lookup_delete_ne by done. apply (Hall k v), Hrange, Hv.
  - intros k v Hk.
    assert (Hm' : m' !! k = Some v).
    { destruct (decide (k = "version")) as [->|?]; [by rewrite lookup_delete_eq in Hk|].
      rewrite lookup_delete_ne in Hk by done.
      destruct (decide (k = "config")) as [->|?]; [by rewrite lookup_delete_eq in Hk|].
      rewrite lookup_delete_ne in Hk by done.
      destruct (decide (k = "secret")) as [->|?]; [by rewrite lookup_delete_eq in Hk|].
      by rewrite lookup_delete_ne in Hk by done. }
    destruct (Hfrom k v Hm') as [Hold|[Hnone Hentry]].
    + subst m0. apply allSetting_values in Hold as [?|Hempty]; [by left|].
      by rewrite lookup_empty in Hempty.
    + right. split; [|by apply Hrange].
      intros r Hr Heq.
      assert (is_Some (m0 !! k)) as [v' Hv']
        by (subst m0; apply allSetting_keys; left; by exists r).
      congruence.
  - intros k. by apply (getString_defaults k w w' added).
Qed.

(** ResetSettings deletes every setting row, whatever was stored; after
    it every key of the registry reads as its default. *)
Theorem ResetSettings_defaults (key value : string) (w : World)
    (Hdefault : defaultValueMap !! key = Some value) :
  ∃ w', SettingService_ResetSettings w = (w', Ok tt) ∧
        tbl_settings (durable w') = [] ∧
        getString TheDB key w' = (w', Ok value).
Proof.
  assert (Hempty : ∀ rows : list Setting.t, gorm.Delete (λ _, true) rows = []).
  { intros rows. unfold gorm.Delete. induction rows as [|r rows IH]; [done|].
    by rewrite filter_cons, decide_False. }
  exists (with_view TheDB (set_settings [] (durable w)) (counted w)).
  split; [|split].
  - unfold SettingService_ResetSettings. apply exec_Ok.
    change (view TheDB w) with (durable w). by rewrite Hempty.
  - reflexivity.
  - rewrite getString_result. f_equal.
    change (tbl_settings (view TheDB _)) with (@nil Setting.t).
    unfold gorm.First, gorm.Find. rewrite filter_nil. by rewrite Hdefault.
Qed.

End AllSetting.

(** A store that holds the path of the panel only: the port of the panel
    is stored with its default, and listed. *)
Lemma GetAllSetting_defaults_witness :
  let w := Scenario.world None false
             (set_settings [Setting.mk 1 "webPath" "/panel/"] Scenario.empty_db) in
  ∃ w' allSetting,
    SettingService_GetAllSetting w = (w', Ok allSetting) ∧
    allSetting !! "secret" = None ∧
    is_Some (allSetting !! "webPort") ∧
    ∃ r, (r ∈ tbl_settings (durable w')) ∧ Setting.Key r = "webPort" ∧ Setting.Value r = "2095".
Proof.
  intros w.
  destruct (GetAllSetting_defaults w)
    as (w' & m & added & Hrun & Hrows & _ & _ & Hstored & _ & Hsecret & _ & _ & Hall & _).
  - intros key value. apply elem_of_map_to_list.
  - exists w', m. split; [exact Hrun|]. split; [exact Hsecret|]. split.
    + apply Hall.
      * intros Hin. repeat (apply elem_of_cons in Hin as [Hin|Hin]; [discriminate Hin|]).
        by apply elem_of_nil in Hin.
      * by eexists.
    + destruct (Hstored "webPort" "2095") as (r & Hr & Hk & Hv).
      * reflexivity.
      * intros r Hr Heq.
        change (tbl_settings (durable w)) with [Setting.mk 1 "webPath" "/panel/"] in Hr.
        apply list_elem_of_singleton in Hr as ->. discriminate Heq.
      * exists r. split; [|split; [exact Hk | exact Hv]].
        rewrite Hrows. apply elem_of_app. right. exact Hr.
Defined.

(** The panel path that was stored is forgotten by a reset. *)
Lemma ResetSettings_defaults_witness :
  let w := Scenario.world None false
             (set_settings [Setting.mk 1 "webPath" "/panel/"] Scenario.empty_db) in
  ∃ w', SettingService_ResetSettings w = (w', Ok tt) ∧
        getString TheDB "webPath" w' = (w', Ok "/app/").
Proof.
  intros w. destruct (ResetSettings_defaults "webPath" "/app/" w) as (w' & Hrun & _ & Hget).
  - reflexivity.
  - exists w'. split; [exact Hrun | exact Hget].
Defined.

(** ** The reserved bytes of a warp peer (service/warp.go) *)

Section Reserved.
(** [base64.StdEncoding.DecodeString]. *)
Variable DecodeString : string → outcome (list Byte.byte).

(** A digit of [fmt]'s [%x]. *)
Definition hexDigit (n : N) : ascii :=
  match String.get (N.to_nat n) "0123456789abcdef" with
  | Some c => c
  | None => "0"%char
  end.

(** [fmt.Sprintf("%02x", char)] for a byte. *)
Definition fmt_02x (char : Byte.byte) : string :=
  String (hexDigit (Byte.to_N char / 16)) (String (hexDigit (Byte.to_N char mod 16)) "").

(** The value of a digit in base 16, as [strconv.ParseInt] reads it. *)
Definition hexValue (c : ascii) : option Z :=
  let n := Z.of_N (N_of_ascii c) in
  if (48 <=? n) && (n <=? 57) then Some (n - 48)
  else if (97 <=? n) && (n <=? 102) then Some (n - 87)
  else if (65 <=? n) && (n <=? 70) then Some (n - 55)
  else None.

Fixpoint hexDigits (acc : Z) (s : string) : option Z :=
  match s with
  | EmptyString => Some acc
  | String c s' =>
      match hexValue c with
      | Some d => hexDigits (16 * acc + d) s'
      | None => None
      end
  end.

(** [strconv.ParseInt(s, 16, 32)]. *)
Definition ParseInt_16_32 (s : string) : option Z :=
  match s with
  | EmptyString => None
  | String c s' =>
      let neg := Ascii.eqb c "-" in
      let body := if neg || Ascii.eqb c "+" then s' else s in
      match body with
      | EmptyString => None
      | _ =>
          match hexDigits 0 body with
          | Some n =>
              if neg then (if n <=? 2 ^ 31 then Some (- n) else None)
              else (if n <? 2 ^ 31 then Some n else None)
          | None => None
          end
      end
  end.

(** The second loop of getReserved, over [hexString[i:]] with [i] even;
    the slice [hexString[i : i+2]] of a string with one character left is
    out of range. *)
Fixpoint reservedFrom (hexString : string) (reserved : list Z) : outcome (list Z) :=
  match hexString with
  | EmptyString => Ok reserved
  | String a (String b rest) =>
      match ParseInt_16_32 (String a (String b EmptyString)) with
      | Some decValue => reservedFrom rest (reserved ++ [decValue])
      | None => Ok []
      end
  | String _ EmptyString => Panic "slice bounds out of range"
  end.

(** WarpService.getReserved. *)
Definition getReserved (clientID : string) : outcome (list Z) :=
  match DecodeString clientID with
  | Ok decoded =>
      let hexString := foldl (λ hexString char, hexString +:+ fmt_02x char) "" decoded in
      reservedFrom hexString []
  | Fail _ => Ok []
  | Panic p => Panic p
  end.

Lemma ParseInt_fmt_02x (char : Byte.byte) :
  ParseInt_16_32 (fmt_02x char) = Some (Z.of_N (Byte.to_N char)).
Proof. destruct char; reflexivity. Qed.

Lemma append_assoc (s t u : string) : (s +:+ t) +:+ u = s +:+ (t +:+ u).
Proof.
  induction s as [|c s IH]; [done|].
  change (String c ((s +:+ t) +:+ u) = String c (s +:+ (t +:+ u))). by rewrite IH.
Qed.

Lemma append_empty (s : string) : s +:+ "" = s.
Proof.
  induction s as [|c s IH]; [done|]. change (String c (s +:+ "") = String c s). by rewrite IH.
Qed.

Lemma hexString_cons (decoded : list Byte.byte) (acc : string) :
  foldl (λ hexString char, hexString +:+ fmt_02x char) acc decoded
  = acc +:+ foldl (λ hexString char, hexString +:+ fmt_02x char) "" decoded.
Proof.
  revert acc. induction decoded as [|char decoded IH]; intros acc; cbn [foldl].
  - by rewrite append_empty.
  - change ("" +:+ fmt_02x char) with (fmt_02x char).
    rewrite (IH (acc +:+ fmt_02x char)), (IH (fmt_02x char)). apply append_assoc.
Qed.

(** The reserved values of a peer are the bytes of its client id: the
    detour through their hexadecimal text changes nothing, never fails and
    never slices out of range. A client id that is not base64 gives no
    reserved value. *)
Theorem getReserved_bytes (clientID : string) :
  getReserved clientID =
    match DecodeString clientID with
    | Ok decoded => Ok ((λ char, Z.of_N (Byte.to_N char)) <$> decoded)
    | Fail _ => Ok []
    | Panic p => Panic p
    end.
Proof.
  unfold getReserved. destruct (DecodeString clientID) as [decoded| |]; [|done..].
  cbv zeta.
  assert (Hgen : ∀ reserved,
            reservedFrom (foldl (λ hexString char, hexString +:+ fmt_02x char) "" decoded)
                         reserved
            = Ok (reserved ++ ((λ char, Z.of_N (Byte.to_N char)) <$> decoded))).
  { induction decoded as [|char decoded IH]; intros reserved.
    - simpl. by rewrite app_nil_r.
    - cbn [foldl fmap list_fmap]. change ("" +:+ fmt_02x char) with (fmt_02x char).
      rewrite hexString_cons.
      change (fmt_02x char +:+ ?s)
        with (String (hexDigit (Byte.to_N char / 16))
                (String (hexDigit (Byte.to_N char mod 16)) s)).
      cbn [reservedFrom].
      change (String (hexDigit (Byte.to_N char / 16))
                (String (hexDigit (Byte.to_N char mod 16)) "")) with (fmt_02x char).
      rewrite ParseInt_fmt_02x, IH. by rewrite <- app_assoc. }
  apply Hgen.
Qed.

End Reserved.

(** ** The record of a committed save *)

Section ChangeLog.
Context `{Collaborators}.

(** The change log as the open transaction sees it, and the clock. *)
Definition sameLog : relation World :=
  λ w w', tbl_changes (txn w') = tbl_changes (txn w) ∧ now w' = now w.

#[local] Instance sameLog_refl : Reflexive sameLog.
Proof. intros w. split; reflexivity. Qed.
#[local] Instance sameLog_trans : Transitive sameLog.
Proof. intros w1 w2 w3 [Hc Hn] [Hc' Hn']. split; congruence. Qed.

Lemma sameLog_core_call (f : Core → Core * option error) : keeps sameLog (core_call f).
Proof.
  intros w w' r. unfold core_call. destruct (f (core w)) as [c e].
  intros [= <- _]. split; reflexivity.
Qed.

(** A write that leaves the change log alone. *)
Lemma sameLog_exec {A} (f : DB → outcome (A * DB)) :
  (∀ d a d', f d = Ok (a, d') → tbl_changes d' = tbl_changes d) →
  keeps sameLog (exec TheTx f).
Proof.
  intros Hf w w' r. unfold exec.
  destruct (f (view TheTx w)) as [[a d]|e|p] eqn:Hrun; intros [= <- _]; split; try reflexivity.
  simpl. by apply (Hf _ _ _ Hrun).
Qed.

Lemma sameLog_addUsers db inboundJson inboundId inboundType :
  keeps sameLog (addUsers db inboundJson inboundId inboundType).
Proof. apply keeps_readonly; [typeclasses eauto | apply addUsers_readonly]. Qed.

Lemma sameLog_initUsers db inboundJson clientIds inboundType :
  keeps sameLog (initUsers db inboundJson clientIds inboundType).
Proof.
  apply keeps_readonly; [typeclasses eauto|]. unfold initUsers.
  pose proof fetchUsers_readonly. keeps_auto.
Qed.

Lemma sameLog_GetConfig data : keeps sameLog (ConfigService_GetConfig data).
Proof. apply keeps_readonly; [typeclasses eauto | apply ConfigService_GetConfig_readonly]. Qed.

Lemma saveClient_log client d a d' :
  saveClient client d = Ok (a, d') → tbl_changes d' = tbl_changes d.
Proof. unfold saveClient. by intros (saved & _ & [= _ <-])%obind_Ok_inv. Qed.

Lemma saveClients_log (clients : list Client.t) d a d' :
  foldl (λ acc client, st <~ acc ;; saved <~ saveClient client st.2 ;; Ok (tt, saved.2))
        (Ok (tt, d)) clients = Ok (a, d') →
  tbl_changes d' = tbl_changes d.
Proof.
  assert (Hgen : ∀ acc,
    foldl (λ acc client, st <~ acc ;; saved <~ saveClient client st.2 ;; Ok (tt, saved.2))
          acc clients = Ok (a, d') →
    ∃ u d0, acc = Ok (u, d0) ∧ tbl_changes d' = tbl_changes d0).
  { induction clients as [|client clients IH]; intros acc; cbn [foldl].
    - intros ->. by eexists _, _.
    - intros (u & d1 & Hstep & Hlog)%IH.
      apply obind_Ok_inv in Hstep as ([u0 d0] & -> & Hstep).
      apply obind_Ok_inv in Hstep as ([c d2] & Hsave & [= _ <-]).
      exists u0, d0. split; [done|]. rewrite Hlog. exact (saveClient_log _ _ _ _ Hsave). }
  intros (u & d0 & [= _ <-] & Hlog)%Hgen. exact Hlog.
Qed.

(** The writes of the services: none is to the change log. *)
Ltac log_frame :=
  apply sameLog_exec; intros ? ? ?;
  first [ apply saveClient_log | apply saveClients_log
        | unfold saveInbound, saveOutbound, saveEndpoint;
          first [ by intros (saved & _ & [= _ <-])%obind_Ok_inv | by intros [= _ <-] ] ].

Hint Resolve sameLog_core_call sameLog_addUsers sameLog_initUsers sameLog_GetConfig : frame.
Hint Extern 1 (keeps sameLog (exec TheTx _)) => log_frame : frame.

Lemma sameLog_ClientService_Save act data hostname :
  keeps sameLog (ClientService_Save TheTx act data hostname).
Proof. unfold ClientService_Save, updateLinksWithFixedInbounds. keeps_auto. Qed.

Lemma sameLog_UpdateClientsOnInboundAdd initIds inboundId hostname :
  keeps sameLog (UpdateClientsOnInboundAdd TheTx initIds inboundId hostname).
Proof. unfold UpdateClientsOnInboundAdd. keeps_auto. Qed.

Lemma sameLog_UpdateClientsOnInboundDelete id tag :
  keeps sameLog (UpdateClientsOnInboundDelete TheTx id tag).
Proof. unfold UpdateClientsOnInboundDelete. keeps_auto. Qed.

Lemma sameLog_UpdateLinksByInboundChange inbounIds hostname :
  keeps sameLog (UpdateLinksByInboundChange TheTx inbounIds hostname).
Proof. unfold UpdateLinksByInboundChange. keeps_auto. Qed.

Lemma sameLog_UpdateOutJsons inboundIds hostname :
  keeps sameLog (InboundService_UpdateOutJsons TheTx inboundIds hostname).
Proof. unfold InboundService_UpdateOutJsons. keeps_auto. Qed.

Lemma sameLog_InboundService_Save act data initUserIds hostname :
  keeps sameLog (InboundService_Save TheTx act data initUserIds hostname).
Proof. unfold InboundService_Save. keeps_auto. Qed.

Lemma sameLog_OutboundService_Save act data :
  keeps sameLog (OutboundService_Save TheTx act data).
Proof. unfold OutboundService_Save, outboundCoreSync. keeps_auto. Qed.

Lemma sameLog_EndpointService_Save act data :
  keeps sameLog (EndpointService_Save TheTx act data).
Proof.
  unfold EndpointService_Save, checkDuplicateTag, checkAllowedIPs, warpHandling,
    endpointCoreSync.
  keeps_auto.
Qed.

Lemma sameLog_SettingService_Update key value :
  keeps sameLog (SettingService_Update (Some TheTx) key value).
Proof.
  unfold SettingService_Update, saveSetting.
  change (default TheDB (Some TheTx)) with TheTx. keeps_auto.
Qed.

Hint Resolve sameLog_ClientService_Save sameLog_UpdateClientsOnInboundAdd
  sameLog_UpdateClientsOnInboundDelete sameLog_UpdateLinksByInboundChange
  sameLog_UpdateOutJsons sameLog_InboundService_Save sameLog_OutboundService_Save
  sameLog_EndpointService_Save sameLog_SettingService_Update : frame.

Lemma sameLog_saveObject obj act data initUsers hostname :
  obj ≠ "tls" → keeps sameLog (saveObject TheTx obj act data initUsers hostname).
Proof.
  intros Htls. unfold saveObject, saveInbounds, restartCoreWithConfig, ConfigService_StopCore,
    ConfigService_StartCore.
  destruct (decide (obj = "clients")); [keeps_auto|].
  destruct (decide (obj = "tls")); [done|].
  keeps_auto.
Qed.

Lemma sameLog_sideChanges obj act data initUsers hostname objs ids :
  keeps sameLog (sideChanges TheTx obj act data initUsers hostname objs ids).
Proof. unfold sideChanges. keeps_auto. Qed.

(** No call moves the clock. *)
Definition sameClock : relation World := λ w w', now w' = now w.

#[local] Instance sameClock_refl : Reflexive sameClock.
Proof. by intros w. Qed.
#[local] Instance sameClock_trans : Transitive sameClock.
Proof. unfold sameClock. intros w1 w2 w3 Hn Hn'. congruence. Qed.

Lemma sameClock_core_call (f : Core → Core * option error) : keeps sameClock (core_call f).
Proof.
  intros w w' r. unfold core_call. destruct (f (core w)) as [c e]. by intros [= <- _].
Qed.

Lemma sameClock_exec {A} (h : handle) (f : DB → outcome (A * DB)) : keeps sameClock (exec h f).
Proof.
  intros w w' r. unfold exec.
  destruct (f (view h w)) as [[a d]|e|p]; intros [= <- _]; by destruct h.
Qed.

Lemma sameClock_tlsSave h act data : keeps sameClock (tlsSave h act data).
Proof.
  intros w w' r. unfold tlsSave. destruct (TlsService_Save act data (view h w)) as [d o].
  intros [= <- _]. by destruct h.
Qed.

Lemma sameClock_readonly {A} (m : M A) : keeps eq m → keeps sameClock m.
Proof. apply keeps_readonly. typeclasses eauto. Qed.

Lemma saveBody_sameClock obj act data initIds loginUser hostname :
  keeps sameClock (saveBody obj act data initIds loginUser hostname).
Proof.
  pose proof sameClock_core_call. pose proof (@sameClock_exec). pose proof sameClock_tlsSave.
  pose proof (λ db j i t, sameClock_readonly _ (addUsers_readonly db j i t)).
  pose proof (λ data, sameClock_readonly _ (ConfigService_GetConfig_readonly data)).
  assert (∀ db j c t, keeps sameClock (initUsers db j c t)).
  { intros. apply sameClock_readonly. unfold initUsers. pose proof fetchUsers_readonly.
    keeps_auto. }
  unfold saveBody, saveObject, saveInbounds, sideChanges, restartCoreWithConfig,
    ConfigService_StopCore, ConfigService_StartCore, ClientService_Save,
    updateLinksWithFixedInbounds, UpdateClientsOnInboundAdd, UpdateClientsOnInboundDelete,
    UpdateLinksByInboundChange, InboundService_UpdateOutJsons, InboundService_Save,
    OutboundService_Save, outboundCoreSync, EndpointService_Save, checkDuplicateTag,
    checkAllowedIPs, warpHandling, endpointCoreSync, SettingService_Update, saveSetting.
  keeps_auto.
Qed.

(** What the deferred function leaves alone on the commit path: the
    store it committed, and the clock. *)
Definition settled : relation World :=
  λ w w', durable w' = durable w ∧ now w' = now w.

#[local] Instance settled_refl : Reflexive settled.
Proof. intros w. split; reflexivity. Qed.
#[local] Instance settled_trans : Transitive settled.
Proof. intros w1 w2 w3 [Hd Hn] [Hd' Hn']. split; congruence. Qed.

Lemma settled_core_call (f : Core → Core * option error) : keeps settled (core_call f).
Proof.
  intros w w' r. unfold core_call. destruct (f (core w)) as [c e].
  intros [= <- _]. split; reflexivity.
Qed.

Lemma settled_RestartInbounds ids : keeps settled (InboundService_RestartInbounds TheDB ids).
Proof.
  unfold InboundService_RestartInbounds.
  assert (∀ db j i t, keeps settled (addUsers db j i t))
    by (intros; apply keeps_readonly; [typeclasses eauto | apply addUsers_readonly]).
  pose proof settled_core_call. keeps_auto.
Qed.

Lemma settled_StartCore defaultConfig : keeps settled (ConfigService_StartCore defaultConfig).
Proof.
  unfold ConfigService_StartCore.
  assert (∀ data, keeps settled (ConfigService_GetConfig data))
    by (intros; apply keeps_readonly; [typeclasses eauto | apply ConfigService_GetConfig_readonly]).
  pose proof settled_core_call. keeps_auto.
Qed.

(** The deferred function after the commit: the store stays as
    committed; unless a restart panics, the watermark is set to the time of
    the save. *)
Lemma afterCommit_settles (ids : list N) (objs : list string) (w : World) :
  ∃ w' r,
    (_ <- afterCommit ids ;; ret objs) w = (w', r) ∧
    durable w' = durable w ∧
    ((r = Ok objs ∧ LastUpdate w' = now w) ∨ ∃ p, r = Panic p).
Proof.
  unfold afterCommit. rewrite ?bind_assoc. rewrite (bind_Ok _ _ _ _ _ (gets_run _ _)).
  assert (Hfirst : ∃ wa ra,
            (if bool_decide (0 < length ids)%nat && IsRunning (core w)
             then try (InboundService_RestartInbounds TheDB ids)
             else ret None) w = (wa, ra) ∧ settled w wa ∧ ∀ e, ra ≠ Fail e).
  { destruct (_ && _).
    - unfold try.
      destruct (InboundService_RestartInbounds TheDB ids w) as [wa o] eqn:Hrun.
      pose proof (settled_RestartInbounds ids _ _ _ Hrun).
      destruct o; by eexists _, _.
    - eexists _, _. split; [reflexivity|]. split; [reflexivity | done]. }
  destruct Hfirst as (wa & ra & Hfirst & [Hda Hna] & Hra).
  rewrite ?bind_assoc.
  destruct ra as [err|e|p]; [|by destruct (Hra e)|].
  2:{ rewrite (bind_Panic _ _ _ _ _ Hfirst).
      eexists _, _. split; [reflexivity|]. split; [done|]. right. by eexists. }
  rewrite (bind_Ok _ _ _ _ _ Hfirst). rewrite ?bind_assoc.
  rewrite (bind_Ok _ _ _ _ _ (gets_run _ _)).
  assert (Hsecond : ∃ wb rb,
            (if negb (IsRunning (core wa)) then try (ConfigService_StartCore "")
             else ret None) wa = (wb, rb) ∧ settled wa wb ∧ ∀ e, rb ≠ Fail e).
  { destruct (negb _).
    - unfold try. destruct (ConfigService_StartCore "" wa) as [wb o] eqn:Hrun.
      pose proof (settled_StartCore "" _ _ _ Hrun).
      destruct o; by eexists _, _.
    - eexists _, _. split; [reflexivity|]. split; [reflexivity | done]. }
  destruct Hsecond as (wb & rb & Hsecond & [Hdb Hnb] & Hrb).
  rewrite ?bind_assoc.
  destruct rb as [err'|e|p]; [|by destruct (Hrb e)|].
  2:{ rewrite (bind_Panic _ _ _ _ _ Hsecond).
      eexists _, _. split; [reflexivity|]. split; [congruence|]. right. by eexists. }
  rewrite (bind_Ok _ _ _ _ _ Hsecond). rewrite ?bind_assoc.
  rewrite (bind_Ok _ _ _ _ _ (gets_run _ _)).
  eexists _, _. split; [reflexivity|]. cbn. split; [congruence|]. left. split; [done|congruence].
Qed.

(** The commit path of Save. When the body of Save returns without an
    error, Save commits what the transaction wrote: the durable store
    becomes the store as the transaction saw it; unless a restart in the
    deferred function panics, Save returns the classes the body listed and
    the in-memory watermark is the time of the save. For every class but
    "tls" the committed change log is the log before the call followed by
    exactly one record, which carries that time, the actor, the class, the
    action and the payload. *)
Theorem Save_commits (obj act : string) (data : RawMessage)
    (initUsers loginUser hostname : string) (w w1 : World)
    (objs : list string) (ids : list N)
    (Hbody : saveBody obj act data initUsers loginUser hostname (Begin w).1
             = (w1, Ok (objs, ids))) :
  ∃ w' r,
    ConfigService_Save obj act data initUsers loginUser hostname w = (w', r) ∧
    durable w' = txn w1 ∧
    ((r = Ok objs ∧ LastUpdate w' = now w) ∨ ∃ p, r = Panic p) ∧
    (obj ≠ "tls" →
     tbl_changes (durable w') =
       tbl_changes (durable w)
       ++ [Changes.mk (gorm.next_pk (tbl_changes (durable w))) (now w) loginUser obj act data]).
Proof.
  assert (Hlog : obj ≠ "tls" →
            tbl_changes (txn w1) =
              tbl_changes (durable w)
              ++ [Changes.mk (gorm.next_pk (tbl_changes (durable w))) (now w) loginUser obj act
                    data] ∧ now w1 = now w).
  { intros Htls. revert Hbody. unfold saveBody.
    intros (saved & wa & Hobject & Hrest)%bind_Ok_inv.
    destruct (sameLog_saveObject _ _ _ _ _ Htls _ _ _ Hobject) as [Hca Hna].
    rewrite (bind_Ok _ _ _ _ _ (gets_run _ _)) in Hrest.
    apply bind_Ok_inv in Hrest as ([] & wb & Hcreate%wrapM_Ok_inv & Hrest).
    apply bind_Ok_inv in Hrest as (objs' & wc & Hside & [= <- _ _]).
    destruct (sameLog_sideChanges _ _ _ _ _ _ _ _ _ _ Hside) as [Hcc Hnc].
    rewrite Hcc, Hnc. clear Hside Hcc Hnc.
    revert Hcreate. unfold exec, createChange. cbv beta.
    rewrite (Save_inserts (Hrow := gorm.Row_Changes)) by done. cbn [obind fst snd].
    intros [= <-]. cbn. change (tbl_changes (txn wa)) with (tbl_changes (view TheTx wa)) in *.
    simpl in Hca, Hna. simpl. rewrite Hca, Hna. done. }
  destruct (afterCommit_settles ids objs (Commit w1).1) as (w' & r & Hrun & Hd & Hr).
  exists w', r. rewrite ConfigService_Save_run, Hbody. split; [exact Hrun|].
  split; [exact Hd|]. split.
  - destruct Hr as [[-> Hl] | Hp]; [left | by right]. split; [done|]. rewrite Hl.
    exact (saveBody_sameClock _ _ _ _ _ _ _ _ _ Hbody).
  - intros Htls. rewrite Hd. simpl. by apply Hlog.
Qed.

End ChangeLog.

(** A new outbound saved by "admin" at time 1000 into an empty store. *)
Lemma Save_commits_witness :
  let w := Scenario.world None false Scenario.empty_db in
  let data := Raw (JObj {[ "type" := JStr "direct"; "tag" := JStr "out1" ]}) in
  let run := ConfigService_Save "outbounds" "new" data "" "admin" "host" w in
  run.2 = Ok ["outbounds"] ∧
  LastUpdate run.1 = 1000 ∧
  tbl_changes (durable run.1) = [Changes.mk 1 1000 "admin" "outbounds" "new" data].
Proof.
  intros w data run.
  set (body := saveBody "outbounds" "new" data "" "admin" "host" (Begin w).1).
  assert (Hbody : body = (body.1, Ok (["outbounds"], [])))
    by (apply injective_projections; [reflexivity | vm_compute; reflexivity]).
  destruct (Save_commits "outbounds" "new" data "" "admin" "host" w body.1 ["outbounds"] []
              Hbody) as (w' & r & Hrun & _ & Hr & Hlog).
  assert (Hok : is_Ok run.2 = true) by (vm_compute; reflexivity).
  subst run. rewrite Hrun in Hok |- *. cbn [fst snd] in *.
  destruct Hr as [[-> Hl] | [p ->]]; [|discriminate Hok].
  split; [reflexivity|]. split; [exact Hl|]. by apply Hlog.
Defined.

(** ** Deleting a client *)

Section ClientDeletion.
Context `{Collaborators}.

(** The rows a deletion by key leaves: the others, in their order. *)
Lemma Delete_by_id (id : N) (clients : list Client.t) :
  gorm.Delete (λ r, bool_decide (Client.Id r = id)) clients
  = filter (λ r, Client.Id r ≠ id) clients.
Proof.
  unfold gorm.Delete. induction clients as [|c clients IH]; [done|].
  rewrite !filter_cons, IH. destruct (decide (Client.Id c = id)) as [Heq|Hne].
  - rewrite decide_False by (by rewrite bool_decide_eq_true_2).
    by rewrite decide_False by (intros Hc; by apply Hc).
  - rewrite decide_True by (by rewrite bool_decide_eq_false_2).
    by rewrite decide_True.
Qed.

(** ClientService.Save with the action "del", on a payload that is the
    key of a client. A client that is not in the store gives an error. A
    client that is there is read first, and its list of inbounds is decoded
    before anything is deleted: when the list decodes, exactly the rows
    with that key are deleted, the others keep their order, and Save returns
    the decoded list; when it does not decode, in particular when the
    column is NULL, Save returns an error and the client stays. An error
    leaves the store as it was. *)
Theorem ClientSave_del (tx : handle) (data : RawMessage) (id : N) (hostname : string)
    (w : World) (Hid : Json.Unmarshal_uint data = Ok id) :
  let clients := tbl_clients (view tx w) in
  ((∀ r, r ∈ clients → Client.Id r ≠ id) →
   ∃ e, ClientService_Save tx "del" data hostname w = (w, Fail e)) ∧
  (∀ client,
     gorm.First (λ r, bool_decide (Client.Id r = id)) clients = Ok client →
     match Json.Unmarshal_uints (Client.Inbounds client) with
     | Ok inboundIds =>
         ClientService_Save tx "del" data hostname w =
           (with_view tx (set_clients (filter (λ r, Client.Id r ≠ id) clients) (view tx w))
              (counted w), Ok inboundIds)
     | _ => ∃ e, ClientService_Save tx "del" data hostname w = (w, Fail e)
     end) ∧
  (∀ client,
     gorm.First (λ r, bool_decide (Client.Id r = id)) clients = Ok client →
     Client.Inbounds client = RawNil →
     ∃ e, ClientService_Save tx "del" data hostname w = (w, Fail e)).
Proof.
  intros clients.
  assert (Hrun : ClientService_Save tx "del" data hostname w =
            match gorm.First (λ r, bool_decide (Client.Id r = id)) clients with
            | Ok client =>
                match Json.Unmarshal_uints (Client.Inbounds client) with
                | Ok inboundIds =>
                    (with_view tx
                       (set_clients (filter (λ r, Client.Id r ≠ id) clients) (view tx w))
                       (counted w), Ok inboundIds)
                | Fail e =>
                    (w, Fail (NewError (("failed to unmarshal client.Inbounds for client ID "
                                         +:+ fmt_d id +:+ " being deleted: ")
                                        +:+ error_string e)))
                | Panic p => (w, Panic p)
                end
            | Fail e =>
                (w, Fail (NewError (("failed to find client ID " +:+ fmt_d id
                                     +:+ " for deletion: ") +:+ error_string e)))
            | Panic p => (w, Panic p)
            end).
  { unfold ClientService_Save.
    rewrite decide_False by (intros [?|?]; done). rewrite decide_False by done.
    rewrite decide_True by done.
    rewrite bind_lift, Hid. cbn [wrap]. rewrite ?bind_assoc.
    rewrite (bind_Ok _ _ _ _ _ (query_run _ _ _)). rewrite bind_lift. fold clients.
    destruct (gorm.First _ clients) as [client|e|p]; cbn [wrap]; [|done..].
    rewrite bind_lift.
    destruct (Json.Unmarshal_uints (Client.Inbounds client)) as [ids|e|p]; cbn [wrap]; [|done..].
    unfold bind, exec. cbv beta. fold clients. by rewrite Delete_by_id. }
  split; [|split].
  - intros Hnone. rewrite Hrun. unfold gorm.First.
    rewrite Find_none; [by eexists|].
    intros r Hr. apply bool_decide_eq_false. by apply Hnone.
  - intros client Hfound. rewrite Hrun, Hfound.
    destruct (Json.Unmarshal_uints (Client.Inbounds client)) as [ids|e|p] eqn:Hids;
      [done | by eexists |].
    exfalso. unfold Json.Unmarshal_uints in Hids. by repeat case_match.
  - intros client Hfound Hnil. rewrite Hrun, Hfound, Hnil. by eexists.
Qed.

End ClientDeletion.

(** Deleting "alice", the only client: her inbound is returned for the
    restart. *)
Lemma ClientSave_del_witness :
  let w := alice_world None false in
  let run := ClientService_Save TheTx "del" (Raw (JNum 1)) "host" w in
  run.2 = Ok [1%N] ∧ tbl_clients (txn run.1) = [].
Proof.
  intros w run.
  pose proof (proj1 (proj2 (ClientSave_del TheTx (Raw (JNum 1)) 1 "host" w eq_refl))
                alice eq_refl) as Hrun.
  cbn [Client.Inbounds alice Json.Unmarshal_uints mapM] in Hrun.
  subst run. split; [by rewrite Hrun | by rewrite Hrun].
Defined.

(** ** Linking clients to a new inbound *)

Section ClientsOnAdd.
Context `{Collaborators}.

(** The inbound that UpdateClientsOnInboundAdd reads with [Find]: the
    zero value when no row has the key. *)
Definition foundInbound (tx : handle) (inboundId : N) (w : World) : Inbound.t :=
  default (Inbound.mk 0 "" "" 0 None RawNil RawNil)
    (head (preloadTls (view tx w) <$>
             gorm.Find (λ r, bool_decide (Inbound.Id r = inboundId))
                       (tbl_inbounds (view tx w)))).

(** The body of the loop of UpdateClientsOnInboundAdd up to the save, as
    a function of the client. *)
Definition linkClient (inboundId : N) (hostname : string) (inbound : Inbound.t)
           (client : Client.t) : outcome Client.t :=
  clientInbounds <~ clientInboundsOf client ;;
  let clientInbounds := clientInbounds ++ [inboundId] in
  let client := Client.set_Inbounds (Json.Marshal_var_uints clientInbounds) client in
  clientLinks <~ clientLinksOf client ;;
  let newClientLinks :=
    generatedLinks client hostname inbound
    ++ filter (λ clientLink, index clientLink "remark" ≠ Inbound.Tag inbound) clientLinks in
  Ok (Client.set_Links (Json.Marshal_var_string_maps newClientLinks) client).

(** linkClient as a total function: the client itself where it fails. *)
Definition linked (inboundId : N) (hostname : string) (inbound : Inbound.t)
           (client : Client.t) : Client.t :=
  match linkClient inboundId hostname inbound client with
  | Ok client' => client'
  | _ => client
  end.

Lemma linkClient_Id inboundId hostname inbound client client' :
  linkClient inboundId hostname inbound client = Ok client' →
  Client.Id client' = Client.Id client.
Proof.
  unfold linkClient. intros (ids & _ & Hrest)%obind_Ok_inv.
  apply obind_Ok_inv in Hrest as (links & _ & [= <-]). done.
Qed.

Lemma linked_Id inboundId hostname inbound client :
  Client.Id (linked inboundId hostname inbound client) = Client.Id client.
Proof.
  unfold linked. destruct (linkClient _ _ _ client) eqn:Hl; [|done..].
  by eapply linkClient_Id.
Qed.

(** The numbers decoded into a [[]uint] are in the range of [uint]. *)
Lemma elem_uint_range (j : json) (n : N) : Json.elem_uint j = Some n → Z.of_N n < 2 ^ 64.
Proof.
  destruct j as [| |m| | |]; simpl; try done.
  - intros [= <-]. done.
  - unfold Json.uint_ok. destruct (Z.leb_spec 0 m), (Z.ltb_spec m (2 ^ 64)); simpl; try done.
    intros [= <-]. rewrite Z2N.id by done. done.
Qed.

Lemma Unmarshal_uints_range (raw : RawMessage) (ns : list N) :
  Json.Unmarshal_uints raw = Ok ns → Forall (λ n, Z.of_N n < 2 ^ 64) ns.
Proof.
  destruct raw as [| |[| | | |l|]]; simpl; try done.
  - by intros [= <-].
  - destruct (mapM Json.elem_uint l) as [ns'|] eqn:Hl; [|done]. intros [= <-].
    apply mapM_Some in Hl. induction Hl as [|j n l ns' Hj _ IH]; [done|].
    constructor; [by eapply elem_uint_range | done].
Qed.

Lemma Unmarshal_Marshal_var_uints (ns : list N) :
  Forall (λ n, Z.of_N n < 2 ^ 64) ns →
  Json.Unmarshal_uints (Json.Marshal_var_uints ns) = Ok ns.
Proof.
  intros Hns. destruct ns as [|n ns]; [done|].
  unfold Json.Marshal_var_uints, Json.Unmarshal_uints.
  assert (mapM Json.elem_uint ((λ n, JNum (Z.of_N n)) <$> n :: ns) = Some (n :: ns)) as ->; [|done].
  apply mapM_Some. apply Forall2_fmap_l, Forall_Forall2_diag.
  eapply Forall_impl; [exact Hns|]. intros m Hm. simpl in Hm |- *. unfold Json.uint_ok.
  destruct (Z.leb_spec 0 (Z.of_N m)), (Z.ltb_spec (Z.of_N m) (2 ^ 64)); simpl; try lia.
  by rewrite N2Z.id.
Qed.

(** What linkClient makes of a client whose columns decode. *)
Lemma linkClient_Ok inboundId hostname inbound client ids links :
  Z.of_N inboundId < 2 ^ 64 →
  clientInboundsOf client = Ok ids → clientLinksOf client = Ok links →
  ∃ client',
    linkClient inboundId hostname inbound client = Ok client' ∧
    Client.Id client' = Client.Id client ∧
    clientInboundsOf client' = Ok (ids ++ [inboundId]) ∧
    clientLinksOf client' =
      Ok (generatedLinks client hostname inbound
          ++ filter (λ d, index d "remark" ≠ Inbound.Tag inbound) links).
Proof.
  intros Hid Hids Hlinks. unfold linkClient. rewrite Hids. cbn [obind]. cbv zeta.
  assert (clientLinksOf (Client.set_Inbounds (Json.Marshal_var_uints (ids ++ [inboundId])) client)
          = Ok links) as -> by (rewrite <- Hlinks; done).
  cbn [obind]. eexists. split; [done|]. split; [done|]. split.
  - assert (Hrange : Forall (λ n, Z.of_N n < 2 ^ 64) (ids ++ [inboundId])).
    { apply Forall_app. split; [|by apply Forall_singleton].
      unfold clientInboundsOf in Hids. destruct (Client.Inbounds client) eqn:Hraw.
      - injection Hids as <-. constructor.
      - done.
      - destruct (Json.Unmarshal_uints (Raw j)) as [ns| |] eqn:Hns; [|done..].
        injection Hids as <-. by eapply Unmarshal_uints_range. }
    pose proof (Unmarshal_Marshal_var_uints _ Hrange) as Hread.
    unfold clientInboundsOf. cbn [Client.Inbounds Client.set_Links Client.set_Inbounds].
    destruct (ids ++ [inboundId]) as [|n ns] eqn:Happ; [by destruct ids|].
    unfold Json.Marshal_var_uints in *. cbv beta iota. by rewrite Hread.
  - apply clientLinksOf_set_var_Links.
Qed.

Lemma link_loop (tx : handle) (inboundId : N) (hostname : string) (inbound : Inbound.t)
    (sel : list Client.t) (w : World) :
  Forall (λ c, Client.Id c ≠ 0%N ∧ Client.Id c ∈ Client.Id <$> tbl_clients (view tx w)
               ∧ is_Ok (linkClient inboundId hostname inbound c) = true) sel →
  ∃ w',
    forM_ (λ client,
             clientInbounds <- lift (clientInboundsOf client) ;;
             let clientInbounds := clientInbounds ++ [inboundId] in
             let client := Client.set_Inbounds (Json.Marshal_var_uints clientInbounds) client in
             clientLinks <- lift (clientLinksOf client) ;;
             let newClientLinks :=
               generatedLinks client hostname inbound
               ++ filter (λ clientLink, index clientLink "remark" ≠ Inbound.Tag inbound)
                         clientLinks in
             let client := Client.set_Links (Json.Marshal_var_string_maps newClientLinks) client in
             _ <- wrapM ("failed to save client ID " +:+ fmt_d (Client.Id client)
                         +:+ " after inbound add: ")
                    (exec tx (saveClient client)) ;;
             ret tt) sel w = (w', Ok tt) ∧
    view tx w' =
      set_clients (foldl (λ acc c', replaced c' acc) (tbl_clients (view tx w))
                         (linked inboundId hostname inbound <$> sel))
                  (view tx w).
Proof.
  revert w. induction sel as [|c sel IH]; intros w Hsel.
  - exists w. split; [done|]. by destruct (view tx w).
  - apply Forall_cons in Hsel as [(Hpk & Hin & Hok) Hsel].
    destruct (linkClient inboundId hostname inbound c) as [c'| |] eqn:Hl; [|done..].
    assert (linked inboundId hostname inbound c = c') as Hc' by (unfold linked; by rewrite Hl).
    assert (Client.Id c' = Client.Id c) as Hid by (by eapply linkClient_Id).
    set (d1 := set_clients (replaced c' (tbl_clients (view tx w))) (view tx w)).
    destruct (IH (with_view tx d1 (counted w))) as (w' & Hrun & Hview).
    { rewrite view_with_view. subst d1. destruct (view tx w); simpl.
      eapply Forall_impl; [exact Hsel|]. intros x (? & ? & ?). repeat split; [done| |done].
      by rewrite (replaced_pk (Hrow := gorm.Row_Client)). }
    exists w'. split.
    + rewrite forM_cons.
      erewrite bind_Ok; [exact Hrun|]. cbv beta.
      unfold linkClient in Hl.
      apply obind_Ok_inv in Hl as (ids & Hids & Hl). cbv zeta in Hl.
      apply obind_Ok_inv in Hl as (links & Hlinks & [= Hl]).
      rewrite (bind_lift_Ok _ _ _ _ Hids). cbv zeta.
      rewrite (bind_lift_Ok _ _ _ _ Hlinks). rewrite Hl.
      erewrite bind_Ok; [reflexivity|].
      apply wrapM_Ok, exec_Ok, saveClient_replaces; by rewrite Hid.
    + rewrite Hview, view_with_view. rewrite fmap_cons, Hc'. subst d1.
      by destruct (view tx w).
Qed.

(** UpdateClientsOnInboundAdd does nothing for an empty list of client
    keys. Otherwise, on a store whose clients have distinct non-zero keys
    and where the columns of the listed clients decode, it succeeds and
    every listed client gets the key of the inbound appended to its inbounds
    (also when it was there already) and, for its links, the links
    generated for the inbound followed by the descriptors it had that are
    not remarked with the tag of the inbound, in their order; the clients
    that are not listed stay as they are. The inbound is the row with the
    given key, or the zero inbound when there is none. *)
Theorem InboundAdd_links_clients (tx : handle) (initIds : string) (inboundId : N)
    (hostname : string) (w : World)
    (Hid : Z.of_N inboundId < 2 ^ 64)
    (Hkeys : NoDup (Client.Id <$> tbl_clients (view tx w)))
    (Hrows : Forall (λ c, Client.Id c ≠ 0%N) (tbl_clients (view tx w)))
    (Hlisted : Forall (λ c, idAmong (strings.Split initIds) (Client.Id c) = true →
                            is_Ok (clientInboundsOf c) = true ∧ is_Ok (clientLinksOf c) = true)
                      (tbl_clients (view tx w))) :
  let clientIds := strings.Split initIds in
  let inbound := foundInbound tx inboundId w in
  if decide (clientIds = [] ∨ clientIds = [""])
  then UpdateClientsOnInboundAdd tx initIds inboundId hostname w = (w, Ok tt)
  else
    ∃ w',
      UpdateClientsOnInboundAdd tx initIds inboundId hostname w = (w', Ok tt) ∧
      Forall2 (λ c c',
                 if idAmong clientIds (Client.Id c)
                 then Client.Id c' = Client.Id c ∧
                      ∃ ids links,
                        clientInboundsOf c = Ok ids ∧
                        clientInboundsOf c' = Ok (ids ++ [inboundId]) ∧
                        clientLinksOf c = Ok links ∧
                        clientLinksOf c' =
                          Ok (generatedLinks c hostname inbound
                              ++ filter (λ d, index d "remark" ≠ Inbound.Tag inbound) links)
                 else c' = c)
              (tbl_clients (view tx w)) (tbl_clients (view tx w')).
Proof.
  intros clientIds inbound.
  set (rows := tbl_clients (view tx w)) in *.
  destruct (decide (clientIds = [] ∨ clientIds = [""])) as [Hnone|Hsome].
  { unfold UpdateClientsOnInboundAdd. cbv zeta. fold clientIds.
    rewrite decide_True; [done|]. destruct Hnone as [->| ->]; [by left | by right]. }
  set (sel := gorm.Find (λ r, idAmong clientIds (Client.Id r)) rows).
  assert (Hlink : ∀ c, c ∈ rows → idAmong clientIds (Client.Id c) = true →
            ∃ ids links c',
              clientInboundsOf c = Ok ids ∧ clientLinksOf c = Ok links ∧
              linkClient inboundId hostname inbound c = Ok c' ∧
              Client.Id c' = Client.Id c ∧
              clientInboundsOf c' = Ok (ids ++ [inboundId]) ∧
              clientLinksOf c' =
                Ok (generatedLinks c hostname inbound
                    ++ filter (λ d, index d "remark" ≠ Inbound.Tag inbound) links)).
  { intros c Hc Hl. rewrite Forall_forall in Hlisted. destruct (Hlisted c Hc Hl) as [Hi Hk].
    destruct (clientInboundsOf c) as [ids| |] eqn:Hids; [|done..].
    destruct (clientLinksOf c) as [links| |] eqn:Hlinks; [|done..].
    destruct (linkClient_Ok inboundId hostname inbound c ids links Hid Hids Hlinks)
      as (c' & ? & ? & ? & ?).
    by exists ids, links, c'. }
  destruct (link_loop tx inboundId hostname inbound sel w) as (w' & Hrun & Hview).
  { apply Forall_forall. intros c [Hl Hc]%list_elem_of_filter.
    rewrite Forall_forall in Hrows.
    repeat split; [by apply Hrows | by apply list_elem_of_fmap_2 |].
    destruct (Hlink c Hc Hl) as (? & ? & ? & _ & _ & -> & _). done. }
  exists w'. split.
  - unfold UpdateClientsOnInboundAdd. cbv zeta. fold clientIds.
    rewrite decide_False.
    2:{ intros [Hlen| ->]; apply Hsome; [left|by right]. by destruct clientIds. }
    erewrite bind_Ok; [|apply query_run].
    erewrite bind_Ok; [|apply query_run].
    exact Hrun.
  - rewrite Hview. fold rows. replace (tbl_clients (set_clients _ _)) with
      (foldl (λ acc c', replaced c' acc) rows (linked inboundId hostname inbound <$> sel))
      by (by destruct (view tx w)).
    rewrite (foldl_replaced (Hrow := gorm.Row_Client) (linked inboundId hostname inbound) sel rows).
    + apply Forall2_fmap_r, Forall_Forall2_diag, Forall_forall. intros c Hc.
      destruct (idAmong clientIds (Client.Id c)) eqn:Hl; unfold compose; cbv beta;
        change (gorm.pk c) with (Client.Id c).
      * rewrite bool_decide_eq_true_2.
        2:{ apply list_elem_of_fmap_2. by apply list_elem_of_filter. }
        destruct (Hlink c Hc Hl) as (ids & links & c' & Hids & Hlinks & Hu & Hid' & Hin & Hread).
        unfold linked. rewrite Hu. split; [done|]. by exists ids, links.
      * rewrite bool_decide_eq_false_2; [done|].
        intros (c0 & Hpk & [Hl0 Hc0]%list_elem_of_filter)%list_elem_of_fmap.
        rewrite (NoDup_fmap_eq Client.Id rows c c0 Hkeys Hc Hc0 Hpk) in Hl. congruence.
    + apply linked_Id.
    + by apply (NoDup_fmap_filter Client.Id).
    + intros r c Hr [_ Hc]%list_elem_of_filter Hpk. by eapply (NoDup_fmap_eq Client.Id rows).
Qed.

End ClientsOnAdd.

(** "alice", who is linked to the inbound 1 already, is listed for it
    again: its key is now twice in her inbounds, and of her descriptors the
    one that is not remarked "in1" is left after the generated one. *)
Lemma InboundAdd_links_clients_witness :
  let w := alice_world None false in
  ∃ w' alice',
    UpdateClientsOnInboundAdd TheTx "1" 1 "host" w = (w', Ok tt) ∧
    tbl_clients (txn w') = [alice'] ∧
    clientInboundsOf alice' = Ok [1%N; 1%N] ∧
    clientLinksOf alice' = Ok [local_link "in1" "vless://host#in1"; external_link].
Proof.
  intros w.
  pose proof (InboundAdd_links_clients TheTx "1" 1 "host" w) as Hrun.
  cbv zeta in Hrun. change (strings.Split "1") with ["1"] in Hrun.
  rewrite decide_False in Hrun by (intros [Hnil|Hempty]; discriminate).
  destruct Hrun as (w' & Hrun & Hall).
  - reflexivity.
  - apply NoDup_singleton.
  - repeat constructor. discriminate.
  - repeat constructor.
  - change (tbl_clients (view TheTx w)) with [alice] in Hall.
    apply Forall2_cons_inv_l in Hall as (alice' & rest & Hc & Hrest & Heq).
    apply Forall2_nil_inv_l in Hrest as ->.
    change (idAmong ["1"] (Client.Id alice)) with true in Hc. cbv iota in Hc.
    destruct Hc as (_ & ids & links & Hids & Hids' & Hlinks & Hlinks').
    assert (Halice : clientInboundsOf alice = Ok [1%N]
                     ∧ clientLinksOf alice = Ok [stale_link; external_link; external_in1])
      by (split; vm_compute; reflexivity).
    destruct Halice as [Hi Hl]. rewrite Hi in Hids. rewrite Hl in Hlinks.
    injection Hids as <-. injection Hlinks as <-.
    exists w', alice'. split; [exact Hrun|]. split; [exact Heq|].
    split; [exact Hids'|]. rewrite Hlinks'. vm_compute. reflexivity.
Defined.
